(** * gluezilla-templater: address model, page lookup, flip scan, finders, config

    A shallow embedding of the parts of the templater that the properties
    below talk about.  Every 64-bit unsigned value of the C++ code is a [Z]
    in [0, 2^64) and the wrap-around of each operation is written out. *)

From Stdlib Require Import ZArith Lia Bool List String Ascii Sorted.
From stdpp Require Import base option list gmap.
Import ListNotations.

Local Open Scope Z_scope.

(** ** Machine arithmetic (operators.h and the C++ integer rules) *)

Module Bits.

Definition wrap64 (x : Z) : Z := x mod 2 ^ 64.
Definition wrap32 (x : Z) : Z := x mod 2 ^ 32.

(** [uint64_t << n] and [uint64_t >> n].  C++ leaves a shift count of 64 or
    more undefined; the model takes the x86 instruction, which uses the count
    modulo 64. *)
Definition shl64 (x n : Z) : Z := wrap64 (Z.shiftl x (n mod 64)).
Definition shr64 (x n : Z) : Z := Z.shiftr x (n mod 64).

(** [~x] on a [uint64_t]. *)
Definition not64 (x : Z) : Z := Z.lxor x (2 ^ 64 - 1).

(** The value of an [int] converted to [uint64_t] (sign extension). *)
Definition int_to_u64 (x : Z) : Z := wrap64 ((x + 2 ^ 31) mod 2 ^ 32 - 2 ^ 31).

(** [1 << n] where the literal [1] is an [int]: the shift is done on 32 bits
    and the result converted to [uint64_t].  For [n >= 32] C++ leaves it
    undefined; the model takes the x86 count modulo 32. *)
Definition int_one_shl (n : Z) : Z := int_to_u64 (Z.shiftl 1 (n mod 32)).

(** [(1 << n) - 1] computed on [int], then converted to [uint64_t]. *)
Definition int_low_mask (n : Z) : Z := int_to_u64 (Z.shiftl 1 (n mod 32) - 1).

(** [__builtin_popcountll]. *)
Fixpoint popcount_pos (p : positive) : Z :=
  match p with
  | xH => 1
  | xO q => popcount_pos q
  | xI q => 1 + popcount_pos q
  end.

Definition count_one_bits (value : Z) : Z :=
  match value with
  | Zpos p => popcount_pos p
  | _ => 0
  end.

(** [__builtin_ctzll].  Undefined for 0 in C++; the model returns 64 there
    (the result of [tzcnt]). *)
Fixpoint ctz_pos (p : positive) : Z :=
  match p with
  | xO q => 1 + ctz_pos q
  | _ => 0
  end.

Definition count_trailing_zero_bits (value : Z) : Z :=
  match value with
  | Zpos p => ctz_pos p
  | _ => 64
  end.

(** [__builtin_clzll], undefined for 0 as well (modelled as 64). *)
Definition count_leading_zero_bits (value : Z) : Z :=
  match value with
  | Zpos p => 64 - Z.log2 (Zpos p) - 1
  | _ => 64
  end.

(** [xor_bits(value, bitmask) = __builtin_parityll(value & bitmask)]. *)
Definition xor_bits (value bitmask : Z) : Z :=
  count_one_bits (Z.land value bitmask) mod 2.

End Bits.

(** ** DRAM address model (dram_layout.h, dram_address.h, dram_address.cpp) *)

Module DRAM.
Import Bits.

Record DRAMLayout := {
  h_fns : list Z;
  row_masks : list Z;
  col_masks : list Z
}.

Record DRAMAddr := {
  bank : Z;
  row : Z;
  col : Z
}.

(** The loop of the converting constructor:
    [bank |= xor_bits(p_addr, h_fns[i]) << i]. *)
Fixpoint bank_loop (fns : list Z) (i : Z) (p_addr : Z) (bank : Z) : Z :=
  match fns with
  | [] => bank
  | f :: rest =>
      bank_loop rest (i + 1) p_addr (Z.lor bank (shl64 (xor_bits p_addr f) i))
  end.

(** The general path of [get_dram_row] / [get_dram_col]. *)
Fixpoint extract_loop (masks : list Z) (p_addr : Z) (acc offset : Z) : Z :=
  match masks with
  | [] => acc
  | mask :: rest =>
      let piece := shr64 (Z.land p_addr mask) (count_trailing_zero_bits mask) in
      extract_loop rest p_addr
        (wrap64 (acc + shl64 piece offset))
        (wrap64 (offset + count_one_bits mask))
  end.

Definition extract (masks : list Z) (p_addr : Z) : Z :=
  match masks with
  | [mask] => shr64 (Z.land p_addr mask) (count_trailing_zero_bits mask)
  | _ => extract_loop masks p_addr 0 0
  end.

Definition get_dram_row (L : DRAMLayout) (p_addr : Z) : Z :=
  extract (row_masks L) p_addr.

Definition get_dram_col (L : DRAMLayout) (p_addr : Z) : Z :=
  extract (col_masks L) p_addr.

(** [DRAMAddr::DRAMAddr(const physaddr_t &)]. *)
Definition DRAMAddr_of_phys (L : DRAMLayout) (p_addr : Z) : DRAMAddr :=
  {| bank := bank_loop (h_fns L) 0 p_addr 0;
     row := get_dram_row L p_addr;
     col := get_dram_col L p_addr |}.

(** [pop_least_significant_bits(val, n)]: the result and the new [val]. *)
Definition pop_least_significant_bits (val n : Z) : Z * Z :=
  (Z.land val (int_low_mask n), shr64 val n).

(** The general path of placing a row or column value under its masks; the
    leftover value is returned with the address for the [assert] after the
    loop. *)
Fixpoint place_loop (masks : list Z) (r : Z) (p_addr : Z) : Z * Z :=
  match masks with
  | [] => (p_addr, r)
  | mask :: rest =>
      let n := count_one_bits mask in
      let offset := count_trailing_zero_bits mask in
      let '(bits, r') := pop_least_significant_bits r n in
      place_loop rest r' (Z.lor p_addr (shl64 bits offset))
  end.

(** [std::accumulate(masks.begin(), masks.end(), 0ull)]: a wrapping sum. *)
Definition accumulate (masks : list Z) : Z :=
  fold_left (fun acc m => wrap64 (acc + m)) masks 0.

(** The sweep of [phys()] over the bank functions. *)
Fixpoint parity_sweep (fns : list Z) (i : Z) (bank : Z)
    (not_col_mask not_row_mask : Z) (p_addr : Z) : Z :=
  match fns with
  | [] => p_addr
  | f :: rest =>
      if xor_bits p_addr f =? Z.land (shr64 bank i) 1
      then parity_sweep rest (i + 1) bank not_col_mask not_row_mask p_addr
      else
        let h_lsb :=
          count_trailing_zero_bits
            (Z.land (Z.land f not_col_mask) not_row_mask) in
        parity_sweep rest (i + 1) bank not_col_mask not_row_mask
          (Z.lxor p_addr (int_one_shl h_lsb))
  end.

(** Placing one field: the fast path for a single mask, the loop and its
    [assert(r == 0)] otherwise ([None] is the failed assertion). *)
Definition place (masks : list Z) (v : Z) (p_addr : Z) : option Z :=
  match masks with
  | [mask] => Some (Z.lor p_addr (shl64 v (count_trailing_zero_bits mask)))
  | _ =>
      let '(p_addr', r) := place_loop masks v p_addr in
      if r =? 0 then Some p_addr' else None
  end.

(** [DRAMAddr::phys()]: rows, then columns, then the parity sweep.  The
    closing consistency check only logs, so it does not show in the result. *)
Definition phys (L : DRAMLayout) (d : DRAMAddr) : option Z :=
  p_rows ← place (row_masks L) (row d) 0;
  p_cols ← place (col_masks L) (col d) p_rows;
  let not_row_mask := not64 (accumulate (row_masks L)) in
  let not_col_mask := not64 (accumulate (col_masks L)) in
  Some (parity_sweep (h_fns L) 0 (bank d) not_col_mask not_row_mask p_cols).

(** The layout that [config.h] ships as the default. *)
Definition default_layout : DRAMLayout :=
  {| h_fns := [0x2040; 0x44000; 0x88000; 0x110000; 0x220000];
     row_masks := [0xffffc0000];
     col_masks := [0x1fff] |}.

End DRAM.

(** ** Physical page lookup (phys_page_finder.h, phys_page_finder.cpp) *)

Module PageFinder.
Import Bits.

(** [config.h]: [page_size = 4_KiB], [row_size = 8_KiB]. *)
Definition page_size : Z := 4096.
Definition row_size : Z := 8192.

(** [std::map<uint32_t, uint32_t>] from frame number to page offset, and the
    start [mem] of the owned virtual region. *)
Record PhysPageFinder := {
  mem : Z;
  pagemap : gmap Z Z
}.

(** [PhysPageFinder::contains(page_t)]: the key is narrowed to [uint32_t]. *)
Definition contains (finder : PhysPageFinder) (phys_page : Z) : bool :=
  bool_decide (is_Some (pagemap finder !! wrap32 phys_page)).

(** [PhysPageFinder::find_page(phys_addr, virt_addr)]: the returned flag and
    the value of the reference parameter [virt_addr] afterwards. *)
Definition find_page (finder : PhysPageFinder) (phys_addr : Z) (virt_addr : Z)
    : bool * Z :=
  match pagemap finder !! wrap32 (phys_addr / page_size) with
  | None => (false, virt_addr)
  | Some page_offset => (true, wrap64 (mem finder + wrap64 (page_offset * page_size)))
  end.

End PageFinder.

(** ** Bit flipper: page resolution and flip scan (bit_flipper.h, bit_flipper.cpp) *)

Module Flipper.
Import Bits PageFinder.

Record HammerAddrs := {
  aggs : list Z;
  victims : list Z
}.

Record BitFlipper := {
  phys : HammerAddrs;
  virt_aggs : list Z;
  virt_victims : list Z
}.

(** The constructor sizes both virtual vectors after the physical ones; the
    elements are value-initialised. *)
Definition BitFlipper_new (addrs : HammerAddrs) : BitFlipper :=
  {| phys := addrs;
     virt_aggs := replicate (length (aggs addrs)) 0;
     virt_victims := replicate (length (victims addrs)) 0 |}.

(** One of the two loops of [find_pages]:
    [for (i = 0; i < phys.size(); ++i) found &= finder.find_page(phys[i], virt[i])],
    run for index [i] and the [n] indices after it. *)
Fixpoint resolve_loop (finder : PhysPageFinder) (phys_addrs : list Z)
    (n : nat) (i : nat) (virt : list Z) (found : bool) : list Z * bool :=
  match n with
  | O => (virt, found)
  | S n' =>
      let '(ok, v) :=
        find_page finder (phys_addrs !!! i) (virt !!! i) in
      resolve_loop finder phys_addrs n' (S i) (<[i := v]> virt) (found && ok)
  end.

(** [BitFlipper::find_pages]: the flipper afterwards and the result. *)
Definition find_pages (flipper : BitFlipper) (finder : PhysPageFinder)
    : BitFlipper * bool :=
  let '(va, found) :=
    resolve_loop finder (aggs (phys flipper)) (length (aggs (phys flipper)))
      0 (virt_aggs flipper) true in
  let '(vv, found) :=
    resolve_loop finder (victims (phys flipper))
      (length (victims (phys flipper))) 0 (virt_victims flipper) found in
  ({| phys := phys flipper; virt_aggs := va; virt_victims := vv |}, found).

(** What the scan reports for one flipped bit: the arguments of
    [log_info_flip] and [db->insert_bitflip(victim_phys, victim_bit, flips_to)]. *)
Record BitFlip := {
  victim_phys : Z;
  victim_bit : Z;
  flips_to : Z
}.

(** [for (uint8_t bit = 0; bit < 64; bit++)] from [bit] on, [n] bits to go. *)
Fixpoint bit_loop (n : nat) (bit : Z) (victim_row_phys flip_offset_bytes : Z)
    (victim_init val : Z) : list BitFlip :=
  match n with
  | O => []
  | S n' =>
      let flips_to := Z.land (shr64 val bit) 1 in
      let rest :=
        bit_loop n' (bit + 1) victim_row_phys flip_offset_bytes victim_init val in
      if Z.land (shr64 victim_init bit) 1 =? flips_to then rest
      else
        let victim_byte := bit / 8 in
        {| victim_phys :=
             wrap64 (wrap64 (victim_row_phys + flip_offset_bytes) + victim_byte);
           victim_bit := bit mod 8;
           flips_to := flips_to |} :: rest
  end.

(** The body of the word loop: nothing for an intact word, the bit loop
    otherwise. *)
Definition check_word (victim_row_phys flip_offset_bytes : Z)
    (victim_init val : Z) : list BitFlip :=
  if val =? victim_init then []
  else bit_loop 64 0 victim_row_phys flip_offset_bytes victim_init val.

(** The word loop over one victim row: [addr] runs from the row's virtual
    start to [row_size] bytes further in steps of 8; [read] is the memory
    after hammering. *)
Fixpoint word_loop (read : Z -> Z) (n : nat) (addr : Z)
    (victim victim_row_phys : Z) (victim_init : Z) : list BitFlip :=
  match n with
  | O => []
  | S n' =>
      check_word victim_row_phys (wrap64 (addr - victim)) victim_init (read addr)
      ++ word_loop read n' (addr + 8) victim victim_row_phys victim_init
  end.

(** The scan of [hammer_and_check] over all victims, in order. *)
Fixpoint victim_loop (read : Z -> Z) (phys_victims virt : list Z)
    (victim_init : Z) : list BitFlip :=
  match phys_victims, virt with
  | p :: ps, v :: vs =>
      word_loop read (Z.to_nat (row_size / 8)) v v p victim_init
      ++ victim_loop read ps vs victim_init
  | _, _ => []
  end.

Definition check_flips (read : Z -> Z) (flipper : BitFlipper)
    (victim_init : Z) : list BitFlip :=
  victim_loop read (victims (phys flipper)) (virt_victims flipper) victim_init.

End Flipper.

(** ** Hammer pattern (hammer_pattern.h; the body of the constructor follows
       the design description) *)

Module Pattern.

(** The tokens of a pattern description: [v], [a] and [x]. *)
Inductive token := V | A | X.

(** [HammerPattern::count_char_in_description('a')]. *)
Fixpoint count_aggressors (description : list token) : Z :=
  match description with
  | [] => 0
  | A :: rest => 1 + count_aggressors rest
  | _ :: rest => count_aggressors rest
  end.

(** [std::count(pattern.begin(), pattern.end(), true)]. *)
Fixpoint count_true (bits : list bool) : Z :=
  match bits with
  | [] => 0
  | true :: rest => 1 + count_true rest
  | false :: rest => count_true rest
  end.

(** Modelled from the spec: the body of [HammerPattern::create_pattern] is
    missing.  One period of the template: [v] and [a] become a victim and an
    aggressor bit, [x] becomes a run of victim bits whose length is the next
    random draw ([draws] stands for the generator, 0 once exhausted). *)
Fixpoint expand_period (description : list token) (draws : list nat)
    : list bool * list nat :=
  match description with
  | [] => ([], draws)
  | V :: rest =>
      let '(bits, d) := expand_period rest draws in (false :: bits, d)
  | A :: rest =>
      let '(bits, d) := expand_period rest draws in (true :: bits, d)
  | X :: rest =>
      let '(bits, d) := expand_period rest (tl draws) in
      (replicate (hd O draws) false ++ bits, d)
  end.

(** Modelled from the spec: the template is repeated until the number of
    aggressor bits reaches [aggressor_rows]; [fuel] bounds the number of
    repetitions, and [None] means the bound was hit. *)
Fixpoint repeat_template (fuel : nat) (description : list token)
    (aggressor_rows : Z) (draws : list nat) (bits : list bool)
    : option (list bool) :=
  if aggressor_rows <=? count_true bits then Some bits
  else
    match fuel with
    | O => None
    | S fuel' =>
        let '(period, d) := expand_period description draws in
        repeat_template fuel' description aggressor_rows d (bits ++ period)
    end.

(** Modelled from the spec: after the repetition a terminal victim is
    appended if the pattern, the description as the configuration gives it,
    ends in [a] (section 4.3).  The comment on [hammer_pattern] in config.h
    has the rule in full: a victim row is added at the end if the pattern
    does not end in [v]. *)
Definition close_pattern (description : list token) (bits : list bool)
    : list bool :=
  match last description with
  | Some V => bits
  | _ => bits ++ [false]
  end.

(** Modelled from the spec: [HammerPattern(description, aggressor_rows)], the
    constructor whose body is missing (Blacksmith builds, which take the count
    from [hammer_order], are left out).  The result is the bit sequence and
    the aggressor count reported back through the reference parameter. *)
Definition HammerPattern (fuel : nat) (description : list token)
    (aggressor_rows : Z) (draws : list nat) : option (list bool * Z) :=
  bits ← repeat_template fuel description aggressor_rows draws [];
  let pattern := close_pattern description bits in
  Some (pattern, count_true pattern).

End Pattern.

(** ** Non-contiguous flip finder (noncontiguous_flip_finder.h/.cpp) *)

Module Noncontiguous.
Import Bits DRAM PageFinder Flipper.

(** The members and configuration values [hammer] reads.  A [std::set<row_t>]
    is the ascending list of its elements. *)
Record Finder := {
  finder : PhysPageFinder;
  layout : DRAMLayout;
  hammer_pattern : list bool;
  row_padding : Z;
  missing_rows : gmap Z (list Z)
}.

(** [std::set::lower_bound]: the first element not below [x]. *)
Definition lower_bound (s : list Z) (x : Z) : option Z :=
  List.find (fun r => x <=? r) s.

(** [NoncontiguousFlipFinder::is_any_row_missing]; [None] is the
    [std::out_of_range] that [missing_rows.at(bank)] throws for a bank
    without an entry. *)
Definition is_any_row_missing (F : Finder) (bank first_row last_row : Z)
    : option bool :=
  s ← missing_rows F !! bank;
  Some match lower_bound s (wrap64 (first_row - row_padding F)) with
       | None => false
       | Some r => r <=? wrap64 (last_row + row_padding F)
       end.

(** The loop of [hammer] over the pattern: each row of the window becomes an
    aggressor or a victim address; [None] is a failed assertion of [phys()]. *)
Fixpoint collect_addrs (L : DRAMLayout) (pattern : list bool)
    (bank first_victim offset : Z) (addrs : HammerAddrs) : option HammerAddrs :=
  match pattern with
  | [] => Some addrs
  | is_agg :: rest =>
      p ← DRAM.phys L {| DRAM.bank := bank;
                          row := wrap64 (first_victim + offset);
                          col := 0 |};
      collect_addrs L rest bank first_victim (wrap32 (offset + 1))
        (if is_agg : bool
         then {| aggs := aggs addrs ++ [p]; victims := victims addrs |}
         else {| aggs := aggs addrs; victims := victims addrs ++ [p] |})
  end.

(** What one call of [hammer] did. *)
Inductive Step :=
| Skipped
| PagesNotFound
| Hammered (flipper : BitFlipper).

(** [NoncontiguousFlipFinder::hammer]: the returned flag (continue the
    experiment loop?) and what was done; [do_exit] is the value of the
    interrupt flag after hammering. *)
Definition hammer (F : Finder) (do_exit : bool)
    (bank first_victim last_victim : Z) : option (bool * Step) :=
  missing ← is_any_row_missing F bank first_victim last_victim;
  if missing : bool then Some (true, Skipped)
  else
    addrs ← collect_addrs (layout F) (hammer_pattern F) bank first_victim 0
              {| aggs := []; victims := [] |};
    let '(flipper, found) := find_pages (BitFlipper_new addrs) (finder F) in
    if found : bool
    then Some (negb do_exit, Hammered flipper)
    else Some (false, PagesNotFound).

End Noncontiguous.

(** ** Configuration verification (config.h, config.cpp) *)

Module Conf.
Import Bits DRAM.

(** What [config.h] keeps of a hammer pattern: the description and the bits. *)
Record HammerPattern := {
  description : string;
  pattern_bits : list bool
}.

(** The members of [Config] that [verify_values] reads or writes, and the
    other [hammer] settings next to them. *)
Record Config := {
  dram_layout : DRAMLayout;
  hammer_count : Z;
  aggressor_rows : Z;
  banks : list Z;
  row_padding : Z;
  hammer_pattern : HammerPattern;
  victim_init : list Z;
  aggressor_init : list Z;
  test_min_rows : Z;
  test_max_rows : Z;
  test_first_row : Z;
  test_last_row : Z;
  dimms : list string;
  dimm_ids : list (string * string)
}.

Inductive LogLine :=
| LogError (msg : string)
| LogWarn (msg : string)
| LogInfo (msg : string).

(** How [verify_values] ends: [log_error_and_exit] or a return. *)
Inductive Outcome :=
| Exit (log : list LogLine)
| Verified (c : Config) (log : list LogLine).

(** [Config::verify_masks]. *)
Definition verify_masks (masks : list Z) : bool :=
  forallb (fun mask =>
             count_leading_zero_bits mask + count_one_bits mask
             + count_trailing_zero_bits mask =? 64) masks.

(** [DRAMLayout::get_banks_cnt]: [1 << h_fns.size()] on [int]. *)
Definition get_banks_cnt (L : DRAMLayout) : Z :=
  int_one_shl (Z.of_nat (length (h_fns L))).

Definition set_banks (c : Config) (b : list Z) : Config :=
  {| dram_layout := dram_layout c; hammer_count := hammer_count c;
     aggressor_rows := aggressor_rows c; banks := b;
     row_padding := row_padding c; hammer_pattern := hammer_pattern c;
     victim_init := victim_init c; aggressor_init := aggressor_init c;
     test_min_rows := test_min_rows c; test_max_rows := test_max_rows c;
     test_first_row := test_first_row c; test_last_row := test_last_row c;
     dimms := dimms c; dimm_ids := dimm_ids c |}.

Definition set_test_max_rows (c : Config) (v : Z) : Config :=
  {| dram_layout := dram_layout c; hammer_count := hammer_count c;
     aggressor_rows := aggressor_rows c; banks := banks c;
     row_padding := row_padding c; hammer_pattern := hammer_pattern c;
     victim_init := victim_init c; aggressor_init := aggressor_init c;
     test_min_rows := test_min_rows c; test_max_rows := v;
     test_first_row := test_first_row c; test_last_row := test_last_row c;
     dimms := dimms c; dimm_ids := dimm_ids c |}.

Definition set_pattern (c : Config) (hp : HammerPattern) (rows : Z) : Config :=
  {| dram_layout := dram_layout c; hammer_count := hammer_count c;
     aggressor_rows := rows; banks := banks c;
     row_padding := row_padding c; hammer_pattern := hp;
     victim_init := victim_init c; aggressor_init := aggressor_init c;
     test_min_rows := test_min_rows c; test_max_rows := test_max_rows c;
     test_first_row := test_first_row c; test_last_row := test_last_row c;
     dimms := dimms c; dimm_ids := dimm_ids c |}.

Definition set_aggressor_init (c : Config) (a : list Z) : Config :=
  {| dram_layout := dram_layout c; hammer_count := hammer_count c;
     aggressor_rows := aggressor_rows c; banks := banks c;
     row_padding := row_padding c; hammer_pattern := hammer_pattern c;
     victim_init := victim_init c; aggressor_init := a;
     test_min_rows := test_min_rows c; test_max_rows := test_max_rows c;
     test_first_row := test_first_row c; test_last_row := test_last_row c;
     dimms := dimms c; dimm_ids := dimm_ids c |}.

Definition set_dimms (c : Config) (d : list string) : Config :=
  {| dram_layout := dram_layout c; hammer_count := hammer_count c;
     aggressor_rows := aggressor_rows c; banks := banks c;
     row_padding := row_padding c; hammer_pattern := hammer_pattern c;
     victim_init := victim_init c; aggressor_init := aggressor_init c;
     test_min_rows := test_min_rows c; test_max_rows := test_max_rows c;
     test_first_row := test_first_row c; test_last_row := test_last_row c;
     dimms := d; dimm_ids := dimm_ids c |}.

Definition warn_test_max_rows : LogLine :=
  LogWarn "Changed value of test_max_rows to minimum allowed value (test_min_rows + 2 * row_padding)".

(** The [test_max_rows] block of [verify_values].  [row_padding * 2] is a
    32-bit product, the sum with [test_min_rows] a 64-bit one. *)
Definition check_test_max_rows (c : Config) : Config * list LogLine :=
  let test_max_rows_lb := wrap64 (test_min_rows c + wrap32 (row_padding c * 2)) in
  if (0 <? test_max_rows c) && (test_max_rows c <? test_max_rows_lb)
  then (set_test_max_rows c test_max_rows_lb, [warn_test_max_rows])
  else (c, []).

(** The [aggressor_init] block: an empty list becomes the inverted
    [victim_init]. *)
Definition check_aggressor_init (c : Config) : Config :=
  match aggressor_init c with
  | [] => set_aggressor_init c (map not64 (victim_init c))
  | _ => c
  end.

(** The [banks] block: an empty list becomes all banks, a bank out of range
    ends the process ([None]). *)
Definition check_banks (c : Config) : option Config :=
  let banks_cnt := get_banks_cnt (dram_layout c) in
  match banks c with
  | [] => Some (set_banks c (seqZ 0 banks_cnt))
  | _ => if existsb (fun b => banks_cnt <=? b) (banks c) then None else Some c
  end.

Section Verify.

(** The two collaborators whose bodies are elsewhere: the pattern constructor
    [HammerPattern(description, aggressor_rows)] ([None]: it ended the
    process) and [DMIDecodeParser::get_dimms] ([None]: it returned false). *)
Variable construct_pattern : string -> Z -> option (list bool * Z).
Variable get_dimms : list (string * string) -> option (list string).

(** The [hammer_pattern] block: an empty pattern is built from its
    description, which may change [aggressor_rows]. *)
Definition check_hammer_pattern (c : Config) : option Config :=
  match pattern_bits (hammer_pattern c) with
  | [] =>
      match construct_pattern (description (hammer_pattern c))
              (aggressor_rows c) with
      | Some (bits, rows) =>
          Some (set_pattern c
                  {| description := description (hammer_pattern c);
                     pattern_bits := bits |} rows)
      | None => None
      end
  | _ => Some c
  end.

(** The [dimm_ids] block of builds with the database backend. *)
Definition check_dimms (c : Config) (log : list LogLine) : Outcome :=
  match dimm_ids c with
  | [] => Verified c log
  | ids =>
      match get_dimms ids with
      | Some detected =>
          Verified (set_dimms c detected) (log ++ [LogInfo "Detected DIMMs"])
      | None => Verified c (log ++ [LogWarn "Defaulting to configured DIMMs"])
      end
  end.

(** [Config::verify_values] from the [test_max_rows] block on. *)
Definition verify_from_test_max_rows (c1 : Config) : Outcome :=
  let '(c2, log2) := check_test_max_rows c1 in
  match check_hammer_pattern c2 with
  | None => Exit log2
  | Some c3 =>
      let c4 := check_aggressor_init c3 in
      if negb (length (victim_init c4) =? length (aggressor_init c4))%nat
      then Exit (log2 ++ [LogError "victim_init and aggressor_init must have same number of items"])
      else check_dimms c4 log2
  end.

(** [Config::verify_values], block by block. *)
Definition verify_values (c : Config) : Outcome :=
  if negb (verify_masks (row_masks (dram_layout c))) then
    Exit [LogError "All 1-bits in row mask must be consecutive - use multiple row masks for non-consecutive 1-bits"]
  else if negb (verify_masks (col_masks (dram_layout c))) then
    Exit [LogError "All 1-bits in column mask must be consecutive - use multiple column masks for non-consecutive 1-bits"]
  else
    match check_banks c with
    | None => Exit [LogError "Specified a bank that is out of range"]
    | Some c1 => verify_from_test_max_rows c1
    end.

End Verify.

End Conf.

(** ** Vocabulary of the properties *)

Module Scan.
Import Bits Flipper.

(** The event the bit loop builds at position [bit] of the word [val]. *)
Definition event_at (victim_row_phys flip_offset_bytes val bit : Z) : BitFlip :=
  {| victim_phys := wrap64 (wrap64 (victim_row_phys + flip_offset_bytes) + bit / 8);
     victim_bit := bit mod 8;
     flips_to := Z.land (Z.shiftr val bit) 1 |}.

(** The positions from [from] on, [n] of them, at which [w] and [init]
    differ. *)
Definition differing_bits (w init from : Z) (n : nat) : list Z :=
  List.filter (Z.testbit (Z.lxor w init)) (seqZ from (Z.of_nat n)).

(** A flipper with one victim row, and a memory in which only the first
    word of that row changed, from 0 to 0x100. *)
Definition one_victim_flipper : BitFlipper :=
  {| phys := {| aggs := []; victims := [0x10000] |};
     virt_aggs := [];
     virt_victims := [0x7f0000000000] |}.

Definition one_flip_memory (addr : Z) : Z :=
  if addr =? 0x7f0000000000 then 0x100 else 0.

(** Is the address an event carries one of the 8 bytes of the word
    [flip_offset_bytes] bytes into the row at [victim_row_phys]? *)
Definition in_word (victim_row_phys flip_offset_bytes : Z) (e : BitFlip) : bool :=
  (victim_row_phys + flip_offset_bytes <=? victim_phys e)
  && (victim_phys e <? victim_row_phys + flip_offset_bytes + 8).

(** The position in that word an event stands for: its byte within the word
    and its bit within the byte. *)
Definition flipped_bit (victim_row_phys flip_offset_bytes : Z) (e : BitFlip) : Z :=
  8 * (victim_phys e - (victim_row_phys + flip_offset_bytes)) + victim_bit e.

(** Victim rows that lie within the 64-bit addresses, no two overlapping. *)
Fixpoint rows_apart (rows : list Z) : bool :=
  match rows with
  | [] => true
  | p :: rest =>
      (0 <=? p) && (p + PageFinder.row_size <=? 2 ^ 64)
      && forallb (fun q => (p + PageFinder.row_size <=? q)
                   || (q + PageFinder.row_size <=? p)) rest
      && rows_apart rest
  end.

(** A flipper with two victim rows around one aggressor row, and a memory
    that holds the template 0xff except for word 1 of the first victim row
    (0x7e: bits 0 and 7 dropped to 0) and word 0 of the second (0x1ff: bit 8
    raised to 1). *)
Definition two_victim_flipper : BitFlipper :=
  {| phys := {| aggs := [0x12000]; victims := [0x10000; 0x14000] |};
     virt_aggs := [0x7f0000002000];
     virt_victims := [0x7f0000000000; 0x7f0000004000] |}.

Definition two_flip_memory (addr : Z) : Z :=
  if addr =? 0x7f0000000008 then 0x7e
  else if addr =? 0x7f0000004000 then 0x1ff
  else 0xff.

End Scan.

Module Resolve.
Import Bits PageFinder Flipper.

(** The virtual address [find_page] leaves in an entry that held [old]. *)
Definition resolved (finder : PhysPageFinder) (phys_addr old : Z) : Z :=
  match pagemap finder !! wrap32 (phys_addr / page_size) with
  | Some page_offset => wrap64 (mem finder + wrap64 (page_offset * page_size))
  | None => old
  end.

Definition present (finder : PhysPageFinder) (phys_addr : Z) : bool :=
  bool_decide (is_Some (pagemap finder !! wrap32 (phys_addr / page_size))).

(** A finder that owns frame 1 only, and a fresh flipper for two aggressor
    rows and one victim row. *)
Definition one_frame_finder : PhysPageFinder :=
  {| mem := 0x7f0000000000; pagemap := {[ 1 := 5 ]} |}.

Definition fresh_flipper : BitFlipper :=
  BitFlipper_new {| aggs := [0x1000; 0x3000]; victims := [0x2000] |}.

End Resolve.

Module Examples.
Import Bits DRAM PageFinder Flipper Noncontiguous.

(** A finder that owns rows 5, 6 and 7 of bank 0 but not row 2 of that
    bank, with the default padding of 10 rows and the pattern [vav]. *)
Definition low_rows_finder : Finder :=
  {| finder := {| mem := 0x7f0000000000;
                  pagemap := list_to_map [(340, 0); (408, 2); (476, 4)] |};
     layout := default_layout;
     hammer_pattern := [false; true; false];
     row_padding := 10;
     missing_rows := {[ 0 := [2] ]} |}.

End Examples.

Module ConfExamples.
Import Bits DRAM Conf.

(** The tokens of a description string; [None] for any other character. *)
Fixpoint parse_description (s : string) : option (list Pattern.token) :=
  match s with
  | EmptyString => Some []
  | String c rest =>
      t ← (if Ascii.eqb c "v" then Some Pattern.V
           else if Ascii.eqb c "a" then Some Pattern.A
           else if Ascii.eqb c "x" then Some Pattern.X
           else None);
      ts ← parse_description rest;
      Some (t :: ts)
  end.

(** Modelled from the spec: the pattern constructor that [verify_values]
    calls, whose body is missing, as [Pattern.HammerPattern] on the tokens of
    the description, without random gaps. *)
Definition spec_pattern (description : string) (aggressor_rows : Z)
    : option (list bool * Z) :=
  tokens ← parse_description description;
  Pattern.HammerPattern (Z.to_nat aggressor_rows) tokens aggressor_rows [].

(** The values [config.h] gives the modelled members; the pattern holds its
    description only until it is built. *)
Definition default_config : Config :=
  {| dram_layout := default_layout;
     hammer_count := 1000000;
     aggressor_rows := 24;
     banks := [];
     row_padding := 10;
     hammer_pattern :=
       {| description := "va"; pattern_bits := [] |};
     victim_init := [0; 2 ^ 64 - 1];
     aggressor_init := [2 ^ 64 - 1; 0];
     test_min_rows := 49;
     test_max_rows := 0;
     test_first_row := 0;
     test_last_row := 0;
     dimms := [];
     dimm_ids := [] |}.

End ConfExamples.

Module Canonical.
Import Bits DRAM.

(** All bits covered by a list of masks. *)
Definition mask_union (masks : list Z) : Z := fold_right Z.lor 0 masks.

Definition row_col_mask (L : DRAMLayout) : Z :=
  Z.lor (mask_union (row_masks L)) (mask_union (col_masks L)).

(** A non-zero 64-bit mask whose one bits are consecutive. *)
Definition contiguous (mask : Z) : bool :=
  (0 <? mask) && (mask <? 2 ^ 64)
  && (mask =? Z.shiftl (Z.ones (count_one_bits mask))
                (count_trailing_zero_bits mask)).

Definition total_bits (masks : list Z) : Z :=
  fold_right (fun m acc => count_one_bits m + acc) 0 masks.

(** A usable row or column field: one contiguous mask, or a list of
    contiguous masks of at most 30 bits each and 64 bits together (the
    general path splits the value with [int] arithmetic). *)
Definition field_ok (masks : list Z) : bool :=
  match masks with
  | [mask] => contiguous mask
  | _ =>
      forallb (fun m => contiguous m && (count_one_bits m <=? 30)) masks
      && (total_bits masks <=? 64)
  end.

(** The value the general path of [get_dram_row] builds: the projections
    under the masks, the first mask lowest. *)
Fixpoint concat_pieces (masks : list Z) (p_addr : Z) : Z :=
  match masks with
  | [] => 0
  | m :: rest =>
      shr64 (Z.land p_addr m) (count_trailing_zero_bits m)
      + Z.shiftl (concat_pieces rest p_addr) (count_one_bits m)
  end.

(** The bit [phys()] toggles for the bank function [f]: the lowest bit of [f]
    outside the accumulated column and row masks. *)
Definition free_bits (L : DRAMLayout) (f : Z) : Z :=
  Z.land (Z.land f (not64 (accumulate (col_masks L))))
    (not64 (accumulate (row_masks L))).

Definition toggle_bit (L : DRAMLayout) (f : Z) : Z :=
  count_trailing_zero_bits (free_bits L f).

Definition toggle_mask (L : DRAMLayout) (fns : list Z) : Z :=
  fold_right (fun f acc => Z.lor (Z.shiftl 1 (toggle_bit L f)) acc) 0 fns.

(** The bank functions share no bit with a row or column mask. *)
Definition no_shared_bits (L : DRAMLayout) : bool :=
  forallb (fun f => Z.land f (row_col_mask L) =? 0) (h_fns L).

(** Every bank function is a 64-bit value with a toggle bit below bit 31
    ([1 << h_lsb] is an [int] shift) and contains the toggle bit of no later
    function. *)
Fixpoint toggles_ok (L : DRAMLayout) (fns : list Z) : bool :=
  match fns with
  | [] => true
  | f :: rest =>
      (0 <=? f) && (f <? 2 ^ 64)
      && negb (free_bits L f =? 0)
      && (toggle_bit L f <=? 30)
      && (Z.land f (toggle_mask L rest) =? 0)
      && toggles_ok L rest
  end.

(** What the sweep of [phys()] needs of the bank functions it still has to
    visit: a toggle bit below bit 31 that lies outside the row and column
    masks, and no toggle bit of a later function inside an earlier one. *)
Fixpoint sweep_ready (L : DRAMLayout) (fns : list Z) : Prop :=
  match fns with
  | [] => True
  | f :: rest =>
      0 <= f < 2 ^ 64
      /\ 0 < free_bits L f
      /\ toggle_bit L f <= 30
      /\ Z.testbit (row_col_mask L) (toggle_bit L f) = false
      /\ Z.land f (toggle_mask L rest) = 0
      /\ sweep_ready L rest
  end.

Definition layout_ok (L : DRAMLayout) : bool :=
  field_ok (row_masks L) && field_ok (col_masks L)
  && (Z.of_nat (length (h_fns L)) <=? 64)
  && toggles_ok L (h_fns L).

(** A 64-bit address whose one bits lie in the row masks, the column masks
    or the toggle bits of the bank functions. *)
Definition canonical (L : DRAMLayout) (p_addr : Z) : bool :=
  (0 <=? p_addr) && (p_addr <? 2 ^ 64)
  && (Z.ldiff p_addr (Z.lor (row_col_mask L) (toggle_mask L (h_fns L))) =? 0).

(** A layout whose single bank function has two bits outside the masks. *)
Definition two_bit_layout : DRAMLayout :=
  {| h_fns := [0x6000]; row_masks := [0xffff8000]; col_masks := [0x1fff] |}.

(** A layout whose two bank functions keep clear of the masks, the first
    without the toggle bit of the second. *)
Definition clear_layout : DRAMLayout :=
  {| h_fns := [0x4000; 0x6000]; row_masks := [0xffff8000]; col_masks := [0x1fff] |}.

End Canonical.

From stdpp Require Import sorting.

Local Open Scope Z_scope.

(** ** More of the bit flipper: the result of the scan *)

Module ScanResult.
Import Bits PageFinder Flipper.

(** The counter [bitflips] of [hammer_and_check] after the scan, and the
    value the function returns, [bitflips > 0]. *)
Definition bitflips (read : Z -> Z) (flipper : BitFlipper) (victim_init : Z) : Z :=
  wrap64 (Z.of_nat (length (check_flips read flipper victim_init))).

Definition hammer_and_check_result (read : Z -> Z) (flipper : BitFlipper)
    (victim_init : Z) : bool :=
  0 <? bitflips read flipper victim_init.

(** The number of bits in which the [n] words from [addr] on differ from the
    template. *)
Fixpoint row_distance (read : Z -> Z) (n : nat) (addr victim_init : Z) : Z :=
  match n with
  | O => 0
  | S n' =>
      count_one_bits (Z.lxor (read addr) victim_init)
      + row_distance read n' (addr + 8) victim_init
  end.

(** The same over the rows that start at the addresses [virt]. *)
Fixpoint rows_distance (read : Z -> Z) (virt : list Z) (victim_init : Z) : Z :=
  match virt with
  | [] => 0
  | v :: vs =>
      row_distance read (Z.to_nat (row_size / 8)) v victim_init
      + rows_distance read vs victim_init
  end.

End ScanResult.

(** ** Building the page map (phys_page_finder.cpp, flip_finder.h) *)

Module PageMapBuild.
Import Bits PageFinder.

(** Bits 0-54 of a pagemap entry. *)
Definition frame_number_from_pagemap (pagemap_entry : Z) : Z :=
  Z.land pagemap_entry (Z.shiftl 1 55 - 1).

(** Bit 63 of a pagemap entry. *)
Definition is_page_present (pagemap_entry : Z) : Z :=
  Z.land pagemap_entry (Z.shiftl 1 63).

(** [get_physical_addr(virtual_addr, fd)]: [read_at pos] is what the 8-byte
    read at file position [pos] gives, [None] when it does not give 8 bytes;
    [None] is a failed assertion. *)
Definition get_physical_addr (read_at : Z -> option Z) (virtual_addr : Z)
    : option Z :=
  match read_at (wrap64 (virtual_addr / page_size * 8)) with
  | None => None
  | Some value =>
      if Z.land value (Z.shiftl 1 63) =? 0 then None
      else
        let frame_num := frame_number_from_pagemap value in
        if 0 <? frame_num
        then Some (Z.lor (wrap64 (frame_num * page_size))
                     (Z.land virtual_addr (page_size - 1)))
        else None
  end.

Definition read_pages : Z := 1024 / 8.

(** The inner loop of the constructor over the entries one [pread64] has put
    into the buffer, at index [j] and after; [None] is a failed assertion. *)
Fixpoint entry_loop (buffer : list Z) (i j : Z) (pm : gmap Z Z)
    : option (gmap Z Z) :=
  match buffer with
  | [] => Some pm
  | entry :: rest =>
      if is_page_present entry =? 0 then entry_loop rest i (j + 1) pm
      else
        let frame := frame_number_from_pagemap entry in
        let page_offset := wrap64 (i + j) in
        if (frame <=? 2 ^ 32 - 1) && (page_offset <=? 2 ^ 32 - 1)
        then entry_loop rest i (j + 1) (<[wrap32 frame := wrap32 page_offset]> pm)
        else None
  end.

(** The outer loop, [for (i = 0; i < memory_size / page_size; i += read_pages)],
    at [i] with [n] rounds to go; [pread64 off] is the list of the whole
    entries the read of [read_pages * 8] bytes at file offset [off] gives. *)
Fixpoint chunk_loop (pread64 : Z -> list Z) (mem_start pages : Z) (n : nat)
    (i : Z) (pm : gmap Z Z) : option (gmap Z Z) :=
  match n with
  | O => Some pm
  | S n' =>
      if i <? pages then
        match entry_loop
                (pread64 (wrap64 (wrap64 (mem_start / page_size + i) * 8)))
                i 0 pm with
        | None => None
        | Some pm' =>
            chunk_loop pread64 mem_start pages n' (wrap64 (i + read_pages)) pm'
        end
      else Some pm
  end.

(** The page map the constructor builds for the region of [memory_size]
    bytes at [mem_start]. *)
Definition build_pagemap (pread64 : Z -> list Z) (mem_start memory_size : Z)
    : option PhysPageFinder :=
  let pages := memory_size / page_size in
  match chunk_loop pread64 mem_start pages
          (Z.to_nat (pages / read_pages + 1)) 0 ∅ with
  | None => None
  | Some pm => Some {| mem := mem_start; pagemap := pm |}
  end.

(** [FlipFinder::phys_2_page] and [FlipFinder::page_2_phys]. *)
Definition phys_2_page (phys_addr : Z) : Z := shr64 phys_addr 12.
Definition page_2_phys (page : Z) : Z := shl64 page 12.

(** A pagemap file all of whose reads are complete: [entry_at idx] is the
    entry of the virtual page [idx]. *)
Definition complete_pread (entry_at : Z -> Z) (off : Z) : list Z :=
  map entry_at (seqZ (off / 8) read_pages).

Definition complete_read (entry_at : Z -> Z) (pos : Z) : option Z :=
  Some (entry_at (pos / 8)).

(** The number of page offsets the constructor looks at: the page count
    rounded up to whole reads. *)
Definition scanned (memory_size : Z) : Z :=
  read_pages * ((memory_size / page_size + read_pages - 1) / read_pages).

(** The entry of the page at offset [o] of the region at [mem_start]. *)
Definition region_entry (entry_at : Z -> Z) (mem_start o : Z) : Z :=
  entry_at (mem_start / page_size + o).

(** [pm] is the map after the entries of the page offsets below [n] have
    been looked at: a frame maps to the last offset whose entry is present
    and names that frame. *)
Definition recorded (entry_at : Z -> Z) (mem_start : Z) (pm : gmap Z Z) (n : Z)
    : Prop :=
  forall f o,
    pm !! f = Some o
    <-> 0 <= o < n
        /\ is_page_present (region_entry entry_at mem_start o) <> 0
        /\ frame_number_from_pagemap (region_entry entry_at mem_start o) = f
        /\ forall o', o < o' < n ->
              is_page_present (region_entry entry_at mem_start o') <> 0 ->
              frame_number_from_pagemap (region_entry entry_at mem_start o') <> f.

(** An example: every page present, the page with index [idx] in frame
    [idx + 1]; a region of 130 pages. *)
Definition shifted_frames (idx : Z) : Z := Z.lor (Z.shiftl 1 63) (idx + 1).
Definition example_mem : Z := 0x10000000.
Definition example_size : Z := 130 * 4096.

End PageMapBuild.

(** ** The hammer loop as machine code (bit_flipper.cpp, operators.h) *)

Module MachineCode.
Import Bits.

(** [to_byte_array<T>(value)] for a [T] of [size] bytes:
    [byte_array[i] = (value >> (i * 8)) & 0xFF] for [i] from 0 on. *)
Fixpoint byte_loop (n : nat) (i : Z) (value : Z) : list Z :=
  match n with
  | O => []
  | S n' => Z.land (Z.shiftr value (i * 8)) 0xFF :: byte_loop n' (i + 1) value
  end.

Definition to_byte_array (size : nat) (value : Z) : list Z :=
  byte_loop size 0 value.

Definition function_start : list Z :=
  [0xf3; 0x0f; 0x1e; 0xfa; 0x55; 0x48; 0x89; 0xe5; 0x48; 0xc7; 0xc3].
Definition mov_agg_addr : list Z := [0x48; 0xb8].
Definition hammer_agg : list Z := [0x48; 0x8b; 0x08].
Definition nop : Z := 0x90.

(** [flush_agg], by whether [__CLFLUSHOPT__] is defined. *)
Definition flush_agg (clflushopt : bool) : list Z :=
  if clflushopt then [0x66; 0x0f; 0xae; 0x38] else [0x0f; 0xae; 0x38].

Definition func_end_start : list Z :=
  [0x0f; 0xae; 0xf0; 0x48; 0xff; 0xcb; 0x0f; 0x85].
Definition func_end_end : list Z := [0x5d; 0xc3].

Definition access_nop_flush (clflushopt : bool) (nop_count : Z) : list Z :=
  hammer_agg ++ replicate (Z.to_nat nop_count) nop ++ flush_agg clflushopt.

(** [for (virtaddr_t agg : virt_aggs)]: what the loop appends to [function]. *)
Fixpoint agg_loop (virt_aggs : list Z) (anf function : list Z) : list Z :=
  match virt_aggs with
  | [] => function
  | agg :: rest =>
      agg_loop rest anf (function ++ mov_agg_addr ++ to_byte_array 8 agg ++ anf)
  end.

Definition loop_size (clflushopt : bool) (nop_count : Z) : Z :=
  wrap32 (Z.of_nat (length mov_agg_addr) + 8
          + Z.of_nat (length (access_nop_flush clflushopt nop_count))).

Definition func_end_till_offsetparameter_size : Z :=
  wrap32 (Z.of_nat (length func_end_start) + 4 - 1).

Definition jump_offset (clflushopt : bool) (nop_count aggressor_rows : Z) : Z :=
  wrap32 (2 ^ 32 - 1
          - wrap32 (wrap32 (loop_size clflushopt nop_count * aggressor_rows)
                    + func_end_till_offsetparameter_size)).

(** The byte vector [function] that [hammer_aggs_machinecode] copies into
    executable memory and calls (the path without asmjit). *)
Definition machine_code (clflushopt : bool)
    (hammer_count nop_count aggressor_rows : Z) (virt_aggs : list Z) : list Z :=
  let function := function_start ++ to_byte_array 4 (wrap32 hammer_count) in
  let function :=
    agg_loop virt_aggs (access_nop_flush clflushopt nop_count) function in
  function ++ func_end_start
  ++ to_byte_array 4 (jump_offset clflushopt nop_count aggressor_rows)
  ++ func_end_end.

(** The number a little-endian byte sequence stands for. *)
Fixpoint from_byte_array (bytes : list Z) : Z :=
  match bytes with
  | [] => 0
  | b :: rest => b + 256 * from_byte_array rest
  end.

(** Where a jump with the 32-bit displacement [rel] goes: the displacement
    is read as a signed number and added to the position [next] after the
    jump instruction. *)
Definition rel32_target (next rel : Z) : Z :=
  next + (if rel <? 2 ^ 31 then rel else rel - 2 ^ 32).

(** The bytes [from, from + n) of a byte vector. *)
Definition bytes_at (function : list Z) (from : Z) (n : nat) : list Z :=
  take n (drop (Z.to_nat from) function).

(** An example: two aggressors, the default hammer and nop counts. *)
Definition example_aggs : list Z := [0x7f0000001000; 0x7f0000003000].
Definition example_code : list Z := machine_code false 1000000 80 2 example_aggs.

End MachineCode.

(** ** The rest of the non-contiguous finder (noncontiguous_flip_finder.cpp) *)

Module NoncontiguousRun.
Import Bits DRAM PageFinder PageMapBuild Noncontiguous.

(** The keys of the page map in the order the [std::map] iterates them. *)
Definition pages (finder : PhysPageFinder) : list Z :=
  merge_sort Z.le (map fst (map_to_list (pagemap finder))).

(** [get_page_bounds]; [None] for an empty page map, on which [front()] and
    [back()] are undefined, and for a failed assertion. *)
Definition get_page_bounds (finder : PhysPageFinder) : option (Z * Z) :=
  match head (pages finder), last (pages finder) with
  | Some first_page, Some last_page =>
      if first_page <=? last_page then Some (first_page, last_page) else None
  | _, _ => None
  end.

(** [std::set::insert] on the ascending list of the elements. *)
Fixpoint set_insert (x : Z) (s : list Z) : list Z :=
  match s with
  | [] => [x]
  | y :: rest =>
      if x <? y then x :: s
      else if x =? y then s
      else y :: set_insert x rest
  end.

(** [missing_rows[bank].insert(..., row)]: [operator[]] makes the entry of a
    bank that has none. *)
Definition insert_missing (m : gmap Z (list Z)) (bank row : Z) : gmap Z (list Z) :=
  <[bank := set_insert row (default [] (m !! bank))]> m.

(** The loop of [find_missing_rows] at [page], [n] pages to go. *)
Fixpoint missing_loop (finder : PhysPageFinder) (L : DRAMLayout) (n : nat)
    (page : Z) (m : gmap Z (list Z)) : gmap Z (list Z) :=
  match n with
  | O => m
  | S n' =>
      missing_loop finder L n' (wrap64 (page + 1))
        (if contains finder page then m
         else
           let dram := DRAMAddr_of_phys L (page_2_phys page) in
           insert_missing m (bank dram) (row dram))
  end.

Definition set_missing_rows (F : Finder) (m : gmap Z (list Z)) : Finder :=
  {| finder := finder F; layout := layout F;
     hammer_pattern := hammer_pattern F; row_padding := row_padding F;
     missing_rows := m |}.

(** [find_missing_rows(first_page, last_page)], for [last_page] below the
    largest 64-bit value (the loop does not end otherwise). *)
Definition find_missing_rows (F : Finder) (first_page last_page : Z) : Finder :=
  set_missing_rows F
    (missing_loop (finder F) (layout F)
       (Z.to_nat (last_page - first_page + 1)) first_page (missing_rows F)).

(** Every recorded set is ascending without repetition. *)
Definition sorted_sets (m : gmap Z (list Z)) : Prop :=
  forall bank s, m !! bank = Some s -> StronglySorted Z.lt s.

(** [missing_rows[bank].size()] in the log line of [find_flips] makes the
    entry of a bank that has none. *)
Definition touch_bank (F : Finder) (bank : Z) : Finder :=
  set_missing_rows F
    (match missing_rows F !! bank with
     | Some _ => missing_rows F
     | None => <[bank := []]> (missing_rows F)
     end).

(** Is [p] a page of the page map that lies in [bank]? *)
Definition owned_in_bank (F : Finder) (bank p : Z) : bool :=
  contains (finder F) p
  && (DRAM.bank (DRAMAddr_of_phys (layout F) (page_2_phys p)) =? bank).

(** The first loop of [get_row_bounds], upwards from [p], [n] pages to go. *)
Fixpoint first_row_loop (F : Finder) (bank : Z) (n : nat) (p : Z) : Z :=
  match n with
  | O => 2 ^ 64 - 1
  | S n' =>
      if owned_in_bank F bank p
      then row (DRAMAddr_of_phys (layout F) (page_2_phys p))
      else first_row_loop F bank n' (wrap64 (p + 1))
  end.

(** The second loop, [for (p = last_page; p-- > 0;)]: [p] is the value the
    condition tests. *)
Fixpoint last_row_loop (F : Finder) (bank : Z) (n : nat) (p : Z) : Z :=
  match n with
  | O => 0
  | S n' =>
      if 0 <? p then
        let p' := p - 1 in
        if owned_in_bank F bank p'
        then row (DRAMAddr_of_phys (layout F) (page_2_phys p'))
        else last_row_loop F bank n' p'
      else 0
  end.

(** [get_row_bounds]; [None] is the failed assertion. *)
Definition get_row_bounds (F : Finder) (test_first_row test_last_row : Z)
    (bank first_page last_page : Z) : option (Z * Z) :=
  let first_row :=
    first_row_loop F bank (Z.to_nat (last_page - first_page + 1)) first_page in
  let last_row := last_row_loop F bank (S (Z.to_nat last_page)) last_page in
  let first_row :=
    if test_first_row =? 0 then first_row else Z.max first_row test_first_row in
  let last_row :=
    if test_last_row =? 0 then last_row else Z.min last_row test_last_row in
  if first_row <=? last_row then Some (first_row, last_row) else None.

(** [r] is the row of the lowest page from [first_page] to [last_page] that
    the bank owns, or the largest 64-bit value when it owns none. *)
Definition lowest_owned_row (F : Finder) (bank first_page last_page r : Z) : Prop :=
  (exists lo,
     first_page <= lo <= last_page
     /\ owned_in_bank F bank lo = true
     /\ (forall q, first_page <= q < lo -> owned_in_bank F bank q = false)
     /\ r = row (DRAMAddr_of_phys (layout F) (page_2_phys lo)))
  \/ ((forall q, first_page <= q <= last_page -> owned_in_bank F bank q = false)
      /\ r = 2 ^ 64 - 1).

(** [r] is the row of the highest page below [last_page] that the bank
    owns, or 0 when it owns none. *)
Definition highest_owned_row_below (F : Finder) (bank last_page r : Z) : Prop :=
  (exists hi,
     0 <= hi < last_page
     /\ owned_in_bank F bank hi = true
     /\ (forall q, hi < q < last_page -> owned_in_bank F bank q = false)
     /\ r = row (DRAMAddr_of_phys (layout F) (page_2_phys hi)))
  \/ ((forall q, 0 <= q < last_page -> owned_in_bank F bank q = false)
      /\ r = 0).

(** [hammer_rows], a [uint32_t] set from the size of the pattern. *)
Definition hammer_rows (F : Finder) : Z :=
  wrap32 (Z.of_nat (length (hammer_pattern F))).

(** The loop of [default_test] at [row], [n] rounds of fuel left.
    [hammer_fn bank first_victim last_victim] is what the call of [hammer]
    returns; the result is the value returned and the windows [hammer] was
    called on, in order.  [None]: out of fuel. *)
Fixpoint default_loop (hammer_fn : Z -> Z -> Z -> bool)
    (bank bound rows : Z) (n : nat) (row : Z) : option (bool * list (Z * Z)) :=
  match n with
  | O => None
  | S n' =>
      if row <=? bound then
        let first_victim := row in
        let last_victim := wrap64 (wrap64 (row + rows) - 1) in
        if hammer_fn bank first_victim last_victim then
          match default_loop hammer_fn bank bound rows n' (wrap64 (row + 1)) with
          | Some (r, calls) => Some (r, (first_victim, last_victim) :: calls)
          | None => None
          end
        else Some (false, [(first_victim, last_victim)])
      else Some (true, [])
  end.

(** [default_test(bank, first_row, last_row)] with [rows = hammer_rows]. *)
Definition default_test (hammer_fn : Z -> Z -> Z -> bool) (rows : Z)
    (bank first_row last_row : Z) : option (bool * list (Z * Z)) :=
  let bound := wrap64 (wrap64 (last_row - rows) + 1) in
  default_loop hammer_fn bank bound rows
    (S (Z.to_nat (bound - first_row + 1))) first_row.

(** The loop of [fast_test]: two calls of [hammer] for each round, on the
    window at [row] and on the window one row further up, and
    [row += hammer_rows - 1] between the rounds. *)
Fixpoint fast_loop (hammer_fn : Z -> Z -> Z -> bool)
    (bank bound rows : Z) (n : nat) (row : Z) : option (bool * list (Z * Z)) :=
  match n with
  | O => None
  | S n' =>
      if row <=? bound then
        let first_victim := row in
        let last_victim := wrap64 (wrap64 (row + rows) - 1) in
        if hammer_fn bank first_victim last_victim then
          let first_victim' := wrap64 (first_victim + 1) in
          let last_victim' := wrap64 (last_victim + 1) in
          if hammer_fn bank first_victim' last_victim' then
            match fast_loop hammer_fn bank bound rows n'
                    (wrap64 (row + wrap32 (rows - 1))) with
            | Some (r, calls) =>
                Some (r, (first_victim, last_victim)
                         :: (first_victim', last_victim') :: calls)
            | None => None
            end
          else Some (false, [(first_victim, last_victim);
                             (first_victim', last_victim')])
        else Some (false, [(first_victim, last_victim)])
      else Some (true, [])
  end.

(** [fast_test(bank, first_row, last_row)] with [rows = hammer_rows]. *)
Definition fast_test (hammer_fn : Z -> Z -> Z -> bool) (rows : Z)
    (bank first_row last_row : Z) : option (bool * list (Z * Z)) :=
  let bound := wrap64 (wrap64 (last_row - rows) + 1) in
  fast_loop hammer_fn bank bound rows
    (S (Z.to_nat (bound - first_row + 1))) first_row.

(** The window of [rows] rows that starts [i] rows after [first_row]. *)
Definition window (first_row rows i : Z) : Z * Z :=
  (first_row + i, first_row + i + rows - 1).

(** The window the loops build at [first_row + i], its last row computed on
    64 bits as the code does; it is [window first_row rows i] as long as
    [first_row + i + rows] does not pass [2 ^ 64]. *)
Definition wrapped_window (first_row rows i : Z) : Z * Z :=
  (first_row + i, wrap64 (wrap64 (first_row + i + rows) - 1)).

(** An example: pages 16, 17 and 19 are owned, page 18 is not. *)
Definition gap_finder : Finder :=
  {| finder := {| mem := 0x7f0000000000;
                  pagemap := {[ 16 := 0; 17 := 1; 19 := 3 ]} |};
     layout := default_layout;
     hammer_pattern := [false; true; false];
     row_padding := 0;
     missing_rows := ∅ |}.

(** The same pages with one row of padding. *)
Definition padded_gap_finder : Finder :=
  {| finder := finder gap_finder;
     layout := default_layout;
     hammer_pattern := [false; true; false];
     row_padding := 1;
     missing_rows := ∅ |}.

End NoncontiguousRun.

(** ** Runs of contiguous pages (contiguous_flip_finder.cpp) *)

Module ContiguousRun.
Import Bits PageFinder NoncontiguousRun.

(** The loop of [find_run] over the keys of the page map that are still to
    come; the result is the returned flag and the values of the reference
    parameters [first_page] and [last_page] afterwards. *)
Fixpoint run_loop (keys : list Z) (first_page last_page prev_page : Z)
    (min_length : Z) : bool * Z * Z :=
  match keys with
  | [] => (false, first_page, last_page)
  | page :: rest =>
      if negb (page =? wrap64 (prev_page + 1))
      then run_loop rest page last_page page min_length
      else
        if (first_page <? page) && (min_length <? wrap64 (page - first_page))
        then (true, first_page, page)
        else run_loop rest first_page page page min_length
  end.

(** [find_run(finder, first_page, last_page, min_length)]. *)
Definition find_run (finder : PhysPageFinder) (first_page last_page : Z)
    (min_length : Z) : bool * Z * Z :=
  run_loop (pages finder) first_page last_page (2 ^ 64 - 1) min_length.

(** The loop of [find_run_fixed] at [page], [n] pages up to the last key of
    the page map to go; the result is [last_page]. *)
Fixpoint fixed_loop (finder : PhysPageFinder) (n : nat) (page last_page : Z) : Z :=
  match n with
  | O => last_page
  | S n' =>
      if contains finder page
      then fixed_loop finder n' (wrap64 (page + 1)) page
      else last_page
  end.

(** [find_run_fixed(finder, first_page, last_page, min_length)]: the flag
    and [last_page]; [None] for an empty page map, on which [back()] is
    undefined. *)
Definition find_run_fixed (finder : PhysPageFinder) (first_page : Z)
    (min_length : Z) : option (bool * Z) :=
  match last (pages finder) with
  | None => None
  | Some back =>
      let last_page :=
        fixed_loop finder (Z.to_nat (back - first_page + 1)) first_page first_page in
      Some (min_length <? wrap64 (last_page - first_page), last_page)
  end.

(** An example: the pages 16 to 20 and 30 are owned. *)
Definition run_finder : PhysPageFinder :=
  {| mem := 0x7f0000000000;
     pagemap := {[ 16 := 0; 17 := 1; 18 := 2; 19 := 3; 20 := 4; 30 := 5 ]} |}.

End ContiguousRun.

(** ** Vocabulary: DRAM addresses that fit a layout *)

Module Placement.
Import Bits DRAM Canonical.

(** The bits the placement of the value [v] sets under the masks: the low
    bits of [v] under the first mask, the next ones under the second, and so
    on. *)
Fixpoint spread (masks : list Z) (v : Z) : Z :=
  match masks with
  | [] => 0
  | m :: rest =>
      Z.lor (Z.shiftl (v mod 2 ^ count_one_bits m) (count_trailing_zero_bits m))
        (spread rest (v / 2 ^ count_one_bits m))
  end.

(** No two masks of the list share a bit. *)
Fixpoint disjoint_masks (masks : list Z) : bool :=
  match masks with
  | [] => true
  | m :: rest => (Z.land m (mask_union rest) =? 0) && disjoint_masks rest
  end.

(** A DRAM address whose bank fits the number of bank functions and whose
    row and column fit the bits of their masks. *)
Definition fits (L : DRAMLayout) (d : DRAMAddr) : bool :=
  (0 <=? bank d) && (bank d <? 2 ^ Z.of_nat (length (h_fns L)))
  && (0 <=? row d) && (row d <? 2 ^ total_bits (row_masks L))
  && (0 <=? col d) && (col d <? 2 ^ total_bits (col_masks L)).

(** The addresses of the pattern positions that hold [b]. *)
Definition select (b : bool) (pattern : list bool) (ps : list Z) : list Z :=
  map snd (List.filter (fun x => Bool.eqb (fst x) b) (combine pattern ps)).

End Placement.

(** ** Initialization patterns (config.cpp) *)

Module InitPattern.
Import Bits Conf.

(** How [parse_init_pattern] ends: [log_error_and_exit], the division by
    zero for an empty body, an exception of [std::stoull], or a value. *)
Inductive Parse :=
| ParseExit (log : list LogLine)
| ParseFault (log : list LogLine)
| ParseThrow (log : list LogLine)
| Parsed (value : Z) (log : list LogLine).

Definition warn_power_of_two : LogLine :=
  LogWarn "Length of initialization pattern is not a power of two".
Definition warn_truncating (length_ : Z) : LogLine :=
  if length_ =? 16
  then LogWarn "Maximum length of initialization pattern is 16, truncating pattern"
  else LogWarn "Maximum length of initialization pattern is 64, truncating pattern".
Definition error_prefix : LogLine :=
  LogError "Initialization pattern must be binary (0b) or hexadecimal (0x)".

(** The string handed to [std::stoull]: [rep] copies of the body, cut to
    [length] characters. *)
Definition fill (s : list ascii) (length_ rep : Z) : list ascii :=
  take (Z.to_nat length_) (List.concat (replicate (Z.to_nat rep) s)).

(** The base and the number of digits that go with a prefix. *)
Definition prefix_base (prefix : list ascii) : option (Z * Z) :=
  if bool_decide (prefix = ["0"; "x"]%char) then Some (16, 16)
  else if bool_decide (prefix = ["0"; "b"]%char) then Some (2, 64)
  else None.

(** [Config::parse_init_pattern(s)]; [stoull digits base] is the result of
    [std::stoull(digits, nullptr, base)], [None] when it throws. *)
Definition parse_init_pattern (stoull : list ascii -> Z -> option Z)
    (s : list ascii) : Parse :=
  let prefix := take 2 s in
  let s := drop 2 s in
  let orig_length := Z.of_nat (length s) in
  let log :=
    if (orig_length =? 0)
       || negb (Z.land orig_length (wrap64 (orig_length - 1)) =? 0)
    then [warn_power_of_two] else [] in
  match prefix_base prefix with
  | None => ParseExit (log ++ [error_prefix])
  | Some (base, length_) =>
      let log :=
        log ++ (if length_ <? orig_length then [warn_truncating length_] else []) in
      if orig_length =? 0 then ParseFault log
      else
        let rep :=
          length_ / orig_length
          + (if length_ mod orig_length =? 0 then 0 else 1) in
        match stoull (fill s length_ rep) base with
        | Some value => Parsed value log
        | None => ParseThrow log
        end
  end.

(** The value of a digit of a base up to 16; [None] for any other
    character. *)
Definition digit_value (c : ascii) : option Z :=
  let n := Z.of_nat (nat_of_ascii c) in
  if (48 <=? n) && (n <=? 57) then Some (n - 48)
  else if (97 <=? n) && (n <=? 102) then Some (n - 87)
  else if (65 <=? n) && (n <=? 70) then Some (n - 55)
  else None.

Definition is_digit (base : Z) (c : ascii) : bool :=
  match digit_value c with
  | Some d => d <? base
  | None => false
  end.

(** [isspace] in the C locale: the space and the characters 9 to 13. *)
Definition is_space (c : ascii) : bool :=
  let n := Z.of_nat (nat_of_ascii c) in
  (n =? 32) || ((9 <=? n) && (n <=? 13)).

Fixpoint skip_spaces (s : list ascii) : list ascii :=
  match s with
  | c :: rest => if is_space c then skip_spaces rest else s
  | [] => []
  end.

(** The number the longest prefix of digits stands for: the conversion
    stops at the first character that is no digit of the base.  [seen] says
    that a digit has been read; [None] when there is none. *)
Fixpoint digits_value (base : Z) (acc : Z) (seen : bool) (digits : list ascii)
    : option Z :=
  match digits with
  | [] => if seen then Some acc else None
  | c :: rest =>
      match digit_value c with
      | Some d =>
          if d <? base then digits_value base (acc * base + d) true rest
          else if seen then Some acc else None
      | None => if seen then Some acc else None
      end
  end.

(** [std::stoull(digits, nullptr, base)] for the bases 2 and 16, as
    [strtoull] converts: white space is skipped, a sign is taken, in base 16
    a prefix [0x] or [0X] before a digit is taken, and the digits up to the
    first other character are converted; a [-] negates the value on 64
    bits.  [None] is an exception: [std::invalid_argument] when there is no
    digit, [std::out_of_range] when the number does not fit 64 bits.  (A
    prefix [0b] in base 2, which only the C23 conversion knows, is not
    taken.) *)
Definition stoull_digits (digits : list ascii) (base : Z) : option Z :=
  let s := skip_spaces digits in
  let '(negative, s) :=
    match s with
    | "-"%char :: rest => (true, rest)
    | "+"%char :: rest => (false, rest)
    | _ => (false, s)
    end in
  let s :=
    match s with
    | "0"%char :: x :: d :: rest =>
        if (base =? 16)
           && (Ascii.eqb x "x" || Ascii.eqb x "X")
           && is_digit 16 d
        then d :: rest else s
    | _ => s
    end in
  match digits_value base 0 false s with
  | None => None
  | Some value =>
      if value <? 2 ^ 64
      then Some (if negative : bool then wrap64 (- value) else value)
      else None
  end.

(** An example: the pattern [0xa5]. *)
Definition example_pattern : list ascii := ["0"; "x"; "a"; "5"]%char.

End InitPattern.

(** * Properties *)

(** ** Facts about the machine arithmetic *)

Section BitFacts.
Import Bits.

Lemma wrap64_small x : 0 <= x < 2 ^ 64 -> wrap64 x = x.
Proof. intros H. unfold wrap64. apply Z.mod_small. exact H. Qed.

Lemma wrap64_range x : 0 <= wrap64 x < 2 ^ 64.
Proof. unfold wrap64. apply Z.mod_pos_bound. lia. Qed.

Lemma wrap32_small x : 0 <= x < 2 ^ 32 -> wrap32 x = x.
Proof. intros H. unfold wrap32. apply Z.mod_small. exact H. Qed.

Lemma shr64_small x n : 0 <= n < 64 -> shr64 x n = Z.shiftr x n.
Proof. intros H. unfold shr64. rewrite Z.mod_small by exact H. reflexivity. Qed.

Lemma shl64_small x n : 0 <= n < 64 -> shl64 x n = wrap64 (Z.shiftl x n).
Proof. intros H. unfold shl64. rewrite Z.mod_small by exact H. reflexivity. Qed.

Lemma land_one_testbit x n :
  0 <= n -> Z.land (Z.shiftr x n) 1 = Z.b2z (Z.testbit x n).
Proof.
  intros Hn. change 1 with (Z.ones 1). rewrite Z.land_ones by lia.
  rewrite <- Z.bit0_mod, Z.shiftr_spec by lia. reflexivity.
Qed.

Lemma popcount_pos_positive p : 0 < popcount_pos p.
Proof. induction p; simpl; lia. Qed.

Lemma count_one_bits_nonneg x : 0 <= count_one_bits x.
Proof. destruct x; simpl; try lia. pose proof (popcount_pos_positive p). lia. Qed.

(** Population count, one bit at a time. *)
Lemma count_one_bits_step x :
  0 <= x -> count_one_bits x = Z.b2z (Z.odd x) + count_one_bits (Z.div2 x).
Proof.
  intros Hx. destruct x as [|p|p]; [reflexivity| |lia].
  destruct p; simpl; lia.
Qed.

Lemma count_one_bits_zero_iff x : 0 <= x -> count_one_bits x = 0 -> x = 0.
Proof.
  intros Hx H. destruct x as [|p|p]; [reflexivity| |lia].
  simpl in H. pose proof (popcount_pos_positive p). lia.
Qed.

(** The parity of an exclusive or is the sum of the parities. *)
Lemma parity_lxor_bounded (n : nat) : forall a b,
  0 <= a < 2 ^ Z.of_nat n -> 0 <= b < 2 ^ Z.of_nat n ->
  count_one_bits (Z.lxor a b) mod 2
  = (count_one_bits a + count_one_bits b) mod 2.
Proof.
  induction n as [|n IH]; intros a b Ha Hb.
  - simpl in Ha, Hb. assert (a = 0) by lia. assert (b = 0) by lia.
    subst. reflexivity.
  - assert (Hpow : 2 ^ Z.of_nat (S n) = 2 * 2 ^ Z.of_nat n).
    { rewrite Nat2Z.inj_succ, Z.pow_succ_r by lia. reflexivity. }
    assert (Hx : 0 <= Z.lxor a b) by (apply Z.lxor_nonneg; lia).
    rewrite (count_one_bits_step _ Hx).
    rewrite (count_one_bits_step a), (count_one_bits_step b) by lia.
    assert (Hd : Z.div2 (Z.lxor a b) = Z.lxor (Z.div2 a) (Z.div2 b)).
    { rewrite !Z.div2_spec. apply Z.shiftr_lxor. }
    rewrite Hd.
    assert (Ho : Z.odd (Z.lxor a b) = xorb (Z.odd a) (Z.odd b)).
    { rewrite <- !Z.bit0_odd. apply Z.lxor_spec. }
    rewrite Ho.
    assert (Ha2 : 0 <= Z.div2 a < 2 ^ Z.of_nat n).
    { rewrite Z.div2_div. split; [apply Z.div_pos; lia|].
      apply Z.div_lt_upper_bound; lia. }
    assert (Hb2 : 0 <= Z.div2 b < 2 ^ Z.of_nat n).
    { rewrite Z.div2_div. split; [apply Z.div_pos; lia|].
      apply Z.div_lt_upper_bound; lia. }
    specialize (IH _ _ Ha2 Hb2).
    destruct (Z.odd a), (Z.odd b); simpl Z.b2z; simpl xorb; simpl Z.b2z;
      revert IH; generalize (count_one_bits (Z.lxor (Z.div2 a) (Z.div2 b)));
      generalize (count_one_bits (Z.div2 a));
      generalize (count_one_bits (Z.div2 b)); intros cb ca cx IH;
      Z.div_mod_to_equations; lia.
Qed.

End BitFacts.
(** ** The default layout at 0x12345000 *)

Section DefaultLayout.
Import Bits DRAM.

(** C2, as stated, fails: with the default layout the address 0x12345000 is
    not the triple (bank 9, row 0x48d, column 0), and that triple does not
    map back to 0x12345000. *)
Lemma default_layout_scenario_counterexample :
  ~ (DRAMAddr_of_phys default_layout 0x12345000
       = {| bank := 9; row := 0x48d; col := 0 |}
     /\ phys default_layout {| bank := 9; row := 0x48d; col := 0 |}
       = Some 0x12345000).
Proof.
  intros [Hd _]. vm_compute in Hd. discriminate Hd.
Qed.

(** C2, amended: with the default layout the address 0x12345000 has bank 24,
    row 0x48d and column 0x1000, that triple maps back to 0x12345000, and
    the triple (9, 0x48d, 0) maps to 0x12366000. *)
Theorem default_layout_scenario :
  DRAMAddr_of_phys default_layout 0x12345000
    = {| bank := 24; row := 0x48d; col := 0x1000 |}
  /\ phys default_layout {| bank := 24; row := 0x48d; col := 0x1000 |}
    = Some 0x12345000
  /\ phys default_layout {| bank := 9; row := 0x48d; col := 0 |}
    = Some 0x12366000.
Proof. repeat split; vm_compute; reflexivity. Qed.

End DefaultLayout.

(** ** Page lookup *)

Section PageLookup.
Import Bits PageFinder Resolve.

Lemma page_multiple_low_bits x :
  Z.land (wrap64 (x * page_size)) (page_size - 1) = 0.
Proof.
  unfold wrap64, page_size. change (4096 - 1) with (Z.ones 12).
  rewrite Z.land_ones by lia.
  change (2 ^ 64) with (2 ^ 12 * 2 ^ 52).
  rewrite Z.rem_mul_r by lia.
  change (2 ^ 12) with 4096.
  rewrite Z.mod_mul by lia. rewrite Z.add_0_l.
  rewrite Z.mul_comm, Z.mod_mul by lia. reflexivity.
Qed.

Lemma low_bits_add_aligned a b :
  a mod page_size = 0 -> b mod page_size = 0 ->
  Z.land (wrap64 (a + b)) (page_size - 1) = 0.
Proof.
  unfold wrap64, page_size. intros Ha Hb.
  change (4096 - 1) with (Z.ones 12). rewrite Z.land_ones by lia.
  change (2 ^ 64) with (2 ^ 12 * 2 ^ 52).
  rewrite Z.rem_mul_r by lia. change (2 ^ 12) with 4096.
  rewrite Z.mul_comm, Z.mod_add by lia.
  rewrite Z.mod_mod by lia.
  rewrite Z.add_mod, Ha, Hb by lia. reflexivity.
Qed.

(** C3, as stated, fails: frame 1 is owned, yet for the address 0x1008 in
    it the returned virtual address has in-page offset 0, not 8. *)
Lemma find_page_offset_counterexample :
  is_Some (pagemap one_frame_finder !! wrap32 (0x1008 / page_size))
  /\ ~ (exists virt,
          find_page one_frame_finder 0x1008 0 = (true, virt)
          /\ Z.land virt (page_size - 1) = Z.land 0x1008 (page_size - 1)).
Proof.
  split.
  - exists 5. vm_compute. reflexivity.
  - intros [virt [Hf Hlow]]. vm_compute in Hf.
    injection Hf as <-. vm_compute in Hlow. discriminate Hlow.
Qed.

(** C3, amended: for every physical address whose frame number is in the
    page map, [find_page] returns true and the virtual address of the start
    of the owning page, [mem + page_offset * page_size]; the in-page offset
    of the physical address is not added.  With [mem] page-aligned the
    returned address has in-page offset 0, so the offsets agree exactly when
    the physical address is page-aligned. *)
Theorem find_page_returns_page_start finder phys_addr virt0 page_offset :
  pagemap finder !! wrap32 (phys_addr / page_size) = Some page_offset ->
  mem finder mod page_size = 0 ->
  exists virt,
    find_page finder phys_addr virt0 = (true, virt)
    /\ virt = wrap64 (mem finder + wrap64 (page_offset * page_size))
    /\ Z.land virt (page_size - 1) = 0
    /\ (Z.land virt (page_size - 1) = Z.land phys_addr (page_size - 1)
        <-> Z.land phys_addr (page_size - 1) = 0).
Proof.
  intros Hlook Hmem. eexists. split.
  - unfold find_page. rewrite Hlook. reflexivity.
  - split; [reflexivity|].
    assert (Hz : Z.land (wrap64 (mem finder + wrap64 (page_offset * page_size)))
                   (page_size - 1) = 0).
    { apply low_bits_add_aligned; [exact Hmem|].
      pose proof (page_multiple_low_bits page_offset) as H.
      unfold page_size in *. change (4096 - 1) with (Z.ones 12) in H.
      rewrite Z.land_ones in H by lia. exact H. }
    split; [exact Hz|]. rewrite Hz. split; intros H; congruence.
Qed.

Lemma find_page_returns_page_start_witness :
  exists virt,
    find_page one_frame_finder 0x1000 0 = (true, virt)
    /\ virt = wrap64 (0x7f0000000000 + wrap64 (5 * page_size))
    /\ Z.land virt (page_size - 1) = 0
    /\ (Z.land virt (page_size - 1) = Z.land 0x1000 (page_size - 1)
        <-> Z.land 0x1000 (page_size - 1) = 0).
Proof.
  apply (find_page_returns_page_start one_frame_finder 0x1000 0 5).
  - vm_compute. reflexivity.
  - vm_compute. reflexivity.
Defined.

End PageLookup.

(** ** The flip scan *)

Section FlipScan.
Import Bits PageFinder Flipper Scan.

Lemma seqZ_succ from (n : nat) :
  seqZ from (Z.of_nat (S n)) = from :: seqZ (from + 1) (Z.of_nat n).
Proof.
  rewrite Nat2Z.inj_succ. rewrite seqZ_cons by lia.
  f_equal. f_equal; lia.
Qed.

Lemma bit_loop_events (n : nat) : forall bit base off init w,
  0 <= bit -> bit + Z.of_nat n <= 64 ->
  bit_loop n bit base off init w
  = map (event_at base off w) (differing_bits w init bit n).
Proof.
  induction n as [|n IH]; intros bit base off init w Hb Hn.
  - reflexivity.
  - unfold differing_bits. rewrite seqZ_succ. cbn [bit_loop List.filter].
    rewrite !shr64_small by lia. rewrite !land_one_testbit by lia.
    rewrite Z.lxor_spec.
    fold (differing_bits w init (bit + 1) n).
    rewrite IH by lia.
    destruct (Z.testbit w bit) eqn:Ew, (Z.testbit init bit) eqn:Ei;
      cbn [xorb Z.b2z Z.eqb map]; try reflexivity;
      unfold event_at at 2; rewrite land_one_testbit, Ew by lia; reflexivity.
Qed.

Lemma count_differing (n : nat) : forall x bit,
  0 <= bit -> 0 <= x -> Z.shiftr x bit < 2 ^ Z.of_nat n ->
  Z.of_nat (length (List.filter (Z.testbit x) (seqZ bit (Z.of_nat n))))
  = count_one_bits (Z.shiftr x bit).
Proof.
  induction n as [|n IH]; intros x bit Hb Hx Hlt.
  - assert (Hs : 0 <= Z.shiftr x bit) by (apply Z.shiftr_nonneg; lia).
    simpl in Hlt. assert (Hz : Z.shiftr x bit = 0) by lia.
    rewrite Hz. reflexivity.
  - rewrite seqZ_succ. cbn [List.filter].
    assert (Hs : 0 <= Z.shiftr x bit) by (apply Z.shiftr_nonneg; lia).
    rewrite (count_one_bits_step _ Hs).
    assert (Hd : Z.div2 (Z.shiftr x bit) = Z.shiftr x (bit + 1)).
    { rewrite Z.div2_spec, Z.shiftr_shiftr by lia. reflexivity. }
    assert (Hlt' : Z.shiftr x (bit + 1) < 2 ^ Z.of_nat n).
    { rewrite <- Hd, Z.div2_div.
      apply Z.div_lt_upper_bound; [lia|].
      rewrite Nat2Z.inj_succ, Z.pow_succ_r in Hlt by lia. lia. }
    rewrite Hd, <- (IH x (bit + 1)) by lia.
    rewrite <- Z.bit0_odd, Z.shiftr_spec by lia. rewrite Z.add_0_l.
    destruct (Z.testbit x bit); cbn [length Z.b2z]; lia.
Qed.

(** What [check_word] emits: one event per differing position, in order. *)
Lemma check_word_events base off init w :
  0 <= w < 2 ^ 64 -> 0 <= init < 2 ^ 64 ->
  check_word base off init w
  = map (event_at base off w) (differing_bits w init 0 64).
Proof.
  intros Hw Hi. unfold check_word.
  destruct (Z.eqb_spec w init) as [->|Hne].
  - unfold differing_bits. rewrite Z.lxor_nilpotent.
    replace (List.filter (Z.testbit 0) (seqZ 0 (Z.of_nat 64)))
      with (@nil Z); [reflexivity|].
    symmetry. induction (seqZ 0 (Z.of_nat 64)) as [|b l IHl]; [reflexivity|].
    cbn [List.filter]. rewrite Z.testbit_0_l. exact IHl.
  - apply bit_loop_events; lia.
Qed.

Lemma lxor_range a b :
  0 <= a < 2 ^ 64 -> 0 <= b < 2 ^ 64 -> 0 <= Z.lxor a b < 2 ^ 64.
Proof.
  intros Ha Hb.
  assert (H0 : 0 <= Z.lxor a b) by (apply Z.lxor_nonneg; lia).
  split; [exact H0|].
  destruct (Z.eq_dec (Z.lxor a b) 0) as [->|Hnz]; [lia|].
  apply Z.log2_lt_pow2; [lia|].
  destruct (Z.eq_dec a 0) as [->|Ha0].
  { rewrite Z.lxor_0_l in *. apply Z.log2_lt_pow2; lia. }
  destruct (Z.eq_dec b 0) as [->|Hb0].
  { rewrite Z.lxor_0_r in *. apply Z.log2_lt_pow2; lia. }
  pose proof (Z.log2_lxor a b ltac:(lia) ltac:(lia)) as Hl.
  assert (Z.log2 a < 64) by (apply Z.log2_lt_pow2; lia).
  assert (Z.log2 b < 64) by (apply Z.log2_lt_pow2; lia).
  lia.
Qed.

(** The scan of a row is the scan of its words, one after the other. *)
Lemma word_loop_words read (n : nat) : forall addr victim p init,
  word_loop read n addr victim p init
  = List.concat
      (map (fun k : nat =>
              check_word p (wrap64 (addr + 8 * Z.of_nat k - victim)) init
                (read (addr + 8 * Z.of_nat k)))
         (seq 0 n)).
Proof.
  induction n as [|n IH]; intros addr victim p init; [reflexivity|].
  cbn [word_loop seq map List.concat].
  rewrite Z.mul_0_r, Z.add_0_r. f_equal.
  rewrite IH, <- seq_shift, map_map. f_equal.
  apply map_ext. intros k.
  replace (addr + 8 + 8 * Z.of_nat k) with (addr + 8 * Z.of_nat (S k)) by lia.
  reflexivity.
Qed.

Lemma differing_bits_spec w init bit :
  In bit (differing_bits w init 0 64) ->
  0 <= bit < 64 /\ Z.testbit (Z.lxor w init) bit = true.
Proof.
  unfold differing_bits. intros H. apply List.filter_In in H as [Hin Ht].
  split; [|exact Ht].
  apply list_elem_of_In, elem_of_seqZ in Hin. lia.
Qed.

(** The events of a row come from its words, those of the scan from the
    rows of the victims. *)
Lemma word_loop_events read (n : nat) : forall addr victim p init e,
  In e (word_loop read n addr victim p init) ->
  exists k : nat,
    (k < n)%nat
    /\ In e (check_word p (wrap64 (addr + 8 * Z.of_nat k - victim)) init
               (read (addr + 8 * Z.of_nat k))).
Proof.
  induction n as [|n IH]; intros addr victim p init e Hin; [destruct Hin|].
  cbn [word_loop] in Hin. apply in_app_or in Hin as [Hin|Hin].
  - exists 0%nat. split; [lia|].
    rewrite Z.mul_0_r, Z.add_0_r. exact Hin.
  - apply IH in Hin as (k & Hk & Hin). exists (S k). split; [lia|].
    replace (addr + 8 * Z.of_nat (S k)) with (addr + 8 + 8 * Z.of_nat k) by lia.
    exact Hin.
Qed.

Lemma victim_loop_events read : forall ps vs init e,
  In e (victim_loop read ps vs init) ->
  exists (i : nat) p v (k : nat),
    ps !! i = Some p /\ vs !! i = Some v /\ (k < 1024)%nat
    /\ In e (check_word p (8 * Z.of_nat k) init (read (v + 8 * Z.of_nat k))).
Proof.
  induction ps as [|p ps IH]; intros vs init e Hin; [destruct Hin|].
  destruct vs as [|v vs]; [destruct Hin|].
  cbn [victim_loop] in Hin. apply in_app_or in Hin as [Hin|Hin].
  - apply word_loop_events in Hin as (k & Hk & Hin).
    change (Z.to_nat (row_size / 8)) with 1024%nat in Hk.
    exists 0%nat, p, v, k. repeat split; try assumption.
    replace (v + 8 * Z.of_nat k - v) with (8 * Z.of_nat k) in Hin by lia.
    rewrite wrap64_small in Hin by lia. exact Hin.
  - apply IH in Hin as (i & p' & v' & k & Hp & Hv & Hk & Hin).
    exists (S i), p', v', k. auto.
Qed.

(** Filtering a concatenation of blocks of which one is kept and the others
    are dropped. *)
Lemma filter_all {A} (f : A -> bool) (l : list A) :
  (forall x, In x l -> f x = true) -> List.filter f l = l.
Proof.
  induction l as [|a l IH]; intros H; [reflexivity|].
  cbn [List.filter]. rewrite (H a) by (left; reflexivity).
  f_equal. apply IH. intros x Hx. apply H. right. exact Hx.
Qed.

Lemma filter_none {A} (f : A -> bool) (l : list A) :
  (forall x, In x l -> f x = false) -> List.filter f l = [].
Proof.
  induction l as [|a l IH]; intros H; [reflexivity|].
  cbn [List.filter]. rewrite (H a) by (left; reflexivity).
  apply IH. intros x Hx. apply H. right. exact Hx.
Qed.

Lemma filter_concat_none {A B} (f : A -> bool) (g : B -> list A) (l : list B) :
  (forall y, In y l -> List.filter f (g y) = []) ->
  List.filter f (List.concat (map g l)) = [].
Proof.
  induction l as [|b l IH]; intros H; [reflexivity|].
  cbn [map List.concat]. rewrite List.filter_app.
  rewrite (H b) by (left; reflexivity).
  apply IH. intros y Hy. apply H. right. exact Hy.
Qed.

Lemma filter_concat_at {A B} (f : A -> bool) (g : B -> list A) (l : list B) :
  forall (i : nat) x,
  l !! i = Some x ->
  (forall (j : nat) y, l !! j = Some y -> j <> i -> List.filter f (g y) = []) ->
  List.filter f (List.concat (map g l)) = List.filter f (g x).
Proof.
  induction l as [|b l IH]; intros i x Hx Hothers; [destruct i; discriminate|].
  cbn [map List.concat]. rewrite List.filter_app. destruct i as [|i].
  - injection Hx as ->.
    rewrite filter_concat_none; [apply app_nil_r|].
    intros y Hy. apply list_elem_of_In, list_elem_of_lookup in Hy as [j Hj].
    apply (Hothers (S j)); [exact Hj|discriminate].
  - rewrite (Hothers 0%nat b) by (reflexivity || discriminate).
    cbn [app]. apply (IH i); [exact Hx|].
    intros j y Hj Hne. apply (Hothers (S j)); [exact Hj|congruence].
Qed.

(** The scan is the scan of the victim rows, one after the other. *)
Lemma victim_loop_rows read : forall ps vs init,
  victim_loop read ps vs init
  = List.concat
      (map (fun pv : Z * Z =>
              word_loop read (Z.to_nat (row_size / 8)) (snd pv) (snd pv) (fst pv)
                init)
         (zip ps vs)).
Proof.
  induction ps as [|p ps IH]; intros vs init; [reflexivity|].
  destruct vs as [|v vs]; [reflexivity|].
  cbn [victim_loop zip zip_with map List.concat fst snd]. f_equal. apply IH.
Qed.

Lemma rows_apart_spec rows :
  rows_apart rows = true ->
  (forall (i : nat) p, rows !! i = Some p -> 0 <= p /\ p + row_size <= 2 ^ 64)
  /\ (forall (i j : nat) p q,
        rows !! i = Some p -> rows !! j = Some q -> i <> j ->
        p + row_size <= q \/ q + row_size <= p).
Proof.
  induction rows as [|a rows IH]; intros H.
  - split; intros; destruct i; discriminate.
  - cbn [rows_apart] in H.
    apply andb_prop in H as [H Hrest]. apply andb_prop in H as [H Hall].
    apply andb_prop in H as [H0 H1].
    apply Z.leb_le in H0, H1. rewrite forallb_forall in Hall.
    destruct (IH Hrest) as [IHr IHa].
    assert (Hhead : forall (j : nat) q, rows !! j = Some q ->
              a + row_size <= q \/ q + row_size <= a).
    { intros j q Hq.
      assert (Hin : In q rows)
        by (apply list_elem_of_In, list_elem_of_lookup; eauto).
      specialize (Hall q Hin). apply orb_prop in Hall as [Hc|Hc];
        apply Z.leb_le in Hc; lia. }
    split.
    + intros [|i] p Hp; [injection Hp as <-; lia|]. apply (IHr i). exact Hp.
    + intros [|i] [|j] p q Hp Hq Hne; try congruence.
      * injection Hp as <-. apply (Hhead j). exact Hq.
      * injection Hq as <-. destruct (Hhead i p Hp); lia.
      * apply (IHa i j); [exact Hp|exact Hq|congruence].
Qed.

(** Every event of a word carries the address of one of its 8 bytes. *)
Lemma check_word_addresses base (k : nat) init w e :
  0 <= base -> base + row_size <= 2 ^ 64 -> (k < 1024)%nat ->
  0 <= w < 2 ^ 64 -> 0 <= init < 2 ^ 64 ->
  In e (check_word base (8 * Z.of_nat k) init w) ->
  exists bit,
    0 <= bit < 64 /\ Z.testbit (Z.lxor w init) bit = true
    /\ e = event_at base (8 * Z.of_nat k) w bit
    /\ victim_phys e = base + 8 * Z.of_nat k + bit / 8
    /\ 0 <= bit / 8 < 8.
Proof.
  intros Hb Hend Hk Hw Hi Hin. unfold row_size in Hend.
  rewrite (check_word_events _ _ _ _ Hw Hi) in Hin.
  apply List.in_map_iff in Hin as (bit & <- & Hbit).
  apply differing_bits_spec in Hbit as [Hr Ht].
  assert (Hbyte : 0 <= bit / 8 < 8).
  { split; [apply Z.div_pos; lia|apply Z.div_lt_upper_bound; lia]. }
  exists bit. split; [exact Hr|]. split; [exact Ht|]. split; [reflexivity|].
  split; [|exact Hbyte].
  cbn [event_at victim_phys].
  rewrite (wrap64_small (base + 8 * Z.of_nat k)) by lia.
  rewrite wrap64_small by lia. reflexivity.
Qed.

Lemma filter_word_same base (k : nat) init w :
  0 <= base -> base + row_size <= 2 ^ 64 -> (k < 1024)%nat ->
  0 <= w < 2 ^ 64 -> 0 <= init < 2 ^ 64 ->
  List.filter (in_word base (8 * Z.of_nat k))
    (check_word base (8 * Z.of_nat k) init w)
  = check_word base (8 * Z.of_nat k) init w.
Proof.
  intros Hb Hend Hk Hw Hi. apply filter_all. intros e He.
  destruct (check_word_addresses base k init w e Hb Hend Hk Hw Hi He)
    as (bit & _ & _ & _ & Ha & Hbyte).
  unfold in_word. rewrite Ha.
  apply andb_true_intro. split; [apply Z.leb_le|apply Z.ltb_lt]; lia.
Qed.

Lemma filter_word_other base (k : nat) base' (k' : nat) init w :
  0 <= base' -> base' + row_size <= 2 ^ 64 -> (k' < 1024)%nat ->
  0 <= w < 2 ^ 64 -> 0 <= init < 2 ^ 64 ->
  base' + 8 * Z.of_nat k' + 8 <= base + 8 * Z.of_nat k
  \/ base + 8 * Z.of_nat k + 8 <= base' + 8 * Z.of_nat k' ->
  List.filter (in_word base (8 * Z.of_nat k))
    (check_word base' (8 * Z.of_nat k') init w)
  = [].
Proof.
  intros Hb Hend Hk Hw Hi Hapart. apply filter_none. intros e He.
  destruct (check_word_addresses base' k' init w e Hb Hend Hk Hw Hi He)
    as (bit & _ & _ & _ & Ha & Hbyte).
  unfold in_word. rewrite Ha. apply andb_false_iff.
  destruct Hapart; [left; apply Z.leb_gt|right; apply Z.ltb_ge]; lia.
Qed.

Lemma word_loop_row read v p init :
  word_loop read (Z.to_nat (row_size / 8)) v v p init
  = List.concat
      (map (fun k : nat =>
              check_word p (8 * Z.of_nat k) init (read (v + 8 * Z.of_nat k)))
         (seq 0 1024)).
Proof.
  rewrite word_loop_words. change (Z.to_nat (row_size / 8)) with 1024%nat.
  f_equal. apply map_ext_in. intros k Hk. apply in_seq in Hk.
  replace (v + 8 * Z.of_nat k - v) with (8 * Z.of_nat k) by lia.
  rewrite wrap64_small by lia. reflexivity.
Qed.

(** Of the events of the scan, those with an address in word [k] of victim
    row [i] are the events of that word. *)
Lemma scan_events_of_word read flipper init (i : nat) p v (k : nat) :
  (forall addr, 0 <= read addr < 2 ^ 64) ->
  0 <= init < 2 ^ 64 ->
  rows_apart (victims (phys flipper)) = true ->
  victims (phys flipper) !! i = Some p ->
  virt_victims flipper !! i = Some v ->
  (k < 1024)%nat ->
  List.filter (in_word p (8 * Z.of_nat k)) (check_flips read flipper init)
  = map (event_at p (8 * Z.of_nat k) (read (v + 8 * Z.of_nat k)))
      (differing_bits (read (v + 8 * Z.of_nat k)) init 0 64).
Proof.
  intros Hread Hi Hrows Hp Hv Hk.
  destruct (rows_apart_spec _ Hrows) as [Hrange Hapart].
  destruct (Hrange i p Hp) as [Hp0 Hpend].
  unfold check_flips. rewrite victim_loop_rows.
  rewrite (filter_concat_at _ _ _ i (p, v)).
  - cbn [fst snd]. rewrite word_loop_row.
    rewrite (filter_concat_at _ _ _ k k).
    + rewrite filter_word_same by auto.
      apply check_word_events; auto.
    + apply lookup_seq. split; [reflexivity|exact Hk].
    + intros j y Hy Hne. apply lookup_seq in Hy as [-> Hj]. cbn [Nat.add].
      apply filter_word_other; auto. lia.
  - apply lookup_zip_with_Some. exists p, v. auto.
  - intros j [q u] Hq Hne.
    apply lookup_zip_with_Some in Hq as (q' & u' & [= -> ->] & Hq & Hu).
    destruct (Hrange j q' Hq) as [Hq0 Hqend].
    specialize (Hapart i j p q' Hp Hq ltac:(congruence)).
    cbn [fst snd]. rewrite word_loop_row. apply filter_concat_none.
    intros k' Hk'. apply in_seq in Hk'.
    apply filter_word_other; auto; unfold row_size in *; lia.
Qed.

(** The scan of a row, cut at word [k]. *)
Lemma word_loop_split read (k n : nat) : forall addr victim p init,
  word_loop read (k + S n) addr victim p init
  = word_loop read k addr victim p init
    ++ check_word p (wrap64 (addr + 8 * Z.of_nat k - victim)) init
         (read (addr + 8 * Z.of_nat k))
    ++ word_loop read n (addr + 8 * (Z.of_nat k + 1)) victim p init.
Proof.
  induction k as [|k IH]; intros addr victim p init.
  - cbn [Nat.add word_loop app]. rewrite Z.mul_0_r, Z.add_0_r.
    replace (addr + 8 * (Z.of_nat 0 + 1)) with (addr + 8) by lia. reflexivity.
  - cbn [Nat.add word_loop]. rewrite IH, <- app_assoc.
    replace (addr + 8 + 8 * Z.of_nat k) with (addr + 8 * Z.of_nat (S k)) by lia.
    replace (addr + 8 + 8 * (Z.of_nat k + 1))
      with (addr + 8 * (Z.of_nat (S k) + 1)) by lia.
    reflexivity.
Qed.

(** The scan, cut at victim row [i]. *)
Lemma victim_loop_split read init : forall (i : nat) ps vs p v,
  ps !! i = Some p -> vs !! i = Some v ->
  victim_loop read ps vs init
  = victim_loop read (take i ps) (take i vs) init
    ++ word_loop read (Z.to_nat (row_size / 8)) v v p init
    ++ victim_loop read (drop (S i) ps) (drop (S i) vs) init.
Proof.
  induction i as [|i IH]; intros [|p' ps] [|v' vs] p v Hp Hv; try discriminate.
  - injection Hp as ->. injection Hv as ->. reflexivity.
  - cbn [victim_loop take drop]. rewrite (IH ps vs p v Hp Hv), <- app_assoc.
    reflexivity.
Qed.

(** C4: for every victim row the scan covers and every 64-bit word [w] of
    that row, the scan emits, while it is at that word (after the events of
    the rows and words before it, and before those of the words and rows
    after it), as many events as [w XOR victim_init] has one bits: one for
    each differing position [bit], in ascending order, with direction
    [(w >> bit) & 1]; for an intact word both numbers are 0.  When the victim
    rows do not overlap, these are the events of the scan whose address is
    one of the 8 bytes of the word, and byte and bit index of each give back
    its position [bit]. *)
Theorem scan_counts_and_directions read flipper victim_init
    (i : nat) victim_row_phys victim (k : nat) :
  (forall addr, 0 <= read addr < 2 ^ 64) ->
  0 <= victim_init < 2 ^ 64 ->
  victims (phys flipper) !! i = Some victim_row_phys ->
  virt_victims flipper !! i = Some victim ->
  (k < 1024)%nat ->
  exists events,
    check_flips read flipper victim_init
    = (victim_loop read (take i (victims (phys flipper)))
         (take i (virt_victims flipper)) victim_init
       ++ word_loop read k victim victim victim_row_phys victim_init)
      ++ events
      ++ (word_loop read (1023 - k) (victim + 8 * (Z.of_nat k + 1)) victim
            victim_row_phys victim_init
          ++ victim_loop read (drop (S i) (victims (phys flipper)))
               (drop (S i) (virt_victims flipper)) victim_init)
    /\ Z.of_nat (length events)
       = count_one_bits (Z.lxor (read (victim + 8 * Z.of_nat k)) victim_init)
    /\ events
       = map (event_at victim_row_phys (8 * Z.of_nat k)
                (read (victim + 8 * Z.of_nat k)))
           (differing_bits (read (victim + 8 * Z.of_nat k)) victim_init 0 64)
    /\ map flips_to events
       = map (fun bit => Z.land (Z.shiftr (read (victim + 8 * Z.of_nat k)) bit) 1)
           (differing_bits (read (victim + 8 * Z.of_nat k)) victim_init 0 64)
    /\ (rows_apart (victims (phys flipper)) = true ->
        List.filter (in_word victim_row_phys (8 * Z.of_nat k))
          (check_flips read flipper victim_init)
        = events
        /\ Forall (fun e =>
                     let bit := flipped_bit victim_row_phys (8 * Z.of_nat k) e in
                     0 <= bit < 64
                     /\ Z.testbit (read (victim + 8 * Z.of_nat k)) bit
                        <> Z.testbit victim_init bit
                     /\ flips_to e
                        = Z.land (Z.shiftr (read (victim + 8 * Z.of_nat k)) bit) 1)
             events).
Proof.
  intros Hread Hi Hp Hv Hk.
  set (w := read (victim + 8 * Z.of_nat k)).
  assert (Hw : 0 <= w < 2 ^ 64) by apply Hread.
  exists (map (event_at victim_row_phys (8 * Z.of_nat k) w)
            (differing_bits w victim_init 0 64)).
  split; [|split; [|split; [reflexivity|split]]].
  - unfold check_flips.
    rewrite (victim_loop_split read victim_init i _ _ _ _ Hp Hv).
    change (Z.to_nat (row_size / 8)) with 1024%nat.
    replace 1024%nat with (k + S (1023 - k))%nat at 1 by lia.
    rewrite word_loop_split.
    replace (victim + 8 * Z.of_nat k - victim) with (8 * Z.of_nat k) by lia.
    rewrite (wrap64_small (8 * Z.of_nat k)) by lia.
    fold w. rewrite (check_word_events _ _ _ _ Hw Hi).
    rewrite <- !app_assoc. reflexivity.
  - rewrite length_map. unfold differing_bits.
    pose proof (lxor_range w victim_init Hw Hi) as Hx.
    rewrite (count_differing 64 (Z.lxor w victim_init) 0); try lia.
    + rewrite Z.shiftr_0_r. reflexivity.
    + rewrite Z.shiftr_0_r. change (2 ^ Z.of_nat 64) with (2 ^ 64). lia.
  - rewrite map_map. reflexivity.
  - intros Hrows. split.
    + apply (scan_events_of_word read flipper victim_init i victim_row_phys victim k);
        assumption.
    + destruct (rows_apart_spec _ Hrows) as [Hrange _].
      destruct (Hrange i victim_row_phys Hp) as [Hp0 Hpend].
      apply List.Forall_forall. intros e He.
      apply List.in_map_iff in He as (bit & <- & Hbit).
      apply differing_bits_spec in Hbit as [Hr Ht].
      assert (Hbyte : 0 <= bit / 8 < 8).
      { split; [apply Z.div_pos; lia|apply Z.div_lt_upper_bound; lia]. }
      assert (Hpos : flipped_bit victim_row_phys (8 * Z.of_nat k)
                       (event_at victim_row_phys (8 * Z.of_nat k) w bit) = bit).
      { unfold flipped_bit. cbn [event_at victim_phys victim_bit].
        unfold row_size in Hpend.
        rewrite (wrap64_small (victim_row_phys + 8 * Z.of_nat k)) by lia.
        rewrite wrap64_small by lia.
        pose proof (Z.div_mod bit 8 ltac:(lia)). lia. }
      cbn zeta. rewrite Hpos. split; [exact Hr|]. split; [|reflexivity].
      rewrite Z.lxor_spec in Ht. intros Heq. rewrite Heq in Ht.
      destruct (Z.testbit victim_init bit); discriminate.
Qed.

(** Two victim rows with flips in both: word 1 of the first row reads 0x7e
    over the template 0xff, and the scan has two events for it, bit 0 and
    bit 7, both flipped to 0. *)
Lemma scan_counts_and_directions_witness :
  List.filter (in_word 0x10000 8)
    (check_flips two_flip_memory two_victim_flipper 0xff)
  = [{| victim_phys := 0x10008; victim_bit := 0; flips_to := 0 |};
     {| victim_phys := 0x10008; victim_bit := 7; flips_to := 0 |}]
  /\ Z.of_nat
       (length (List.filter (in_word 0x10000 8)
                  (check_flips two_flip_memory two_victim_flipper 0xff)))
     = count_one_bits
         (Z.lxor (two_flip_memory (0x7f0000000000 + 8 * Z.of_nat 1)) 0xff).
Proof.
  destruct (scan_counts_and_directions two_flip_memory two_victim_flipper 0xff
              0%nat 0x10000 0x7f0000000000 1%nat)
    as (events & _ & Hcount & Hevents & _ & Hword).
  - intros addr. unfold two_flip_memory.
    destruct (addr =? 0x7f0000000008); [lia|].
    destruct (addr =? 0x7f0000004000); lia.
  - lia.
  - reflexivity.
  - reflexivity.
  - lia.
  - destruct (Hword eq_refl) as [Hfilter _].
    change (8 * Z.of_nat 1) with 8 in Hfilter.
    rewrite Hfilter. split; [rewrite Hevents; reflexivity|exact Hcount].
Defined.

(** The same scan, evaluated: the two events of that word among the three
    of the scan. *)
Lemma two_victim_scan :
  check_flips two_flip_memory two_victim_flipper 0xff
  = [{| victim_phys := 0x10008; victim_bit := 0; flips_to := 0 |};
     {| victim_phys := 0x10008; victim_bit := 7; flips_to := 0 |};
     {| victim_phys := 0x14001; victim_bit := 0; flips_to := 1 |}]
  /\ List.filter (in_word 0x10000 8)
       (check_flips two_flip_memory two_victim_flipper 0xff)
     = [{| victim_phys := 0x10008; victim_bit := 0; flips_to := 0 |};
        {| victim_phys := 0x10008; victim_bit := 7; flips_to := 0 |}].
Proof. split; vm_compute; reflexivity. Qed.

(** C6, as stated, fails: when the first word of the victim row reads 0x100
    over the template 0, the one event of the scan carries bit index 0 and
    the address of byte 1 of the word, not the index 8 of the flipped bit in
    the word and the address of the word. *)
Lemma flip_event_word_index_counterexample :
  check_flips one_flip_memory one_victim_flipper 0
  = [{| victim_phys := 0x10001; victim_bit := 0; flips_to := 1 |}]
  /\ ~ Forall (fun e =>
                 0 <= victim_bit e < 64
                 /\ Z.testbit (Z.lxor 0x100 0) (victim_bit e) = true
                 /\ victim_phys e = 0x10000
                 /\ flips_to e = Z.land (Z.shiftr 0x100 (victim_bit e)) 1)
         (check_flips one_flip_memory one_victim_flipper 0).
Proof.
  split; [vm_compute; reflexivity|].
  intros H. vm_compute in H.
  apply Forall_inv in H. destruct H as (_ & Hbit & _). discriminate Hbit.
Qed.

(** C6, amended: every event of the flip scan comes from one differing
    position [bit] in 0..63 of a 64-bit word of a victim row, the word
    [flip_offset_bytes = 8 * k] bytes into the row; the event carries the bit
    index [bit mod 8], in 0..7, within byte [bit / 8] of that word, the
    physical address of that byte (row start plus [flip_offset_bytes] plus
    [bit / 8]) and the value the bit flipped to. *)
Theorem flip_event_fields read flipper victim_init e :
  0 <= victim_init < 2 ^ 64 ->
  (forall addr, 0 <= read addr < 2 ^ 64) ->
  In e (check_flips read flipper victim_init) ->
  exists (i : nat) victim_row_phys victim (k : nat) bit,
    victims (phys flipper) !! i = Some victim_row_phys
    /\ virt_victims flipper !! i = Some victim
    /\ (k < 1024)%nat
    /\ 0 <= bit < 64
    /\ Z.testbit (read (victim + 8 * Z.of_nat k)) bit <> Z.testbit victim_init bit
    /\ victim_bit e = bit mod 8
    /\ 0 <= victim_bit e < 8
    /\ 0 <= bit / 8 < 8
    /\ victim_phys e
       = wrap64 (wrap64 (victim_row_phys + 8 * Z.of_nat k) + bit / 8)
    /\ flips_to e = Z.b2z (Z.testbit (read (victim + 8 * Z.of_nat k)) bit).
Proof.
  intros Hi Hread Hin. unfold check_flips in Hin.
  apply victim_loop_events in Hin as (i & p & v & k & Hp & Hv & Hk & Hin).
  rewrite (check_word_events _ _ _ _ (Hread _) Hi) in Hin.
  apply List.in_map_iff in Hin as (bit & <- & Hbit).
  apply differing_bits_spec in Hbit as [Hr Ht].
  exists i, p, v, k, bit. cbn [event_at victim_bit victim_phys flips_to].
  rewrite Z.lxor_spec in Ht.
  split; [exact Hp|]. split; [exact Hv|]. split; [exact Hk|].
  split; [exact Hr|]. split.
  { intros Heq. rewrite Heq in Ht.
    destruct (Z.testbit victim_init bit); discriminate. }
  split; [reflexivity|]. split; [apply Z.mod_pos_bound; lia|].
  split; [split; [apply Z.div_pos; lia|apply Z.div_lt_upper_bound; lia]|].
  split; [reflexivity|]. apply land_one_testbit. lia.
Qed.

Lemma flip_event_fields_witness :
  exists (i : nat) victim_row_phys victim (k : nat) bit,
    victims (phys one_victim_flipper) !! i = Some victim_row_phys
    /\ virt_victims one_victim_flipper !! i = Some victim
    /\ (k < 1024)%nat
    /\ 0 <= bit < 64
    /\ Z.testbit (one_flip_memory (victim + 8 * Z.of_nat k)) bit <> Z.testbit 0 bit
    /\ victim_bit {| victim_phys := 0x10001; victim_bit := 0; flips_to := 1 |}
       = bit mod 8
    /\ 0 <= victim_bit {| victim_phys := 0x10001; victim_bit := 0; flips_to := 1 |}
       < 8
    /\ 0 <= bit / 8 < 8
    /\ victim_phys {| victim_phys := 0x10001; victim_bit := 0; flips_to := 1 |}
       = wrap64 (wrap64 (victim_row_phys + 8 * Z.of_nat k) + bit / 8)
    /\ flips_to {| victim_phys := 0x10001; victim_bit := 0; flips_to := 1 |}
       = Z.b2z (Z.testbit (one_flip_memory (victim + 8 * Z.of_nat k)) bit).
Proof.
  apply (flip_event_fields one_flip_memory one_victim_flipper 0
           {| victim_phys := 0x10001; victim_bit := 0; flips_to := 1 |}).
  - lia.
  - intros addr. unfold one_flip_memory. destruct (addr =? 0x7f0000000000); lia.
  - vm_compute. left. reflexivity.
Defined.

End FlipScan.

(** ** Resolving the rows of a flipper *)

Section FindPages.
Import Bits PageFinder Flipper Resolve.

Lemma find_page_unfold finder p v :
  find_page finder p v = (present finder p, resolved finder p v).
Proof.
  unfold find_page, present, resolved.
  destruct (pagemap finder !! wrap32 (p / page_size)) as [off|] eqn:E.
  - rewrite bool_decide_eq_true_2 by eauto. reflexivity.
  - rewrite bool_decide_eq_false_2; [reflexivity|]. intros [x Hx]. discriminate.
Qed.

Lemma resolve_loop_spec finder (phys_addrs : list Z) (n : nat) :
  forall (i : nat) (virt : list Z) (found : bool),
  let '(virt', found') := resolve_loop finder phys_addrs n i virt found in
  length virt' = length virt
  /\ found' = found && forallb (fun j => present finder (phys_addrs !!! j)) (seq i n)
  /\ forall j : nat,
       virt' !! j
       = if bool_decide (i <= j < i + n)%nat
         then resolved finder (phys_addrs !!! j) <$> virt !! j
         else virt !! j.
Proof.
  induction n as [|n IH]; intros i virt found.
  - cbn. split; [reflexivity|]. split; [by rewrite andb_true_r|].
    intros j. rewrite bool_decide_eq_false_2 by lia. reflexivity.
  - cbn [resolve_loop]. rewrite find_page_unfold.
    specialize (IH (S i) (<[i := resolved finder (phys_addrs !!! i) (virt !!! i)]> virt)
                  (found && present finder (phys_addrs !!! i))).
    destruct (resolve_loop finder phys_addrs n (S i) _ _) as [virt' found'].
    destruct IH as (Hlen & Hfound & Hlook).
    rewrite length_insert in Hlen.
    split; [exact Hlen|]. split.
    + rewrite Hfound. cbn [seq forallb]. by rewrite andb_assoc.
    + intros j. rewrite Hlook.
      destruct (decide (j = i)) as [->|Hne].
      * rewrite bool_decide_eq_false_2 by lia.
        rewrite bool_decide_eq_true_2 by lia.
        destruct (virt !! i) as [v|] eqn:Ev.
        -- rewrite list_lookup_insert_eq by (eapply lookup_lt_Some; eauto).
           rewrite (list_lookup_total_correct _ _ _ Ev). reflexivity.
        -- rewrite list_insert_ge by (apply lookup_ge_None; exact Ev).
           rewrite Ev. reflexivity.
      * rewrite list_lookup_insert_ne by congruence.
        destruct (bool_decide (S i <= j < S i + n)%nat) eqn:E1.
        -- apply bool_decide_eq_true_1 in E1.
           rewrite bool_decide_eq_true_2 by lia. reflexivity.
        -- apply bool_decide_eq_false_1 in E1.
           rewrite bool_decide_eq_false_2 by lia. reflexivity.
Qed.

Lemma forallb_present_false finder (l : list Z) p :
  p ∈ l -> present finder p = false ->
  forallb (fun j => present finder (l !!! j)) (seq 0 (length l)) = false.
Proof.
  intros Hin Hp. apply list_elem_of_lookup in Hin as [i Hi].
  apply not_true_is_false. intros Hall.
  rewrite forallb_forall in Hall.
  specialize (Hall i). rewrite (list_lookup_total_correct _ _ _ Hi) in Hall.
  rewrite Hp in Hall. discriminate Hall.
  apply in_seq. apply lookup_lt_Some in Hi. lia.
Qed.

(** C5, as stated, fails: with the second aggressor row missing the result
    is false, yet the entry of the first aggressor row has been
    overwritten. *)
Lemma find_pages_partial_state_counterexample :
  pagemap one_frame_finder !! wrap32 (0x3000 / page_size) = None
  /\ ~ (snd (find_pages fresh_flipper one_frame_finder) = false
        /\ virt_aggs (fst (find_pages fresh_flipper one_frame_finder))
           = virt_aggs fresh_flipper
        /\ virt_victims (fst (find_pages fresh_flipper one_frame_finder))
           = virt_victims fresh_flipper).
Proof.
  split; [vm_compute; reflexivity|].
  intros (_ & Ha & _). vm_compute in Ha. discriminate Ha.
Qed.

(** C5, amended: if some aggressor or victim row is not in the page map,
    [find_pages] returns false; the entries of the missing rows keep their
    value, while the entry of every row that is in the page map is
    overwritten with the virtual address of its page, so the flipper is left
    partially updated. *)
Theorem find_pages_missing flipper finder p :
  p ∈ aggs (phys flipper) ++ victims (phys flipper) ->
  pagemap finder !! wrap32 (p / page_size) = None ->
  snd (find_pages flipper finder) = false
  /\ phys (fst (find_pages flipper finder)) = phys flipper
  /\ (forall (i : nat) q old,
        aggs (phys flipper) !! i = Some q -> virt_aggs flipper !! i = Some old ->
        virt_aggs (fst (find_pages flipper finder)) !! i
        = Some match pagemap finder !! wrap32 (q / page_size) with
               | Some page_offset =>
                   wrap64 (mem finder + wrap64 (page_offset * page_size))
               | None => old
               end)
  /\ (forall (i : nat) q old,
        victims (phys flipper) !! i = Some q -> virt_victims flipper !! i = Some old ->
        virt_victims (fst (find_pages flipper finder)) !! i
        = Some match pagemap finder !! wrap32 (q / page_size) with
               | Some page_offset =>
                   wrap64 (mem finder + wrap64 (page_offset * page_size))
               | None => old
               end).
Proof.
  intros Hin Hmiss. unfold find_pages.
  pose proof (resolve_loop_spec finder (aggs (phys flipper))
                (length (aggs (phys flipper))) 0 (virt_aggs flipper) true) as Ha.
  destruct (resolve_loop finder (aggs (phys flipper)) _ 0 _ true) as [va fa].
  destruct Ha as (_ & Hfa & Hlooka).
  pose proof (resolve_loop_spec finder (victims (phys flipper))
                (length (victims (phys flipper))) 0 (virt_victims flipper) fa) as Hv.
  destruct (resolve_loop finder (victims (phys flipper)) _ 0 _ fa) as [vv fv].
  destruct Hv as (_ & Hfv & Hlookv).
  cbn [fst snd phys virt_aggs virt_victims].
  assert (Hp : present finder p = false).
  { unfold present. rewrite Hmiss. apply bool_decide_eq_false_2.
    intros [x Hx]. discriminate. }
  split; [|split; [reflexivity|split]].
  - rewrite Hfv, Hfa. cbn [andb].
    apply elem_of_app in Hin as [Hin|Hin].
    + rewrite (forallb_present_false finder _ p Hin Hp). reflexivity.
    + rewrite (forallb_present_false finder _ p Hin Hp). apply andb_false_r.
  - intros i q old Hq Hold. rewrite Hlooka.
    rewrite bool_decide_eq_true_2
      by (apply lookup_lt_Some in Hq; lia).
    rewrite Hold, (list_lookup_total_correct _ _ _ Hq). reflexivity.
  - intros i q old Hq Hold. rewrite Hlookv.
    rewrite bool_decide_eq_true_2
      by (apply lookup_lt_Some in Hq; lia).
    rewrite Hold, (list_lookup_total_correct _ _ _ Hq). reflexivity.
Qed.

Lemma find_pages_missing_witness :
  snd (find_pages fresh_flipper one_frame_finder) = false
  /\ virt_aggs (fst (find_pages fresh_flipper one_frame_finder)) !! 0%nat
     = Some 0x7f0000005000
  /\ virt_aggs (fst (find_pages fresh_flipper one_frame_finder)) !! 1%nat
     = Some 0.
Proof.
  destruct (find_pages_missing fresh_flipper one_frame_finder 0x3000)
    as (Hres & _ & Haggs & _).
  - apply list_elem_of_In. simpl. tauto.
  - vm_compute. reflexivity.
  - split; [exact Hres|]. split.
    + exact (Haggs 0%nat 0x1000 0 eq_refl eq_refl).
    + exact (Haggs 1%nat 0x3000 0 eq_refl eq_refl).
Defined.

End FindPages.

(** ** The missing-row guard of the non-contiguous finder *)

Section MissingRows.
Import Bits DRAM PageFinder Flipper Noncontiguous Examples.

Lemma lower_bound_sorted (s : list Z) (x : Z) :
  StronglySorted Z.lt s ->
  match lower_bound s x with
  | None => forall r, In r s -> r < x
  | Some r => In r s /\ x <= r /\ forall r', In r' s -> x <= r' -> r <= r'
  end.
Proof.
  unfold lower_bound. induction 1 as [|a s Hs IH Ha]; cbn [List.find].
  - intros r [].
  - destruct (Z.leb_spec x a) as [Hle|Hlt].
    + split; [left; reflexivity|]. split; [exact Hle|].
      intros r' [<-|Hin] _; [lia|].
      rewrite List.Forall_forall in Ha. specialize (Ha _ Hin). lia.
    + destruct (List.find (fun r => x <=? r) s) as [r|].
      * destruct IH as (Hin & Hle & Hmin).
        split; [right; exact Hin|]. split; [exact Hle|].
        intros r' [<-|Hin'] Hx; [lia|]. apply Hmin; assumption.
      * intros r [<-|Hin]; [lia|]. apply IH. exact Hin.
Qed.

(** Away from the ends of the row range the guard is exact: it reports a
    missing row precisely when one lies in the padded window. *)
Lemma is_any_row_missing_in_range F bank s first_row last_row :
  missing_rows F !! bank = Some s ->
  StronglySorted Z.lt s ->
  0 <= row_padding F <= first_row -> first_row <= last_row ->
  last_row + row_padding F < 2 ^ 64 ->
  exists b,
    is_any_row_missing F bank first_row last_row = Some b
    /\ (b = true <->
        exists r, In r s
                  /\ first_row - row_padding F <= r <= last_row + row_padding F).
Proof.
  intros Hs Hsorted Hpad Hfl Hhi. unfold is_any_row_missing. rewrite Hs.
  cbn [mbind option_bind]. eexists. split; [reflexivity|].
  rewrite !wrap64_small by lia.
  pose proof (lower_bound_sorted s (first_row - row_padding F) Hsorted) as Hlb.
  destruct (lower_bound s (first_row - row_padding F)) as [r|].
  - destruct Hlb as (Hin & Hle & Hmin). split.
    + intros Hb. apply Z.leb_le in Hb. exists r. split; [exact Hin|lia].
    + intros (r' & Hin' & Hr'). apply Z.leb_le.
      specialize (Hmin r' Hin'). lia.
  - split; [discriminate|].
    intros (r' & Hin' & Hr'). specialize (Hlb r' Hin'). lia.
Qed.

(** A window the guard reports is skipped: nothing is hammered and the
    experiment loop goes on. *)
Lemma hammer_skips_reported_window F do_exit bank first_victim last_victim :
  is_any_row_missing F bank first_victim last_victim = Some true ->
  hammer F do_exit bank first_victim last_victim = Some (true, Skipped).
Proof. intros H. unfold hammer. rewrite H. reflexivity. Qed.

(** C8 at the failing window: row 2 of bank 0 is missing and lies in the
    padded interval [5 - 10, 7 + 10], yet the guard reports nothing and the
    window of rows 5 to 7 is hammered; the lower end [5 - 10] wrapped around
    to 2^64 - 5. *)
Theorem missing_row_below_padding_is_hammered :
  missing_rows low_rows_finder !! 0 = Some [2]
  /\ 5 - row_padding low_rows_finder <= 2 <= 7 + row_padding low_rows_finder
  /\ wrap64 (5 - row_padding low_rows_finder) = 2 ^ 64 - 5
  /\ is_any_row_missing low_rows_finder 0 5 7 = Some false
  /\ hammer low_rows_finder false 0 5 7
     = Some (true,
             Hammered {| Flipper.phys := {| aggs := [1671168];
                                            victims := [1392640; 1949696] |};
                         virt_aggs := [0x7f0000002000];
                         virt_victims := [0x7f0000000000; 0x7f0000004000] |}).
Proof. repeat split; vm_compute; try reflexivity; discriminate. Qed.

End MissingRows.

(** ** Configuration verification *)

Section Verification.
Import Bits DRAM Conf ConfExamples.

Variable construct_pattern : string -> Z -> option (list bool * Z).
Variable get_dimms : list (string * string) -> option (list string).

Lemma check_banks_keeps c c1 :
  check_banks c = Some c1 -> exists banks', c1 = set_banks c banks'.
Proof.
  unfold check_banks. destruct (banks c) as [|b0 bl] eqn:Eb.
  - intros [= <-]. eexists. reflexivity.
  - destruct (existsb _ _); [discriminate|]. intros [= <-].
    exists (banks c). destruct c. reflexivity.
Qed.

Lemma check_hammer_pattern_keeps c c3 :
  check_hammer_pattern construct_pattern c = Some c3 ->
  test_max_rows c3 = test_max_rows c
  /\ victim_init c3 = victim_init c
  /\ aggressor_init c3 = aggressor_init c.
Proof.
  unfold check_hammer_pattern.
  destruct (pattern_bits (hammer_pattern c)).
  - destruct (construct_pattern _ _) as [[bits rows]|]; [|discriminate].
    intros [= <-]. repeat split.
  - intros [= <-]. repeat split.
Qed.

Lemma check_dimms_keeps c log c' log' :
  check_dimms get_dimms c log = Verified c' log' ->
  test_max_rows c' = test_max_rows c
  /\ victim_init c' = victim_init c
  /\ aggressor_init c' = aggressor_init c
  /\ (forall line, In line log -> In line log').
Proof.
  unfold check_dimms. destruct (dimm_ids c).
  - intros [= <- <-]. repeat split. auto.
  - destruct (get_dimms _); intros [= <- <-]; repeat split;
      intros line Hin; apply in_or_app; left; exact Hin.
Qed.

Lemma check_aggressor_init_keeps c :
  test_max_rows (check_aggressor_init c) = test_max_rows c
  /\ victim_init (check_aggressor_init c) = victim_init c
  /\ aggressor_init (check_aggressor_init c)
     = match aggressor_init c with
       | [] => map not64 (victim_init c)
       | a => a
       end.
Proof.
  unfold check_aggressor_init.
  destruct (aggressor_init c) eqn:E; repeat split; cbn; try rewrite E; reflexivity.
Qed.

(** What a completed verification did to the members the properties below
    are about. *)
Lemma verify_values_through c c' log :
  verify_values construct_pattern get_dimms c = Verified c' log ->
  exists banks' : list Z,
    test_max_rows c'
    = test_max_rows (fst (check_test_max_rows (set_banks c banks')))
    /\ (forall line,
          In line (snd (check_test_max_rows (set_banks c banks'))) -> In line log)
    /\ victim_init c' = victim_init c
    /\ aggressor_init c'
       = match aggressor_init c with
         | [] => map not64 (victim_init c)
         | a => a
         end.
Proof.
  unfold verify_values.
  destruct (negb (verify_masks (row_masks (dram_layout c)))); [discriminate|].
  destruct (negb (verify_masks (col_masks (dram_layout c)))); [discriminate|].
  destruct (check_banks c) as [c1|] eqn:Eb; [|discriminate].
  apply check_banks_keeps in Eb as [banks' ->].
  intros Hrun. exists banks'. revert Hrun. unfold verify_from_test_max_rows.
  destruct (check_test_max_rows (set_banks c banks')) as [c2 log2] eqn:E2.
  assert (Hc2 : victim_init c2 = victim_init c
                /\ aggressor_init c2 = aggressor_init c).
  { revert E2. unfold check_test_max_rows.
    destruct (_ && _); intros [= <- <-]; split; reflexivity. }
  destruct Hc2 as [Hv2 Ha2].
  destruct (check_hammer_pattern construct_pattern c2) as [c3|] eqn:E3;
    [|discriminate].
  apply check_hammer_pattern_keeps in E3 as (Hm3 & Hv3 & Ha3).
  destruct (negb _); [discriminate|].
  intros Hd. apply check_dimms_keeps in Hd as (Hm & Hv & Ha & Hlog).
  destruct (check_aggressor_init_keeps c3) as (Hm4 & Hv4 & Ha4).
  cbn [fst snd]. repeat split.
  - congruence.
  - exact Hlog.
  - congruence.
  - rewrite Ha, Ha4, Ha3, Ha2, Hv3, Hv2. reflexivity.
Qed.

Lemma not64_bits v n :
  0 <= n < 64 -> Z.testbit (not64 v) n = negb (Z.testbit v n).
Proof.
  intros Hn. unfold not64. change (2 ^ 64 - 1) with (Z.ones 64).
  rewrite Z.lxor_spec, Z.ones_spec_low by lia. apply xorb_true_r.
Qed.

(** C9, as stated, fails: the default configuration has [test_max_rows = 0],
    which is below [test_min_rows + 2 * row_padding = 69], and the block
    leaves it at 0 without a warning. *)
Lemma test_max_rows_zero_counterexample :
  test_max_rows default_config
    < test_min_rows default_config + 2 * row_padding default_config
  /\ ~ (test_max_rows (fst (check_test_max_rows default_config))
          = test_min_rows default_config + 2 * row_padding default_config
        /\ In warn_test_max_rows (snd (check_test_max_rows default_config))).
Proof.
  split; [vm_compute; reflexivity|].
  intros [H _]. vm_compute in H. discriminate H.
Qed.

(** C9, amended: for every configuration with
    [0 < test_max_rows < test_min_rows + 2 * row_padding] (the sum within the
    64 bits of the member, the doubled padding within its 32 bits) the block
    sets [test_max_rows] to exactly [test_min_rows + 2 * row_padding], logs
    one warning and changes no other member; a verification that completes
    ends with that value and with the warning in its log.  A
    [test_max_rows] of 0 means no restriction and is left alone. *)
Theorem test_max_rows_raised c :
  0 <= row_padding c < 2 ^ 31 ->
  0 <= test_min_rows c ->
  test_min_rows c + 2 * row_padding c < 2 ^ 64 ->
  0 < test_max_rows c < test_min_rows c + 2 * row_padding c ->
  test_max_rows (fst (check_test_max_rows c))
  = test_min_rows c + 2 * row_padding c
  /\ snd (check_test_max_rows c) = [warn_test_max_rows]
  /\ fst (check_test_max_rows c)
     = set_test_max_rows c (test_min_rows c + 2 * row_padding c)
  /\ (dram_layout (fst (check_test_max_rows c)) = dram_layout c
      /\ hammer_count (fst (check_test_max_rows c)) = hammer_count c
      /\ aggressor_rows (fst (check_test_max_rows c)) = aggressor_rows c
      /\ banks (fst (check_test_max_rows c)) = banks c
      /\ row_padding (fst (check_test_max_rows c)) = row_padding c
      /\ hammer_pattern (fst (check_test_max_rows c)) = hammer_pattern c
      /\ victim_init (fst (check_test_max_rows c)) = victim_init c
      /\ aggressor_init (fst (check_test_max_rows c)) = aggressor_init c
      /\ test_min_rows (fst (check_test_max_rows c)) = test_min_rows c
      /\ test_first_row (fst (check_test_max_rows c)) = test_first_row c
      /\ test_last_row (fst (check_test_max_rows c)) = test_last_row c
      /\ dimms (fst (check_test_max_rows c)) = dimms c
      /\ dimm_ids (fst (check_test_max_rows c)) = dimm_ids c)
  /\ forall c' log,
       verify_values construct_pattern get_dimms c = Verified c' log ->
       test_max_rows c' = test_min_rows c + 2 * row_padding c
       /\ In warn_test_max_rows log.
Proof.
  intros Hpad Hmin Hsum Hmax.
  assert (Hlb : forall banks',
            check_test_max_rows (set_banks c banks')
            = (set_test_max_rows (set_banks c banks')
                 (test_min_rows c + 2 * row_padding c), [warn_test_max_rows])).
  { intros banks'. unfold check_test_max_rows.
    cbn [set_banks test_min_rows row_padding test_max_rows].
    rewrite wrap32_small by lia. rewrite wrap64_small by lia.
    replace (test_min_rows c + row_padding c * 2)
      with (test_min_rows c + 2 * row_padding c) by lia.
    destruct (Z.ltb_spec 0 (test_max_rows c)); [|lia].
    destruct (Z.ltb_spec (test_max_rows c)
                (test_min_rows c + 2 * row_padding c)); [|lia].
    reflexivity. }
  assert (Hc : set_banks c (banks c) = c) by (destruct c; reflexivity).
  pose proof (Hlb (banks c)) as Hhere. rewrite Hc in Hhere.
  rewrite Hhere. cbn [fst snd].
  split; [reflexivity|]. split; [reflexivity|]. split; [reflexivity|].
  split; [repeat split|].
  intros c' log Hrun.
  apply verify_values_through in Hrun as (banks' & Hm & Hlog & _).
  rewrite Hlb in Hm, Hlog. cbn [fst snd test_max_rows set_test_max_rows] in Hm, Hlog.
  split; [exact Hm|]. apply Hlog. left. reflexivity.
Qed.

(** C10: if the configuration has victim initialization words but no
    aggressor initialization words, then after a verification that completes
    [aggressor_init] is as long as [victim_init] and its element at every
    index is the 64-bit complement of the victim word there. *)
Theorem aggressor_init_inverted c c' log :
  victim_init c <> [] ->
  aggressor_init c = [] ->
  verify_values construct_pattern get_dimms c = Verified c' log ->
  victim_init c' = victim_init c
  /\ length (aggressor_init c') = length (victim_init c')
  /\ forall (i : nat) v,
       victim_init c' !! i = Some v ->
       aggressor_init c' !! i = Some (not64 v)
       /\ forall n, 0 <= n < 64 ->
            Z.testbit (not64 v) n = negb (Z.testbit v n).
Proof.
  intros Hne Hempty Hrun.
  apply verify_values_through in Hrun as (banks' & _ & _ & Hv & Ha).
  rewrite Hempty in Ha. rewrite Hv, Ha.
  split; [reflexivity|]. split; [apply length_map|].
  intros i v Hi. split.
  - rewrite list_lookup_fmap, Hi. reflexivity.
  - intros n Hn. apply not64_bits. exact Hn.
Qed.

End Verification.

Section VerificationRuns.
Import Bits DRAM Conf ConfExamples.

Lemma test_max_rows_raised_witness :
  test_max_rows (fst (check_test_max_rows (set_test_max_rows default_config 5)))
  = 69
  /\ snd (check_test_max_rows (set_test_max_rows default_config 5))
     = [warn_test_max_rows]
  /\ exists c',
       verify_values spec_pattern (fun _ => None)
         (set_test_max_rows default_config 5)
       = Verified c' [warn_test_max_rows]
       /\ test_max_rows c' = 69.
Proof.
  destruct (test_max_rows_raised spec_pattern (fun _ => None)
              (set_test_max_rows default_config 5))
    as (Hval & Hlog & _ & _ & Hrun); try (simpl; lia).
  split; [exact Hval|]. split; [exact Hlog|].
  eexists. split; [vm_compute; reflexivity|]. reflexivity.
Defined.

Lemma aggressor_init_inverted_witness :
  exists c' log,
    verify_values spec_pattern (fun _ => None)
      (set_aggressor_init default_config []) = Verified c' log
    /\ victim_init c' = [0; 2 ^ 64 - 1]
    /\ aggressor_init c' = [2 ^ 64 - 1; 0]
    /\ length (aggressor_init c') = length (victim_init c').
Proof.
  destruct (verify_values spec_pattern (fun _ => None)
              (set_aggressor_init default_config [])) as [|c' log] eqn:Hrun;
    [vm_compute in Hrun; discriminate Hrun|].
  exists c', log. split; [reflexivity|].
  destruct (aggressor_init_inverted spec_pattern (fun _ => None)
              (set_aggressor_init default_config []) c' log)
    as (Hv & Hlen & Hinv).
  - vm_compute. discriminate.
  - reflexivity.
  - exact Hrun.
  - split; [exact Hv|]. split; [|exact Hlen].
    apply list_eq. intros i. destruct i as [|[|i]].
    + destruct (Hinv 0%nat 0) as [H0 _]; [rewrite Hv; reflexivity|exact H0].
    + destruct (Hinv 1%nat (2 ^ 64 - 1)) as [H1 _]; [rewrite Hv; reflexivity|exact H1].
    + assert (Hnone : aggressor_init c' !! S (S i) = None).
      { apply lookup_ge_None. rewrite Hlen, Hv. cbn. lia. }
      rewrite Hnone. reflexivity.
Defined.

End VerificationRuns.
(** ** Hammer pattern construction *)

Section PatternFacts.
Import Pattern.



Lemma count_true_nonneg bits : 0 <= count_true bits.
Proof. induction bits as [|[|] bits IH]; cbn [count_true]; lia. Qed.

Lemma count_aggressors_nonneg description : 0 <= count_aggressors description.
Proof. induction description as [|[| |] d IH]; cbn [count_aggressors]; lia. Qed.








(** With a request of 0 the template is not repeated; the description [a]
    still ends in [a], so the pattern is the terminal victim alone. *)
Lemma hammer_pattern_without_repetition :
  HammerPattern 0 [A] 0 [] = Some ([false], 0).
Proof. reflexivity. Qed.

End PatternFacts.
(** ** Round trip through the DRAM address *)

Section MaskFacts.
Import Bits DRAM Canonical.

Lemma ctz_pos_nonneg p : 0 <= ctz_pos p.
Proof. induction p; cbn [ctz_pos]; lia. Qed.

Lemma ctz_nonneg x : 0 <= count_trailing_zero_bits x.
Proof. destruct x; cbn; try lia. apply ctz_pos_nonneg. Qed.

(** The bit at the trailing-zero count of a positive value is set. *)
Lemma ctz_pos_testbit p : Z.testbit (Zpos p) (ctz_pos p) = true.
Proof.
  induction p as [p IH|p IH|]; cbn [ctz_pos]; try reflexivity.
  pose proof (ctz_pos_nonneg p) as Hn.
  replace (1 + ctz_pos p) with (Z.succ (ctz_pos p)) by lia.
  change (Zpos p~0) with (2 * Zpos p).
  rewrite Z.testbit_even_succ by exact Hn. exact IH.
Qed.

Lemma ctz_testbit x : 0 < x -> Z.testbit x (count_trailing_zero_bits x) = true.
Proof. destruct x; try lia. intros _. apply ctz_pos_testbit. Qed.

Lemma pow2_le_mono a b : 0 <= a <= b -> 2 ^ a <= 2 ^ b.
Proof. intros H. apply Z.pow_le_mono_r; lia. Qed.

Lemma testbit_true_range x k : 0 <= x < 2 ^ 64 -> Z.testbit x k = true -> 0 <= k < 64.
Proof.
  intros Hx Hk. destruct (Z.ltb_spec k 0) as [Hneg|Hpos].
  { rewrite Z.testbit_neg_r in Hk by lia. discriminate. }
  split; [exact Hpos|].
  destruct (Z.ltb_spec k 64) as [|Hge]; [assumption|].
  assert (Hpow : 2 ^ 64 <= 2 ^ k) by (apply pow2_le_mono; lia).
  rewrite Z.testbit_true in Hk by lia.
  rewrite Z.div_small in Hk by lia. discriminate.
Qed.

Lemma high_bits_clear x k : 0 <= x < 2 ^ 64 -> 64 <= k -> Z.testbit x k = false.
Proof.
  intros Hx Hk. destruct (Z.testbit x k) eqn:E; [|reflexivity].
  pose proof (testbit_true_range x k Hx E). lia.
Qed.

Lemma small_of_high_bits x :
  0 <= x -> (forall k, 64 <= k -> Z.testbit x k = false) -> 0 <= x < 2 ^ 64.
Proof.
  intros Hx Hhigh.
  assert (Hmod : x = x mod 2 ^ 64).
  { rewrite <- Z.land_ones by lia. apply Z.bits_inj'. intros k Hk.
    rewrite Z.land_spec, Z.testbit_ones_nonneg by lia.
    destruct (Z.ltb_spec k 64); [rewrite andb_true_r; reflexivity|].
    rewrite Hhigh by lia. reflexivity. }
  rewrite Hmod. apply Z.mod_pos_bound. lia.
Qed.

Lemma land_small_r x m : 0 <= x -> 0 <= m < 2 ^ 64 -> 0 <= Z.land x m < 2 ^ 64.
Proof.
  intros Hx Hm. apply small_of_high_bits.
  - apply Z.land_nonneg. left. exact Hx.
  - intros k Hk. rewrite Z.land_spec, (high_bits_clear m k Hm Hk).
    apply andb_false_r.
Qed.

(** The shape of a contiguous mask. *)
Lemma contiguous_shape m :
  contiguous m = true ->
  let n := count_one_bits m in
  let o := count_trailing_zero_bits m in
  0 <= o /\ 1 <= n /\ o + n <= 64 /\ 0 < m < 2 ^ 64
  /\ forall k, 0 <= k -> Z.testbit m k = (o <=? k) && (k <? o + n).
Proof.
  unfold contiguous. intros H. cbv zeta.
  apply andb_prop in H as [H Hshape]. apply andb_prop in H as [Hpos Hlt].
  apply Z.ltb_lt in Hpos, Hlt. apply Z.eqb_eq in Hshape.
  set (n := count_one_bits m) in *. set (o := count_trailing_zero_bits m) in *.
  assert (Ho : 0 <= o) by apply ctz_nonneg.
  assert (Hn : 1 <= n).
  { destruct m as [|q|q]; try lia. subst n. cbn.
    pose proof (popcount_pos_positive q). lia. }
  assert (Hbits : forall k, 0 <= k -> Z.testbit m k = (o <=? k) && (k <? o + n)).
  { intros k Hk. rewrite Hshape at 1. rewrite Z.shiftl_spec by exact Hk.
    destruct (Z.leb_spec o k) as [Hok|Hko].
    - rewrite Z.testbit_ones_nonneg by lia. cbn [andb].
      destruct (Z.ltb_spec (k - o) n), (Z.ltb_spec k (o + n)); try reflexivity; lia.
    - rewrite Z.testbit_neg_r by lia. reflexivity. }
  repeat split; try assumption.
  pose proof (Hbits (o + n - 1) ltac:(lia)) as Htop.
  destruct (Z.leb_spec o (o + n - 1)); [|lia].
  destruct (Z.ltb_spec (o + n - 1) (o + n)); [|lia].
  cbn [andb] in Htop.
  pose proof (testbit_true_range m (o + n - 1) ltac:(lia) Htop). lia.
Qed.

(** The projection of an address under one mask, shifted down. *)
Lemma piece_bits m p k :
  contiguous m = true -> 0 <= k ->
  Z.testbit (shr64 (Z.land p m) (count_trailing_zero_bits m)) k
  = Z.testbit p (k + count_trailing_zero_bits m) && (k <? count_one_bits m).
Proof.
  intros Hm Hk. destruct (contiguous_shape m Hm) as (Ho & Hn & Hon & Hr & Hb).
  rewrite shr64_small by lia.
  rewrite Z.shiftr_spec, Z.land_spec, Hb by lia.
  destruct (Z.leb_spec (count_trailing_zero_bits m) (k + count_trailing_zero_bits m));
    [|lia].
  cbn [andb]. f_equal.
  destruct (Z.ltb_spec (k + count_trailing_zero_bits m)
              (count_trailing_zero_bits m + count_one_bits m)),
    (Z.ltb_spec k (count_one_bits m)); try reflexivity; lia.
Qed.

Lemma piece_range m p :
  contiguous m = true -> 0 <= p ->
  0 <= shr64 (Z.land p m) (count_trailing_zero_bits m) < 2 ^ count_one_bits m.
Proof.
  intros Hm Hp. destruct (contiguous_shape m Hm) as (Ho & Hn & Hon & Hr & Hb).
  set (x := shr64 (Z.land p m) (count_trailing_zero_bits m)).
  assert (Hx : 0 <= x).
  { subst x. rewrite shr64_small by lia. apply Z.shiftr_nonneg.
    apply Z.land_nonneg. left. exact Hp. }
  assert (Hmod : x = x mod 2 ^ count_one_bits m).
  { rewrite <- Z.land_ones by lia. apply Z.bits_inj'. intros k Hk.
    rewrite Z.land_spec, Z.testbit_ones_nonneg by lia.
    subst x. rewrite piece_bits by assumption.
    destruct (Z.testbit p _), (k <? count_one_bits m); reflexivity. }
  rewrite Hmod. apply Z.mod_pos_bound. apply Z.pow_pos_nonneg; lia.
Qed.

(** Shifting the projection back up gives the masked address. *)
Lemma piece_back m p :
  contiguous m = true -> 0 <= p ->
  shl64 (shr64 (Z.land p m) (count_trailing_zero_bits m))
    (count_trailing_zero_bits m)
  = Z.land p m.
Proof.
  intros Hm Hp. destruct (contiguous_shape m Hm) as (Ho & Hn & Hon & Hr & Hb).
  rewrite shl64_small by lia.
  assert (Heq : Z.shiftl (shr64 (Z.land p m) (count_trailing_zero_bits m))
                  (count_trailing_zero_bits m) = Z.land p m).
  { apply Z.bits_inj'. intros k Hk.
    rewrite Z.shiftl_spec, Z.land_spec, Hb by lia.
    destruct (Z.leb_spec (count_trailing_zero_bits m) k) as [Hok|Hko].
    - rewrite piece_bits by (assumption || lia).
      replace (k - count_trailing_zero_bits m + count_trailing_zero_bits m)
        with k by lia.
      cbn [andb]. f_equal.
      destruct (Z.ltb_spec (k - count_trailing_zero_bits m) (count_one_bits m)),
        (Z.ltb_spec k (count_trailing_zero_bits m + count_one_bits m));
        try reflexivity; lia.
    - rewrite Z.testbit_neg_r by lia. cbn [andb]. rewrite andb_false_r.
      reflexivity. }
  rewrite Heq. apply wrap64_small. apply land_small_r; lia.
Qed.

Lemma int_low_mask_small n : 0 <= n <= 30 -> int_low_mask n = Z.ones n.
Proof.
  intros Hn. unfold int_low_mask, int_to_u64.
  rewrite (Z.mod_small n 32) by lia. rewrite Z.shiftl_1_l, Z.ones_equiv.
  pose proof (pow2_le_mono 0 n ltac:(lia)) as Hlo.
  pose proof (pow2_le_mono n 30 ltac:(lia)) as Hhi.
  change (2 ^ 0) with 1 in Hlo. change (2 ^ 30) with 1073741824 in Hhi.
  rewrite (Z.mod_small (2 ^ n - 1 + 2 ^ 31)) by lia.
  rewrite wrap64_small by lia. lia.
Qed.

Lemma int_one_shl_small n : 0 <= n <= 30 -> int_one_shl n = Z.shiftl 1 n.
Proof.
  intros Hn. unfold int_one_shl, int_to_u64.
  rewrite (Z.mod_small n 32) by lia. rewrite Z.shiftl_1_l.
  pose proof (pow2_le_mono 0 n ltac:(lia)) as Hlo.
  pose proof (pow2_le_mono n 30 ltac:(lia)) as Hhi.
  change (2 ^ 0) with 1 in Hlo. change (2 ^ 30) with 1073741824 in Hhi.
  rewrite (Z.mod_small (2 ^ n + 2 ^ 31)) by lia.
  rewrite wrap64_small by lia. lia.
Qed.

Lemma total_bits_nonneg masks : 0 <= total_bits masks.
Proof.
  induction masks as [|m rest IH]; cbn [total_bits fold_right]; [lia|].
  pose proof (count_one_bits_nonneg m). fold (total_bits rest). lia.
Qed.

Lemma contiguous_of_forallb (m : Z) rest :
  forallb (fun m => contiguous m && (count_one_bits m <=? 30)) (m :: rest) = true ->
  contiguous m = true /\ count_one_bits m <= 30
  /\ forallb (fun m => contiguous m && (count_one_bits m <=? 30)) rest = true.
Proof.
  cbn [forallb]. intros H. apply andb_prop in H as [H Hrest].
  apply andb_prop in H as [Hc Hn]. apply Z.leb_le in Hn. auto.
Qed.

Lemma concat_pieces_range masks p :
  forallb (fun m => contiguous m && (count_one_bits m <=? 30)) masks = true ->
  0 <= p ->
  0 <= concat_pieces masks p < 2 ^ total_bits masks.
Proof.
  intros Hall Hp. induction masks as [|m rest IH].
  - cbn. lia.
  - apply contiguous_of_forallb in Hall as (Hm & Hn & Hrest).
    specialize (IH Hrest). cbn [concat_pieces total_bits fold_right].
    fold (total_bits rest).
    pose proof (piece_range m p Hm Hp) as Hpiece.
    pose proof (total_bits_nonneg rest) as Ht.
    pose proof (count_one_bits_nonneg m) as Hc.
    rewrite Z.shiftl_mul_pow2 by lia. rewrite Z.pow_add_r by lia.
    set (x := shr64 _ _) in *. set (R := concat_pieces rest p) in *.
    set (a := 2 ^ count_one_bits m) in *. set (b := 2 ^ total_bits rest) in *.
    nia.
Qed.

(** The general path of the extraction. *)
Lemma extract_loop_spec p : forall masks acc offset,
  forallb (fun m => contiguous m && (count_one_bits m <=? 30)) masks = true ->
  0 <= p -> 0 <= offset -> offset + total_bits masks <= 64 ->
  0 <= acc < 2 ^ offset ->
  extract_loop masks p acc offset
  = acc + Z.shiftl (concat_pieces masks p) offset.
Proof.
  induction masks as [|m rest IH]; intros acc offset Hall Hp Hoff Htot Hacc.
  - cbn. rewrite Z.shiftl_0_l. lia.
  - apply contiguous_of_forallb in Hall as (Hm & Hn & Hrest).
    cbn [extract_loop concat_pieces total_bits fold_right] in *.
    fold (total_bits rest) in Htot.
    destruct (contiguous_shape m Hm) as (Ho & Hn1 & _ & _ & _).
    pose proof (piece_range m p Hm Hp) as Hpiece.
    pose proof (total_bits_nonneg rest) as Ht.
    pose proof (concat_pieces_range rest p Hrest Hp) as HR.
    set (x := shr64 (Z.land p m) (count_trailing_zero_bits m)) in *.
    set (n := count_one_bits m) in *.
    assert (Hpow : 2 ^ (offset + n) <= 2 ^ 64) by (apply pow2_le_mono; lia).
    assert (Hsplit : 2 ^ (offset + n) = 2 ^ offset * 2 ^ n)
      by (apply Z.pow_add_r; lia).
    assert (Hx : Z.shiftl x offset = x * 2 ^ offset)
      by (apply Z.shiftl_mul_pow2; lia).
    assert (Hpo : 0 < 2 ^ offset) by (apply Z.pow_pos_nonneg; lia).
    assert (Hbound : 0 <= acc + x * 2 ^ offset < 2 ^ (offset + n)).
    { rewrite Hsplit. set (a := 2 ^ offset) in *. set (b := 2 ^ n) in *. nia. }
    rewrite shl64_small by lia. rewrite Hx.
    rewrite (wrap64_small (x * 2 ^ offset)) by nia.
    rewrite (wrap64_small (acc + x * 2 ^ offset)) by lia.
    rewrite (wrap64_small (offset + n)) by lia.
    rewrite IH; try assumption; try lia.
    rewrite !Z.shiftl_mul_pow2 by lia. rewrite Hsplit. ring.
Qed.

(** The general path of the placement undoes the extraction. *)
Lemma place_loop_spec p : forall masks A,
  forallb (fun m => contiguous m && (count_one_bits m <=? 30)) masks = true ->
  0 <= p ->
  place_loop masks (concat_pieces masks p) A
  = (Z.lor A (Z.land p (mask_union masks)), 0).
Proof.
  induction masks as [|m rest IH]; intros A Hall Hp.
  - cbn. rewrite Z.land_0_r, Z.lor_0_r. reflexivity.
  - apply contiguous_of_forallb in Hall as (Hm & Hn & Hrest).
    cbn [place_loop concat_pieces mask_union fold_right pop_least_significant_bits].
    fold (mask_union rest).
    destruct (contiguous_shape m Hm) as (Ho & Hn1 & _ & _ & _).
    pose proof (piece_range m p Hm Hp) as Hpiece.
    pose proof (concat_pieces_range rest p Hrest Hp) as HR.
    pose proof (piece_back m p Hm Hp) as Hback.
    set (x := shr64 (Z.land p m) (count_trailing_zero_bits m)) in *.
    set (n := count_one_bits m) in *.
    set (R := concat_pieces rest p) in *.
    assert (Hpn : 0 < 2 ^ n) by (apply Z.pow_pos_nonneg; lia).
    rewrite int_low_mask_small by lia.
    rewrite Z.land_ones by lia. rewrite shr64_small by lia.
    rewrite Z.shiftr_div_pow2 by lia. rewrite Z.shiftl_mul_pow2 by lia.
    rewrite Z.mod_add by lia. rewrite Z.mod_small by lia.
    rewrite Z.div_add by lia. rewrite Z.div_small by lia. rewrite Z.add_0_l.
    rewrite Hback. rewrite IH by assumption.
    rewrite Z.land_lor_distr_r, Z.lor_assoc. reflexivity.
Qed.

(** Extracting a field and placing it again keeps the bits under the
    masks, on both paths. *)
Lemma place_extract masks p A :
  field_ok masks = true -> 0 <= p < 2 ^ 64 ->
  place masks (extract masks p) A
  = Some (Z.lor A (Z.land p (mask_union masks))).
Proof.
  intros Hok Hp.
  assert (Hloop :
    forallb (fun m => contiguous m && (count_one_bits m <=? 30)) masks = true ->
    total_bits masks <= 64 ->
    (let '(p_addr', r) := place_loop masks (extract_loop masks p 0 0) A in
     if r =? 0 then Some p_addr' else None)
    = Some (Z.lor A (Z.land p (mask_union masks)))).
  { intros Hall Htot.
    rewrite extract_loop_spec; try assumption; try lia; try (cbn; lia).
    rewrite Z.shiftl_0_r, Z.add_0_l.
    rewrite place_loop_spec by (assumption || lia). reflexivity. }
  unfold place, extract, field_ok in *.
  destruct masks as [|m [|m' rest]].
  - apply Hloop; [reflexivity|cbn; lia].
  - rewrite piece_back by (assumption || lia).
    cbn [mask_union fold_right]. rewrite Z.lor_0_r. reflexivity.
  - apply andb_prop in Hok as [Hall Htot]. apply Z.leb_le in Htot.
    apply Hloop; assumption.
Qed.

End MaskFacts.
Section BankFacts.
Import Bits DRAM Canonical.

Lemma parity_lxor a b :
  0 <= a -> 0 <= b ->
  count_one_bits (Z.lxor a b) mod 2
  = (count_one_bits a + count_one_bits b) mod 2.
Proof.
  intros Ha Hb.
  apply (parity_lxor_bounded (Z.to_nat (Z.max a b))).
  - rewrite Z2Nat.id by lia.
    pose proof (Z.pow_gt_lin_r 2 (Z.max a b) ltac:(lia) ltac:(lia)). lia.
  - rewrite Z2Nat.id by lia.
    pose proof (Z.pow_gt_lin_r 2 (Z.max a b) ltac:(lia) ltac:(lia)). lia.
Qed.

Lemma count_one_bits_pow2 k : 0 <= k -> count_one_bits (Z.shiftl 1 k) = 1.
Proof.
  intros Hk. rewrite Z.shiftl_1_l. revert k Hk.
  apply natlike_ind; [reflexivity|].
  intros k Hk IH. rewrite Z.pow_succ_r by exact Hk.
  assert (Hpos : 0 < 2 ^ k) by (apply Z.pow_pos_nonneg; lia).
  rewrite count_one_bits_step by lia.
  rewrite Z.odd_mul, Z.div2_div. cbn [Z.odd andb Z.b2z].
  rewrite Z.mul_comm, Z.div_mul by lia. rewrite IH. reflexivity.
Qed.

Lemma one_shl_bit t k : 0 <= t -> 0 <= k -> Z.testbit (Z.shiftl 1 t) k = (k =? t).
Proof.
  intros Ht Hk. rewrite Z.shiftl_spec by exact Hk.
  destruct (Z.eqb_spec k t) as [->|Hne].
  - rewrite Z.sub_diag. reflexivity.
  - destruct (Z.ltb_spec k t).
    + apply Z.testbit_neg_r. lia.
    + replace (k - t) with (Z.succ (k - t - 1)) by lia.
      change 1 with (2 * 0 + 1) at 1. rewrite Z.testbit_odd_succ by lia.
      apply Z.testbit_0_l.
Qed.

Lemma xor_bits_range v m : 0 <= xor_bits v m < 2.
Proof. unfold xor_bits. apply Z.mod_pos_bound. lia. Qed.

(** The bit a parity leaves in the bank at position [i]. *)
Lemma parity_shl_bit x i k :
  0 <= x < 2 -> 0 <= i < 64 -> 0 <= k ->
  Z.testbit (shl64 x i) k = (k =? i) && (x =? 1).
Proof.
  intros Hx Hi Hk. rewrite shl64_small by exact Hi.
  assert (Hx01 : x = 0 \/ x = 1) by lia. destruct Hx01 as [->| ->].
  - rewrite Z.shiftl_0_l. unfold wrap64. rewrite Z.mod_0_l by lia.
    rewrite Z.testbit_0_l. cbn. apply eq_sym, andb_false_r.
  - rewrite wrap64_small.
    + rewrite one_shl_bit by lia. cbn. rewrite andb_true_r. reflexivity.
    + rewrite Z.shiftl_1_l. pose proof (pow2_le_mono i 63 ltac:(lia)).
      assert (0 < 2 ^ i) by (apply Z.pow_pos_nonneg; lia). lia.
Qed.

Lemma bank_loop_low p : forall fns i acc j,
  0 <= j < i -> i + Z.of_nat (length fns) <= 64 ->
  Z.testbit (bank_loop fns i p acc) j = Z.testbit acc j.
Proof.
  induction fns as [|f rest IH]; intros i acc j Hj Hlen; [reflexivity|].
  cbn [bank_loop length] in *. rewrite IH by lia.
  rewrite Z.lor_spec, parity_shl_bit by (try apply xor_bits_range; lia).
  destruct (Z.eqb_spec j i); [lia|]. cbn [andb]. apply orb_false_r.
Qed.

Lemma bank_loop_bit p : forall fns i acc (k : nat) f,
  0 <= i -> i + Z.of_nat (length fns) <= 64 ->
  (forall j, i <= j -> Z.testbit acc j = false) ->
  fns !! k = Some f ->
  Z.testbit (bank_loop fns i p acc) (i + Z.of_nat k) = (xor_bits p f =? 1).
Proof.
  induction fns as [|f0 rest IH]; intros i acc k f Hi Hlen Hacc Hk;
    [discriminate|].
  cbn [bank_loop length] in *. destruct k as [|k].
  - injection Hk as ->. rewrite Z.add_0_r.
    rewrite bank_loop_low by lia.
    rewrite Z.lor_spec, Hacc by lia.
    rewrite parity_shl_bit by (try apply xor_bits_range; lia).
    rewrite Z.eqb_refl. reflexivity.
  - replace (i + Z.of_nat (S k)) with (i + 1 + Z.of_nat k) by lia.
    apply IH; try lia; [|exact Hk].
    intros j Hj. rewrite Z.lor_spec, Hacc by lia.
    rewrite parity_shl_bit by (try apply xor_bits_range; lia).
    destruct (Z.eqb_spec j i); [lia|]. reflexivity.
Qed.

(** Reading bank bit [k] back gives the parity under the [k]-th function. *)
Lemma bank_bit p fns (k : nat) f :
  Z.of_nat (length fns) <= 64 -> fns !! k = Some f ->
  Z.land (shr64 (bank_loop fns 0 p 0) (Z.of_nat k)) 1 = xor_bits p f.
Proof.
  intros Hlen Hk.
  assert (Hlt : (k < length fns)%nat) by (eapply lookup_lt_Some; eauto).
  rewrite shr64_small by lia. rewrite land_one_testbit by lia.
  pose proof (bank_loop_bit p fns 0 0 k f ltac:(lia) ltac:(lia)
                (fun j _ => Z.testbit_0_l j) Hk) as Hbit.
  rewrite Z.add_0_l in Hbit. rewrite Hbit.
  pose proof (xor_bits_range p f).
  destruct (Z.eqb_spec (xor_bits p f) 1) as [->|Hne]; cbn; lia.
Qed.

End BankFacts.

Section Sweep.
Import Bits DRAM Canonical.

Variable L : DRAMLayout.
Variable p : Z.
Hypothesis p_range : 0 <= p < 2 ^ 64.

Let rc := row_col_mask L.
Let not_col_mask := not64 (accumulate (col_masks L)).
Let not_row_mask := not64 (accumulate (row_masks L)).

Lemma land_zero_bits a b k : Z.land a b = 0 -> Z.testbit a k && Z.testbit b k = false.
Proof. intros H. rewrite <- Z.land_spec, H. apply Z.testbit_0_l. Qed.

Lemma ldiff_zero_bits a b k :
  Z.ldiff a b = 0 -> Z.testbit a k = true -> Z.testbit b k = true.
Proof.
  intros H Ha. assert (Hb : Z.testbit (Z.ldiff a b) k = false)
    by (rewrite H; apply Z.testbit_0_l).
  rewrite Z.ldiff_spec, Ha in Hb. destruct (Z.testbit b k); [reflexivity|discriminate].
Qed.

Lemma toggle_mask_nonneg fns : 0 <= toggle_mask L fns.
Proof.
  induction fns as [|f rest IH]; cbn [toggle_mask fold_right]; [lia|].
  fold (toggle_mask L rest). apply Z.lor_nonneg. split; [|exact IH].
  apply Z.shiftl_nonneg. lia.
Qed.

(** One step of the sweep, for the function [f] with toggle bit [t]: with
    the address so far equal to [p] under the masks and the toggle bits
    already visited, the step brings in the toggle bit of [f]. *)
Lemma sweep_step f t done later bank_bit :
  0 <= f < 2 ^ 64 -> 0 <= t <= 30 -> 0 <= done ->
  Z.testbit f t = true ->
  Z.testbit rc t = false ->
  Z.testbit done t = false ->
  Z.land f later = 0 ->
  Z.ldiff p (Z.lor rc (Z.lor done (Z.lor (Z.shiftl 1 t) later))) = 0 ->
  bank_bit = xor_bits p f ->
  (if xor_bits (Z.land p (Z.lor rc done)) f =? bank_bit
   then Z.land p (Z.lor rc done)
   else Z.lxor (Z.land p (Z.lor rc done)) (int_one_shl t))
  = Z.land p (Z.lor rc (Z.lor done (Z.shiftl 1 t))).
Proof.
  intros Hf Ht Hdone Hft Hrct Hdt Hlater Hcanon ->.
  set (A := Z.land p (Z.lor rc done)).
  set (b := if Z.testbit p t then Z.shiftl 1 t else 0).
  assert (Hb0 : 0 <= b).
  { subst b. destruct (Z.testbit p t); [apply Z.shiftl_nonneg|]; lia. }
  assert (HA0 : 0 <= A).
  { subst A. apply Z.land_nonneg. left. lia. }
  assert (Hsplit : Z.land p f = Z.lxor (Z.land A f) b).
  { apply Z.bits_inj'. intros k Hk. subst A b.
    rewrite Z.lxor_spec, !Z.land_spec, !Z.lor_spec.
    assert (Hbk : Z.testbit (if Z.testbit p t then Z.shiftl 1 t else 0) k
                  = Z.testbit p t && (k =? t)).
    { destruct (Z.testbit p t); [rewrite one_shl_bit by lia; reflexivity|].
      apply Z.testbit_0_l. }
    rewrite Hbk.
    destruct (Z.eqb_spec k t) as [->|Hne].
    - rewrite Hft, Hrct, Hdt. destruct (Z.testbit p t); reflexivity.
    - rewrite andb_false_r, xorb_false_r.
      destruct (Z.testbit p k) eqn:Hpk; [|reflexivity].
      destruct (Z.testbit f k) eqn:Hfk; [|rewrite !andb_false_r; reflexivity].
      pose proof (ldiff_zero_bits _ _ k Hcanon Hpk) as Hin.
      rewrite !Z.lor_spec, one_shl_bit in Hin by lia.
      pose proof (land_zero_bits f later k Hlater) as Hl. rewrite Hfk in Hl.
      cbn [andb] in Hl. rewrite Hl in Hin.
      destruct (Z.eqb_spec k t); [contradiction|].
      cbn [orb] in Hin. rewrite orb_false_r in Hin. rewrite Hin. reflexivity. }
  assert (Hpar : xor_bits p f
                 = (xor_bits A f + (if Z.testbit p t then 1 else 0)) mod 2).
  { unfold xor_bits. rewrite Hsplit.
    rewrite parity_lxor by (try apply Z.land_nonneg; auto).
    assert (Hcb : count_one_bits b = if Z.testbit p t then 1 else 0).
    { subst b. destruct (Z.testbit p t); [apply count_one_bits_pow2; lia|].
      reflexivity. }
    rewrite Hcb. rewrite Z.add_mod_idemp_l by lia. reflexivity. }
  pose proof (xor_bits_range A f) as HxA.
  destruct (Z.testbit p t) eqn:Hpt.
  - assert (Hne : xor_bits A f <> xor_bits p f).
    { rewrite Hpar. clear Hpar. revert HxA.
      generalize (xor_bits A f). intros x Hx Heq.
      Z.div_mod_to_equations. lia. }
    apply Z.eqb_neq in Hne. rewrite Hne.
    rewrite int_one_shl_small by lia.
    apply Z.bits_inj'. intros k Hk. subst A.
    rewrite Z.lxor_spec, !Z.land_spec, !Z.lor_spec, one_shl_bit by lia.
    destruct (Z.eqb_spec k t) as [->|Hkt].
    + rewrite Hpt, Hrct, Hdt. reflexivity.
    + rewrite xorb_false_r, orb_false_r. reflexivity.
  - assert (Heq : xor_bits A f = xor_bits p f).
    { rewrite Hpar, Z.add_0_r. symmetry. apply Z.mod_small. lia. }
    apply Z.eqb_eq in Heq. rewrite Heq.
    apply Z.bits_inj'. intros k Hk. subst A.
    rewrite !Z.land_spec, !Z.lor_spec, one_shl_bit by lia.
    destruct (Z.eqb_spec k t) as [->|Hkt].
    + rewrite Hpt. reflexivity.
    + rewrite orb_false_r. reflexivity.
Qed.

(** The sweep over the remaining functions completes the address. *)
Lemma sweep_spec bank : forall fns i done,
  0 <= i -> i + Z.of_nat (length fns) <= 64 ->
  sweep_ready L fns ->
  (forall (k : nat) f, fns !! k = Some f ->
     Z.land (shr64 bank (i + Z.of_nat k)) 1 = xor_bits p f) ->
  0 <= done ->
  Z.land done (toggle_mask L fns) = 0 ->
  Z.ldiff p (Z.lor rc (Z.lor done (toggle_mask L fns))) = 0 ->
  parity_sweep fns i bank not_col_mask not_row_mask (Z.land p (Z.lor rc done))
  = Z.land p (Z.lor rc (Z.lor done (toggle_mask L fns))).
Proof.
  induction fns as [|f rest IH];
    intros i done Hi Hlen Hready Hbank Hdone Hdisj Hcanon.
  - cbn. rewrite Z.lor_0_r. reflexivity.
  - cbn [parity_sweep toggle_mask fold_right length sweep_ready] in *.
    fold (toggle_mask L rest) in *.
    destruct Hready as (Hf & Hfree & Ht30 & Hrct & Hlater & Hrest).
    fold (free_bits L f). fold (toggle_bit L f).
    set (t := toggle_bit L f) in *.
    assert (Ht0 : 0 <= t) by apply ctz_nonneg.
    assert (Hft : Z.testbit f t = true).
    { pose proof (ctz_testbit (free_bits L f) Hfree) as Hb.
      fold (toggle_bit L f) in Hb. fold t in Hb.
      unfold free_bits in Hb. rewrite !Z.land_spec in Hb.
      destruct (Z.testbit f t); [reflexivity|discriminate]. }
    assert (Hdt : Z.testbit done t = false).
    { pose proof (land_zero_bits _ _ t Hdisj) as Hb.
      rewrite Z.lor_spec, one_shl_bit, Z.eqb_refl in Hb by lia.
      cbn [orb] in Hb. rewrite andb_true_r in Hb. exact Hb. }
    pose proof (Hbank 0%nat f eq_refl) as Hb0. rewrite Z.add_0_r in Hb0.
    pose proof (sweep_step f t done (toggle_mask L rest)
                  (Z.land (shr64 bank i) 1) Hf ltac:(lia) Hdone Hft Hrct Hdt
                  Hlater Hcanon Hb0) as Hstep.
    assert (Hnext :
      parity_sweep rest (i + 1) bank not_col_mask not_row_mask
        (Z.land p (Z.lor rc (Z.lor done (Z.shiftl 1 t))))
      = Z.land p (Z.lor rc (Z.lor (Z.lor done (Z.shiftl 1 t))
                              (toggle_mask L rest)))).
    { apply IH; try lia; try assumption.
      - intros k g Hk. replace (i + 1 + Z.of_nat k) with (i + Z.of_nat (S k)) by lia.
        apply Hbank. exact Hk.
      - apply Z.lor_nonneg. split; [lia|]. apply Z.shiftl_nonneg. lia.
      - apply Z.bits_inj'. intros k Hk.
        rewrite Z.land_spec, Z.lor_spec, one_shl_bit, Z.testbit_0_l by lia.
        pose proof (land_zero_bits _ _ k Hdisj) as Hd.
        rewrite Z.lor_spec in Hd.
        pose proof (land_zero_bits _ _ k Hlater) as Hl.
        destruct (Z.eqb_spec k t) as [->|Hkt].
        + rewrite Hft in Hl. cbn [andb] in Hl. rewrite Hl. apply andb_false_r.
        + rewrite orb_false_r.
          destruct (Z.testbit done k); [|reflexivity].
          cbn [andb] in *. apply orb_false_elim in Hd as [_ Hd]. exact Hd.
      - rewrite <- Z.lor_assoc. exact Hcanon. }
    rewrite <- Z.lor_assoc in Hnext.
    destruct (xor_bits (Z.land p (Z.lor rc done)) f =? Z.land (shr64 bank i) 1);
      rewrite <- Hstep in Hnext; exact Hnext.
Qed.

End Sweep.

Section RoundTrip.
Import Bits DRAM Canonical.

Lemma land_of_ldiff_zero a m : Z.ldiff a m = 0 -> Z.land a m = a.
Proof.
  intros H. apply Z.bits_inj'. intros k Hk. rewrite Z.land_spec.
  destruct (Z.testbit a k) eqn:Ha; [|reflexivity].
  rewrite (ldiff_zero_bits a m k H Ha). reflexivity.
Qed.

(** The round trip for any layout the sweep is ready for. *)
Lemma round_trip_ready L p :
  field_ok (row_masks L) = true -> field_ok (col_masks L) = true ->
  Z.of_nat (length (h_fns L)) <= 64 ->
  sweep_ready L (h_fns L) ->
  canonical L p = true ->
  phys L (DRAMAddr_of_phys L p) = Some p.
Proof.
  intros Hrows Hcols Hlen Hready Hcanon.
  unfold canonical in Hcanon.
  apply andb_prop in Hcanon as [Hr Hc]. apply andb_prop in Hr as [Hp0 Hp1].
  apply Z.leb_le in Hp0. apply Z.ltb_lt in Hp1. apply Z.eqb_eq in Hc.
  unfold phys, DRAMAddr_of_phys. cbn [row col bank].
  unfold get_dram_row, get_dram_col.
  rewrite (place_extract (row_masks L) p 0 Hrows) by lia. cbn [mbind option_bind].
  rewrite (place_extract (col_masks L) p _ Hcols) by lia. cbn [mbind option_bind].
  f_equal. rewrite Z.lor_0_l, <- Z.land_lor_distr_r.
  fold (row_col_mask L).
  rewrite <- (Z.lor_0_r (row_col_mask L)) at 1.
  rewrite (sweep_spec L p ltac:(lia) (bank_loop (h_fns L) 0 p 0) (h_fns L) 0 0);
    [ | lia | lia | exact Hready | | lia | apply Z.land_0_l | ].
  - rewrite Z.lor_0_l. apply land_of_ldiff_zero. exact Hc.
  - intros k f Hk. rewrite Z.add_0_l. apply bank_bit; assumption.
  - rewrite Z.lor_0_l. exact Hc.
Qed.

Lemma toggles_ready L : forall fns,
  forallb (fun f => Z.land f (row_col_mask L) =? 0) fns = true ->
  toggles_ok L fns = true ->
  sweep_ready L fns.
Proof.
  induction fns as [|f rest IH]; intros Hshare Hok; [exact I|].
  cbn [forallb toggles_ok sweep_ready] in *.
  apply andb_prop in Hshare as [Hf Hshare]. apply Z.eqb_eq in Hf.
  apply andb_prop in Hok as [Hok Hrest]. apply andb_prop in Hok as [Hok Hlater].
  apply andb_prop in Hok as [Hok Ht]. apply andb_prop in Hok as [Hok Hfree].
  apply andb_prop in Hok as [Hf0 Hf1].
  apply Z.leb_le in Hf0, Ht. apply Z.ltb_lt in Hf1. apply Z.eqb_eq in Hlater.
  apply negb_true_iff, Z.eqb_neq in Hfree.
  assert (Hfree0 : 0 < free_bits L f).
  { assert (0 <= free_bits L f); [|lia].
    unfold free_bits. apply Z.land_nonneg. left. apply Z.land_nonneg. left. lia. }
  repeat split; try assumption; try lia.
  - pose proof (ctz_testbit (free_bits L f) Hfree0) as Hb.
    fold (toggle_bit L f) in Hb. unfold free_bits in Hb.
    rewrite !Z.land_spec in Hb.
    pose proof (land_zero_bits _ _ (toggle_bit L f) Hf) as Hz.
    destruct (Z.testbit f (toggle_bit L f)); [exact Hz|discriminate].
  - apply IH; assumption.
Qed.

(** C1, as stated, fails: in a layout whose one bank function 0x6000 shares
    no bit with the masks, the address 0x4000 has only a bank-function bit
    set, yet it comes back as 0x2000. *)
Lemma dram_round_trip_counterexample :
  no_shared_bits two_bit_layout = true
  /\ Z.ldiff 0x4000 (Z.lor (row_col_mask two_bit_layout)
                       (mask_union (h_fns two_bit_layout))) = 0
  /\ phys two_bit_layout (DRAMAddr_of_phys two_bit_layout 0x4000) = Some 0x2000
  /\ phys two_bit_layout (DRAMAddr_of_phys two_bit_layout 0x4000) <> Some 0x4000.
Proof.
  split; [reflexivity|]. split; [reflexivity|]. split; [reflexivity|].
  vm_compute. discriminate.
Qed.

(** C1, amended: in a layout with usable row and column fields whose bank
    functions share no bit with a row or column mask, each have their lowest
    bit outside the masks below bit 31 and contain no such bit of a later
    function, every 64-bit physical address whose set bits lie within the row
    masks, the column masks or those lowest bits of the bank functions is
    mapped to a DRAM address and back to itself, without a failed
    assertion. *)
Theorem dram_round_trip L p :
  layout_ok L = true ->
  no_shared_bits L = true ->
  canonical L p = true ->
  phys L (DRAMAddr_of_phys L p) = Some p.
Proof.
  intros Hok Hshare Hcanon. unfold layout_ok in Hok.
  apply andb_prop in Hok as [Hok Htoggles]. apply andb_prop in Hok as [Hok Hlen].
  apply andb_prop in Hok as [Hrows Hcols]. apply Z.leb_le in Hlen.
  apply round_trip_ready; try assumption.
  apply toggles_ready; assumption.
Qed.

Lemma dram_round_trip_witness :
  phys clear_layout (DRAMAddr_of_phys clear_layout 0x12346abc) = Some 0x12346abc.
Proof.
  apply (dram_round_trip clear_layout 0x12346abc); vm_compute; reflexivity.
Defined.

(** The default layout lets its bank functions share bits with the masks;
    its canonical addresses make the round trip all the same. *)
Lemma default_layout_round_trip p :
  canonical default_layout p = true ->
  phys default_layout (DRAMAddr_of_phys default_layout p) = Some p.
Proof.
  apply round_trip_ready.
  - reflexivity.
  - reflexivity.
  - cbn. lia.
  - cbn [sweep_ready default_layout h_fns].
    repeat split; vm_compute; congruence.
Qed.

End RoundTrip.
(** ** The scan as a whole *)

Section ScanTotals.
Import Bits PageFinder Flipper Scan ScanResult.

Lemma check_word_length base off init w :
  0 <= w < 2 ^ 64 -> 0 <= init < 2 ^ 64 ->
  Z.of_nat (length (check_word base off init w)) = count_one_bits (Z.lxor w init).
Proof.
  intros Hw Hi. rewrite (check_word_events base off init w Hw Hi).
  rewrite length_map. unfold differing_bits.
  pose proof (lxor_range w init Hw Hi) as Hx.
  rewrite (count_differing 64 (Z.lxor w init) 0); try lia.
  - rewrite Z.shiftr_0_r. reflexivity.
  - rewrite Z.shiftr_0_r. change (2 ^ Z.of_nat 64) with (2 ^ 64). lia.
Qed.

Lemma word_loop_length read (n : nat) : forall addr victim p init,
  (forall a, 0 <= read a < 2 ^ 64) -> 0 <= init < 2 ^ 64 ->
  Z.of_nat (length (word_loop read n addr victim p init))
  = row_distance read n addr init.
Proof.
  induction n as [|n IH]; intros addr victim p init Hread Hi; [reflexivity|].
  cbn [word_loop row_distance]. rewrite length_app, Nat2Z.inj_add.
  rewrite check_word_length by auto. rewrite IH by auto. reflexivity.
Qed.

Lemma victim_loop_length read : forall ps vs init,
  (forall a, 0 <= read a < 2 ^ 64) -> 0 <= init < 2 ^ 64 ->
  length vs = length ps ->
  Z.of_nat (length (victim_loop read ps vs init)) = rows_distance read vs init.
Proof.
  induction ps as [|p ps IH]; intros vs init Hread Hi Hlen.
  - destruct vs; [reflexivity|discriminate].
  - destruct vs as [|v vs]; [discriminate|].
    cbn [victim_loop rows_distance]. rewrite length_app, Nat2Z.inj_add.
    rewrite word_loop_length by auto. rewrite IH by (auto; cbn in Hlen; lia).
    reflexivity.
Qed.

Lemma row_distance_nonneg read (n : nat) : forall addr init,
  0 <= row_distance read n addr init.
Proof.
  induction n as [|n IH]; intros addr init; cbn [row_distance]; [lia|].
  pose proof (count_one_bits_nonneg (Z.lxor (read addr) init)).
  specialize (IH (addr + 8) init). lia.
Qed.

(** X1: the number of flips one scan counts is the number of bits in which
    the victim rows differ from the template, summed over every 64-bit word
    of every victim row. *)
Theorem scan_counts_hamming_distance read flipper victim_init :
  (forall addr, 0 <= read addr < 2 ^ 64) ->
  0 <= victim_init < 2 ^ 64 ->
  length (virt_victims flipper) = length (victims (phys flipper)) ->
  Z.of_nat (length (check_flips read flipper victim_init))
  = rows_distance read (virt_victims flipper) victim_init.
Proof.
  intros Hread Hi Hlen. unfold check_flips.
  apply victim_loop_length; assumption.
Qed.

Lemma scan_counts_hamming_distance_witness :
  Z.of_nat (length (check_flips one_flip_memory one_victim_flipper 0))
  = rows_distance one_flip_memory (virt_victims one_victim_flipper) 0.
Proof.
  apply (scan_counts_hamming_distance one_flip_memory one_victim_flipper 0).
  - intros addr. unfold one_flip_memory. destruct (addr =? 0x7f0000000000); lia.
  - lia.
  - reflexivity.
Defined.

Lemma row_distance_zero read (n : nat) : forall addr init,
  (forall a, 0 <= read a < 2 ^ 64) -> 0 <= init < 2 ^ 64 ->
  row_distance read n addr init = 0
  <-> (forall k : nat, (k < n)%nat -> read (addr + 8 * Z.of_nat k) = init).
Proof.
  induction n as [|n IH]; intros addr init Hread Hi; cbn [row_distance].
  - split; [intros _ k Hk; lia|reflexivity].
  - pose proof (count_one_bits_nonneg (Z.lxor (read addr) init)) as Hc.
    pose proof (row_distance_nonneg read n (addr + 8) init) as Hr.
    pose proof (lxor_range _ _ (Hread addr) Hi) as Hx.
    specialize (IH (addr + 8) init Hread Hi).
    split.
    + intros Hsum k Hk.
      assert (Hc0 : count_one_bits (Z.lxor (read addr) init) = 0) by lia.
      assert (Hr0 : row_distance read n (addr + 8) init = 0) by lia.
      apply count_one_bits_zero_iff in Hc0; [|lia].
      apply Z.lxor_eq in Hc0.
      destruct k as [|k].
      * rewrite Z.mul_0_r, Z.add_0_r. exact Hc0.
      * replace (addr + 8 * Z.of_nat (S k)) with (addr + 8 + 8 * Z.of_nat k) by lia.
        apply IH; [exact Hr0|lia].
    + intros Hall.
      assert (H0 : read addr = init).
      { specialize (Hall 0%nat). rewrite Z.mul_0_r, Z.add_0_r in Hall.
        apply Hall. lia. }
      rewrite H0, Z.lxor_nilpotent. cbn [count_one_bits]. rewrite Z.add_0_l.
      apply IH. intros k Hk.
      replace (addr + 8 + 8 * Z.of_nat k) with (addr + 8 * Z.of_nat (S k)) by lia.
      apply Hall. lia.
Qed.

Lemma rows_distance_nonneg read : forall vs init, 0 <= rows_distance read vs init.
Proof.
  induction vs as [|v vs IH]; intros init; cbn [rows_distance]; [lia|].
  pose proof (row_distance_nonneg read (Z.to_nat (row_size / 8)) v init).
  specialize (IH init). lia.
Qed.

Lemma rows_distance_zero read : forall vs init,
  (forall a, 0 <= read a < 2 ^ 64) -> 0 <= init < 2 ^ 64 ->
  rows_distance read vs init = 0
  <-> (forall (i : nat) v (k : nat),
         vs !! i = Some v -> (k < 1024)%nat -> read (v + 8 * Z.of_nat k) = init).
Proof.
  induction vs as [|v vs IH]; intros init Hread Hi; cbn [rows_distance].
  - split; [intros _ i v k Hv; destruct i; discriminate|reflexivity].
  - pose proof (row_distance_nonneg read (Z.to_nat (row_size / 8)) v init) as Hr.
    pose proof (rows_distance_nonneg read vs init) as Hrs.
    pose proof (row_distance_zero read (Z.to_nat (row_size / 8)) v init Hread Hi)
      as Hrow.
    change (Z.to_nat (row_size / 8)) with 1024%nat in *.
    specialize (IH init Hread Hi). split.
    + intros Hsum i v' k Hv Hk. destruct i as [|i].
      * injection Hv as <-. apply Hrow; [lia|exact Hk].
      * apply (proj1 IH) with (i := i); [lia|exact Hv|exact Hk].
    + intros Hall.
      assert (H1 : row_distance read 1024 v init = 0).
      { apply Hrow. intros k Hk. apply (Hall 0%nat); [reflexivity|exact Hk]. }
      assert (H2 : rows_distance read vs init = 0).
      { apply IH. intros i v' k Hv Hk. apply (Hall (S i)); assumption. }
      lia.
Qed.

Lemma rows_distance_bound read : forall vs init,
  (forall a, 0 <= read a < 2 ^ 64) -> 0 <= init < 2 ^ 64 ->
  rows_distance read vs init <= 65536 * Z.of_nat (length vs).
Proof.
  intros vs init Hread Hi.
  assert (Hrow : forall (n : nat) addr,
             row_distance read n addr init <= 64 * Z.of_nat n).
  { induction n as [|n IH]; intros addr; cbn [row_distance]; [lia|].
    specialize (IH (addr + 8)).
    pose proof (lxor_range _ _ (Hread addr) Hi) as Hx.
    assert (Hc : count_one_bits (Z.lxor (read addr) init) <= 64).
    { rewrite <- (Z.shiftr_0_r (Z.lxor (read addr) init)).
      rewrite <- (count_differing 64 (Z.lxor (read addr) init) 0);
        [|lia|lia|rewrite Z.shiftr_0_r; change (2 ^ Z.of_nat 64) with (2 ^ 64); lia].
      pose proof (List.filter_length_le (Z.testbit (Z.lxor (read addr) init))
                    (seqZ 0 (Z.of_nat 64))) as Hle.
      rewrite length_seqZ in Hle. lia. }
    lia. }
  induction vs as [|v vs IH]; cbn [rows_distance length]; [lia|].
  specialize (Hrow (Z.to_nat (row_size / 8)) v).
  change (Z.to_nat (row_size / 8)) with 1024%nat in *. lia.
Qed.

(** X2: [hammer_and_check] returns false exactly when, after hammering,
    every 64-bit word of every victim row still holds the template. *)
Theorem no_flip_iff_rows_intact read flipper victim_init :
  (forall addr, 0 <= read addr < 2 ^ 64) ->
  0 <= victim_init < 2 ^ 64 ->
  length (virt_victims flipper) = length (victims (phys flipper)) ->
  Z.of_nat (length (victims (phys flipper))) < 2 ^ 47 ->
  hammer_and_check_result read flipper victim_init = false
  <-> (forall (i : nat) victim (k : nat),
         virt_victims flipper !! i = Some victim -> (k < 1024)%nat ->
         read (victim + 8 * Z.of_nat k) = victim_init).
Proof.
  intros Hread Hi Hlen Hfew.
  unfold hammer_and_check_result, bitflips, check_flips.
  rewrite (victim_loop_length read _ _ _ Hread Hi Hlen).
  pose proof (rows_distance_nonneg read (virt_victims flipper) victim_init) as H0.
  pose proof (rows_distance_bound read (virt_victims flipper) victim_init
                Hread Hi) as Hb.
  rewrite wrap64_small by lia.
  rewrite <- (rows_distance_zero read _ _ Hread Hi).
  rewrite Z.ltb_ge. lia.
Qed.

Lemma no_flip_iff_rows_intact_witness :
  hammer_and_check_result (fun _ => 0) one_victim_flipper 0 = false
  <-> (forall (i : nat) victim (k : nat),
         virt_victims one_victim_flipper !! i = Some victim -> (k < 1024)%nat ->
         (fun _ : Z => 0) (victim + 8 * Z.of_nat k) = 0).
Proof.
  apply (no_flip_iff_rows_intact (fun _ => 0) one_victim_flipper 0).
  - intros addr. lia.
  - lia.
  - reflexivity.
  - vm_compute. reflexivity.
Defined.

(** X3: the scan misses nothing: for every victim row, every 64-bit word of
    it and every position at which the word differs from the template, the
    scan reports the event of that position. *)
Theorem every_flipped_bit_reported read flipper victim_init
    (i : nat) victim_row_phys victim (k : nat) bit :
  (forall addr, 0 <= read addr < 2 ^ 64) ->
  0 <= victim_init < 2 ^ 64 ->
  victims (phys flipper) !! i = Some victim_row_phys ->
  virt_victims flipper !! i = Some victim ->
  (k < 1024)%nat ->
  0 <= bit < 64 ->
  Z.testbit (read (victim + 8 * Z.of_nat k)) bit <> Z.testbit victim_init bit ->
  In (event_at victim_row_phys (8 * Z.of_nat k)
        (read (victim + 8 * Z.of_nat k)) bit)
     (check_flips read flipper victim_init).
Proof.
  intros Hread Hi Hp Hv Hk Hbit Hdiff. unfold check_flips.
  revert i Hp Hv. generalize (virt_victims flipper) as vs.
  induction (victims (phys flipper)) as [|p ps IH]; intros vs i Hp Hv.
  - destruct i; discriminate.
  - destruct vs as [|v vs]; [destruct i; discriminate|].
    cbn [victim_loop]. apply in_or_app. destruct i as [|i].
    + left. injection Hp as ->. injection Hv as ->.
      rewrite word_loop_words. apply in_concat.
      exists (check_word victim_row_phys (8 * Z.of_nat k) victim_init
                (read (victim + 8 * Z.of_nat k))).
      split.
      * apply List.in_map_iff. exists k. split.
        -- replace (victim + 8 * Z.of_nat k - victim) with (8 * Z.of_nat k) by lia.
           rewrite wrap64_small by lia. reflexivity.
        -- apply in_seq. change (Z.to_nat (row_size / 8)) with 1024%nat. lia.
      * rewrite (check_word_events _ _ _ _ (Hread _) Hi).
        apply List.in_map. unfold differing_bits. apply List.filter_In. split.
        -- apply list_elem_of_In, elem_of_seqZ. lia.
        -- rewrite Z.lxor_spec.
           destruct (Z.testbit (read (victim + 8 * Z.of_nat k)) bit),
                    (Z.testbit victim_init bit); try reflexivity; congruence.
    + right. apply (IH vs i); assumption.
Qed.

Lemma every_flipped_bit_reported_witness :
  In (event_at 0x10000 (8 * Z.of_nat 0) (one_flip_memory (0x7f0000000000 + 8 * Z.of_nat 0)) 8)
     (check_flips one_flip_memory one_victim_flipper 0).
Proof.
  apply (every_flipped_bit_reported one_flip_memory one_victim_flipper 0
           0%nat 0x10000 0x7f0000000000 0%nat 8).
  - intros addr. unfold one_flip_memory. destruct (addr =? 0x7f0000000000); lia.
  - lia.
  - reflexivity.
  - reflexivity.
  - lia.
  - lia.
  - vm_compute. discriminate.
Defined.

End ScanTotals.

(** ** Resolving all rows *)

Section FindPagesSuccess.
Import Bits PageFinder Flipper Resolve.

Lemma forallb_present_all finder (l : list Z) :
  forallb (fun j => present finder (l !!! j)) (seq 0 (length l)) = true
  <-> (forall p, p ∈ l -> is_Some (pagemap finder !! wrap32 (p / page_size))).
Proof.
  rewrite forallb_forall. split.
  - intros Hall p Hin. apply list_elem_of_lookup in Hin as [i Hi].
    specialize (Hall i). rewrite (list_lookup_total_correct _ _ _ Hi) in Hall.
    unfold present in Hall. eapply bool_decide_eq_true_1. apply Hall.
    apply in_seq. apply lookup_lt_Some in Hi. lia.
  - intros Hall i Hi. apply in_seq in Hi.
    destruct (lookup_lt_is_Some_2 l i) as [p Hp]; [lia|].
    rewrite (list_lookup_total_correct _ _ _ Hp).
    unfold present. apply bool_decide_eq_true_2. apply Hall.
    apply list_elem_of_lookup. eauto.
Qed.

Lemma resolved_entries finder (l virt virt' : list Z) :
  length virt = length l ->
  length virt' = length virt ->
  (forall j : nat,
     virt' !! j
     = if bool_decide (0 <= j < 0 + length l)%nat
       then resolved finder (l !!! j) <$> virt !! j
       else virt !! j) ->
  (forall p, p ∈ l -> is_Some (pagemap finder !! wrap32 (p / page_size))) ->
  virt' = map (fun q => snd (find_page finder q 0)) l.
Proof.
  intros Hlen Hlen' Hlook Hall. apply list_eq. intros j.
  rewrite Hlook, list_lookup_fmap.
  destruct (l !! j) as [q|] eqn:Eq.
  - pose proof (lookup_lt_Some _ _ _ Eq) as Hj.
    rewrite bool_decide_eq_true_2 by lia.
    destruct (lookup_lt_is_Some_2 virt j) as [old Hold]; [lia|].
    rewrite Hold. cbn. f_equal.
    rewrite (list_lookup_total_correct _ _ _ Eq).
    destruct (Hall q) as [off Hoff]; [apply list_elem_of_lookup; eauto|].
    unfold resolved, find_page. rewrite Hoff. reflexivity.
  - pose proof (lookup_ge_None_1 _ _ Eq) as Hj.
    rewrite bool_decide_eq_false_2 by lia.
    cbn. apply lookup_ge_None_2. lia.
Qed.

(** X4: [find_pages] returns true exactly when every aggressor and victim
    row lies in a page of the page map; both virtual vectors keep their
    lengths; and on success each entry is the virtual address [find_page]
    gives for its row, whatever the entry held before. *)
Theorem find_pages_all_present flipper finder :
  length (virt_aggs flipper) = length (aggs (phys flipper)) ->
  length (virt_victims flipper) = length (victims (phys flipper)) ->
  (snd (find_pages flipper finder) = true
   <-> (forall p, p ∈ aggs (phys flipper) ++ victims (phys flipper) ->
          is_Some (pagemap finder !! wrap32 (p / page_size))))
  /\ length (virt_aggs (fst (find_pages flipper finder)))
     = length (aggs (phys flipper))
  /\ length (virt_victims (fst (find_pages flipper finder)))
     = length (victims (phys flipper))
  /\ (snd (find_pages flipper finder) = true ->
      virt_aggs (fst (find_pages flipper finder))
      = map (fun q => snd (find_page finder q 0)) (aggs (phys flipper))
      /\ virt_victims (fst (find_pages flipper finder))
         = map (fun q => snd (find_page finder q 0)) (victims (phys flipper))).
Proof.
  intros Hla Hlv. unfold find_pages.
  pose proof (resolve_loop_spec finder (aggs (phys flipper))
                (length (aggs (phys flipper))) 0 (virt_aggs flipper) true) as Ha.
  destruct (resolve_loop finder (aggs (phys flipper)) _ 0 (virt_aggs flipper) true)
    as [va fa].
  destruct Ha as (Hlena & Hfa & Hlooka).
  pose proof (resolve_loop_spec finder (victims (phys flipper))
                (length (victims (phys flipper))) 0 (virt_victims flipper) fa) as Hv.
  destruct (resolve_loop finder (victims (phys flipper)) _ 0 (virt_victims flipper) fa)
    as [vv fv].
  destruct Hv as (Hlenv & Hfv & Hlookv).
  cbn [fst snd virt_aggs virt_victims].
  cbn [andb] in Hfa.
  assert (Hiff : fv = true
            <-> (forall p, p ∈ aggs (phys flipper) ++ victims (phys flipper) ->
                   is_Some (pagemap finder !! wrap32 (p / page_size)))).
  { rewrite Hfv, Hfa, andb_true_iff, !forallb_present_all. split.
    - intros [H1 H2] p Hp. apply elem_of_app in Hp as [Hp|Hp]; auto.
    - intros H. split; intros p Hp; apply H; apply elem_of_app; auto. }
  split; [exact Hiff|]. split; [lia|]. split; [lia|].
  intros Hok. pose proof (proj1 Hiff Hok) as Hall. split.
  - apply (resolved_entries finder _ (virt_aggs flipper)); try assumption.
    intros p Hp. apply Hall. apply elem_of_app. auto.
  - apply (resolved_entries finder _ (virt_victims flipper)); try assumption.
    intros p Hp. apply Hall. apply elem_of_app. auto.
Qed.

Lemma find_pages_all_present_witness :
  (snd (find_pages fresh_flipper one_frame_finder) = true
   <-> (forall p, p ∈ aggs (phys fresh_flipper) ++ victims (phys fresh_flipper) ->
          is_Some (pagemap one_frame_finder !! wrap32 (p / page_size))))
  /\ length (virt_aggs (fst (find_pages fresh_flipper one_frame_finder)))
     = length (aggs (phys fresh_flipper))
  /\ length (virt_victims (fst (find_pages fresh_flipper one_frame_finder)))
     = length (victims (phys fresh_flipper))
  /\ (snd (find_pages fresh_flipper one_frame_finder) = true ->
      virt_aggs (fst (find_pages fresh_flipper one_frame_finder))
      = map (fun q => snd (find_page one_frame_finder q 0))
          (aggs (phys fresh_flipper))
      /\ virt_victims (fst (find_pages fresh_flipper one_frame_finder))
         = map (fun q => snd (find_page one_frame_finder q 0))
             (victims (phys fresh_flipper))).
Proof.
  apply (find_pages_all_present fresh_flipper one_frame_finder); reflexivity.
Defined.

End FindPagesSuccess.

(** ** The page map the constructor builds *)

Section PageMapBuilt.
Import Bits PageFinder PageMapBuild.

Variable entry_at : Z -> Z.
Variables mem_start memory_size : Z.

Local Abbreviation E := (region_entry entry_at mem_start).
Local Abbreviation recorded := (PageMapBuild.recorded entry_at mem_start).

Hypothesis mem_range : 0 <= mem_start < 2 ^ 64.
Hypothesis size_nonneg : 0 <= memory_size.
Hypothesis offsets_fit : scanned memory_size <= 2 ^ 32.
Hypothesis frames_fit :
  forall o, 0 <= o < scanned memory_size -> is_page_present (E o) <> 0 ->
            frame_number_from_pagemap (E o) <= 2 ^ 32 - 1.

Lemma frame_number_nonneg e : 0 <= frame_number_from_pagemap e.
Proof. unfold frame_number_from_pagemap. apply Z.land_nonneg. right. vm_compute. discriminate. Qed.

Lemma recorded_skip pm n :
  recorded pm n -> is_page_present (E n) = 0 -> recorded pm (n + 1).
Proof using Type.
  intros Hrec Hn f o. rewrite (Hrec f o). split.
  - intros (Ho & Hp & Hf & Hlast). repeat split; try lia; try assumption.
    intros o' Ho' Hp'. destruct (decide (o' = n)) as [->|Hne]; [congruence|].
    apply Hlast; [lia|exact Hp'].
  - intros (Ho & Hp & Hf & Hlast).
    assert (o <> n) by congruence.
    repeat split; try lia; try assumption.
    intros o' Ho' Hp'. apply Hlast; [lia|exact Hp'].
Qed.

Lemma recorded_insert pm n :
  recorded pm n -> is_page_present (E n) <> 0 -> 0 <= n ->
  recorded (<[frame_number_from_pagemap (E n) := n]> pm) (n + 1).
Proof using Type.
  intros Hrec Hn Hn0 f o.
  destruct (decide (f = frame_number_from_pagemap (E n))) as [->|Hne].
  - rewrite lookup_insert_eq. split.
    + intros [= <-]. repeat split; try lia; try assumption.
    + intros (Ho & Hp & Hf & Hlast).
      destruct (decide (o = n)) as [->|Hon]; [reflexivity|].
      exfalso. apply (Hlast n); [lia|exact Hn|reflexivity].
  - rewrite lookup_insert_ne by congruence. rewrite (Hrec f o). split.
    + intros (Ho & Hp & Hf & Hlast). repeat split; try lia; try assumption.
      intros o' Ho' Hp'. destruct (decide (o' = n)) as [->|Hon]; [congruence|].
      apply Hlast; [lia|exact Hp'].
    + intros (Ho & Hp & Hf & Hlast).
      assert (o <> n) by congruence.
      repeat split; try lia; try assumption.
      intros o' Ho' Hp'. apply Hlast; [lia|exact Hp'].
Qed.

Lemma entry_loop_recorded (len : nat) : forall j pm i,
  0 <= i -> 0 <= j -> i + j + Z.of_nat len <= scanned memory_size ->
  recorded pm (i + j) ->
  exists pm',
    entry_loop (map E (seqZ (i + j) (Z.of_nat len))) i j pm = Some pm'
    /\ recorded pm' (i + j + Z.of_nat len).
Proof using offsets_fit frames_fit.
  induction len as [|len IH]; intros j pm i Hi Hj Hlen Hrec.
  - exists pm. split; [reflexivity|]. rewrite Z.add_0_r. exact Hrec.
  - rewrite seqZ_succ. cbn [map entry_loop].
    replace (i + j + 1) with (i + (j + 1)) by lia.
    replace (i + j + Z.of_nat (S len)) with (i + (j + 1) + Z.of_nat len) by lia.
    destruct (Z.eqb_spec (is_page_present (E (i + j))) 0) as [Hp|Hp].
    + apply IH; try lia.
      replace (i + (j + 1)) with (i + j + 1) by lia.
      apply recorded_skip; assumption.
    + pose proof (frames_fit (i + j) ltac:(lia) Hp) as Hf.
      pose proof (frame_number_nonneg (E (i + j))) as Hf0.
      rewrite (wrap64_small (i + j)) by lia.
      rewrite (proj2 (Z.leb_le _ _) Hf).
      rewrite (proj2 (Z.leb_le (i + j) (2 ^ 32 - 1))) by lia.
      cbn [andb]. rewrite !wrap32_small by lia.
      apply IH; try lia.
      replace (i + (j + 1)) with (i + j + 1) by lia.
      apply recorded_insert; [assumption|assumption|lia].
Qed.

Lemma complete_pread_chunk i :
  0 <= i -> i < 2 ^ 32 ->
  complete_pread entry_at (wrap64 (wrap64 (mem_start / page_size + i) * 8))
  = map E (seqZ (i + 0) (Z.of_nat 128)).
Proof using mem_range.
  intros Hi Hi'. unfold complete_pread.
  assert (Hm : 0 <= mem_start / page_size < 2 ^ 52).
  { unfold page_size. split; [apply Z.div_pos; lia|].
    apply Z.div_lt_upper_bound; lia. }
  rewrite (wrap64_small (mem_start / page_size + i)) by lia.
  rewrite wrap64_small by lia.
  rewrite Z.div_mul by lia.
  change read_pages with (Z.of_nat 128). rewrite Z.add_0_r.
  rewrite <- (fmap_add_seqZ (mem_start / page_size) i).
  rewrite <- list_fmap_compose. reflexivity.
Qed.

Lemma chunk_loop_recorded (n : nat) : forall i pm,
  0 <= i -> i mod 128 = 0 -> i < memory_size / page_size + 128 ->
  memory_size / page_size <= i + 128 * Z.of_nat n ->
  recorded pm i ->
  exists pm',
    chunk_loop (complete_pread entry_at) mem_start (memory_size / page_size)
      n i pm = Some pm'
    /\ recorded pm' (scanned memory_size).
Proof using mem_range size_nonneg offsets_fit frames_fit.
  assert (Hscan : forall i, 0 <= i -> i mod 128 = 0 ->
            i < memory_size / page_size + 128 ->
            (memory_size / page_size <= i -> i = scanned memory_size)
            /\ (i < memory_size / page_size -> i + 128 <= scanned memory_size)).
  { intros i Hi Hmod Hlt. unfold scanned.
    change read_pages with 128. change (128 - 1) with 127.
    generalize dependent (memory_size / page_size). intros pages Hlt.
    split; intros; Z.div_mod_to_equations; lia. }
  induction n as [|n IH]; intros i pm Hi Hmod Hlt Hfuel Hrec.
  - exists pm. split; [reflexivity|].
    rewrite <- (proj1 (Hscan i Hi Hmod Hlt)) by lia. exact Hrec.
  - cbn [chunk_loop]. destruct (Z.ltb_spec i (memory_size / page_size)) as [Hin|Hout].
    + pose proof (proj2 (Hscan i Hi Hmod Hlt) Hin) as Hle.
      rewrite complete_pread_chunk by lia.
      destruct (entry_loop_recorded 128 0 pm i Hi ltac:(lia))
        as (pm' & -> & Hrec').
      { change (Z.of_nat 128) with 128. lia. }
      { rewrite Z.add_0_r. exact Hrec. }
      change read_pages with 128. rewrite wrap64_small by lia.
      apply IH; try lia.
      * rewrite <- Zplus_mod_idemp_l, Hmod. reflexivity.
      * change (Z.of_nat 128) with 128 in Hrec'.
        rewrite Z.add_0_r in Hrec'. exact Hrec'.
    + exists pm. split; [reflexivity|].
      rewrite <- (proj1 (Hscan i Hi Hmod Hlt)) by lia. exact Hrec.
Qed.

Lemma build_pagemap_recorded :
  exists finder,
    build_pagemap (complete_pread entry_at) mem_start memory_size = Some finder
    /\ mem finder = mem_start
    /\ recorded (pagemap finder) (scanned memory_size).
Proof using mem_range size_nonneg offsets_fit frames_fit.
  unfold build_pagemap.
  assert (Hp : 0 <= memory_size / page_size) by (apply Z.div_pos; unfold page_size; lia).
  destruct (chunk_loop_recorded (Z.to_nat (memory_size / page_size / read_pages + 1))
              0 ∅) as (pm & -> & Hrec); try lia.
  - reflexivity.
  - change read_pages with 128.
    assert (0 <= memory_size / page_size / 128) by (apply Z.div_pos; lia).
    rewrite Z2Nat.id by lia.
    generalize dependent (memory_size / page_size). intros pages Hp Hq.
    Z.div_mod_to_equations; lia.
  - intros f o. rewrite lookup_empty. split; [discriminate|]. intros (Ho & _). lia.
  - exists {| mem := mem_start; pagemap := pm |}. auto.
Qed.

End PageMapBuilt.

Section PageMapRoundTrip.
Import Bits PageFinder PageMapBuild.

Lemma shifted_frames_frame idx :
  0 <= idx < 2 ^ 32 -> frame_number_from_pagemap (shifted_frames idx) = idx + 1.
Proof.
  intros H. unfold frame_number_from_pagemap, shifted_frames.
  rewrite Z.land_lor_distr_l.
  change (Z.land (Z.shiftl 1 63) (Z.shiftl 1 55 - 1)) with 0.
  rewrite Z.lor_0_l.
  change (Z.shiftl 1 55 - 1) with (Z.ones 55).
  rewrite Z.land_ones by lia. apply Z.mod_small. lia.
Qed.

Lemma page_of_translated f va :
  0 <= f -> 0 <= va ->
  Z.lor (f * page_size) (Z.land va (page_size - 1)) / page_size = f.
Proof.
  intros Hf Hva. unfold page_size.
  change 4096 with (2 ^ 12) at 3. rewrite <- Z.shiftr_div_pow2 by lia.
  rewrite Z.shiftr_lor.
  change (4096 - 1) with (Z.ones 12). rewrite Z.land_ones by lia.
  rewrite !Z.shiftr_div_pow2 by lia.
  rewrite Z.div_mul by lia.
  rewrite (Z.div_small (va mod 2 ^ 12)) by (apply Z.mod_pos_bound; lia).
  apply Z.lor_0_r.
Qed.

(** X5: the constructor's page map inverts the kernel's translation. When
    all reads of the pagemap file are complete, every frame number of a
    present page fits 32 bits, the looked-at page offsets fit 32 bits and no
    two present pages share a frame, the page map is built, and for every
    present page of the region with a non-zero frame, [get_physical_addr] of
    any address in the page, followed by [find_page], gives back the start
    of that page. *)
Theorem pagemap_inverts_translation entry_at mem_start memory_size :
  0 <= mem_start < 2 ^ 64 ->
  mem_start mod page_size = 0 ->
  0 <= memory_size ->
  scanned memory_size <= 2 ^ 32 ->
  mem_start + scanned memory_size * page_size <= 2 ^ 64 ->
  (forall o, 0 <= o < scanned memory_size ->
     is_page_present (region_entry entry_at mem_start o) <> 0 ->
     frame_number_from_pagemap (region_entry entry_at mem_start o) <= 2 ^ 32 - 1) ->
  (forall o1 o2,
     0 <= o1 < scanned memory_size -> 0 <= o2 < scanned memory_size ->
     is_page_present (region_entry entry_at mem_start o1) <> 0 ->
     is_page_present (region_entry entry_at mem_start o2) <> 0 ->
     frame_number_from_pagemap (region_entry entry_at mem_start o1)
     = frame_number_from_pagemap (region_entry entry_at mem_start o2) ->
     o1 = o2) ->
  exists finder,
    build_pagemap (complete_pread entry_at) mem_start memory_size = Some finder
    /\ forall o b virt_addr,
         0 <= o < scanned memory_size -> 0 <= b < page_size ->
         is_page_present (region_entry entry_at mem_start o) <> 0 ->
         0 < frame_number_from_pagemap (region_entry entry_at mem_start o) ->
         exists phys_addr,
           get_physical_addr (complete_read entry_at)
             (mem_start + o * page_size + b) = Some phys_addr
           /\ find_page finder phys_addr virt_addr
              = (true, mem_start + o * page_size).
Proof.
  intros Hmem Halign Hsize Hfit Hregion Hframes Hinj.
  destruct (build_pagemap_recorded entry_at mem_start memory_size
              Hmem Hsize Hfit Hframes) as (finder & Hbuild & Hstart & Hrec).
  exists finder. split; [exact Hbuild|].
  intros o b virt_addr Ho Hb Hp Hf0.
  pose proof (Hframes o Ho Hp) as Hf32.
  set (f := frame_number_from_pagemap (region_entry entry_at mem_start o)) in *.
  exists (Z.lor (f * page_size) (Z.land (mem_start + o * page_size + b) (page_size - 1))).
  assert (Hidx : (mem_start + o * page_size + b) / page_size
                 = mem_start / page_size + o).
  { unfold page_size in *. Z.div_mod_to_equations. lia. }
  assert (Hm : 0 <= mem_start / page_size < 2 ^ 52).
  { unfold page_size. split; [apply Z.div_pos; lia|].
    apply Z.div_lt_upper_bound; lia. }
  split.
  - unfold get_physical_addr, complete_read. rewrite Hidx.
    rewrite wrap64_small by lia. rewrite Z.div_mul by lia.
    fold (region_entry entry_at mem_start o).
    fold (is_page_present (region_entry entry_at mem_start o)).
    rewrite (proj2 (Z.eqb_neq _ _) Hp).
    fold f. rewrite (proj2 (Z.ltb_lt 0 f) Hf0).
    rewrite wrap64_small by (unfold page_size; lia). reflexivity.
  - unfold find_page. rewrite page_of_translated by (unfold page_size in *; lia).
    rewrite wrap32_small by lia.
    assert (Hlook : pagemap finder !! f = Some o).
    { apply Hrec. split; [exact Ho|]. split; [exact Hp|]. split; [reflexivity|].
      intros o' Ho' Hp' Heq. pose proof (Hinj o' o ltac:(lia) Ho Hp' Hp Heq). lia. }
    rewrite Hlook, Hstart.
    rewrite (wrap64_small (o * page_size)) by (unfold page_size in *; lia).
    rewrite wrap64_small by (unfold page_size in *; lia). reflexivity.
Qed.

Lemma pagemap_inverts_translation_witness :
  exists finder,
    build_pagemap (complete_pread shifted_frames) example_mem example_size
    = Some finder
    /\ forall o b virt_addr,
         0 <= o < scanned example_size -> 0 <= b < page_size ->
         is_page_present (region_entry shifted_frames example_mem o) <> 0 ->
         0 < frame_number_from_pagemap (region_entry shifted_frames example_mem o) ->
         exists phys_addr,
           get_physical_addr (complete_read shifted_frames)
             (example_mem + o * page_size + b) = Some phys_addr
           /\ find_page finder phys_addr virt_addr
              = (true, example_mem + o * page_size).
Proof.
  apply (pagemap_inverts_translation shifted_frames example_mem example_size).
  - vm_compute. split; [discriminate|reflexivity].
  - reflexivity.
  - vm_compute. discriminate.
  - vm_compute. discriminate.
  - vm_compute. discriminate.
  - change (scanned example_size) with 256. intros o Ho _.
    unfold region_entry. change (example_mem / page_size) with 65536.
    rewrite shifted_frames_frame by lia. lia.
  - change (scanned example_size) with 256. intros o1 o2 Ho1 Ho2 _ _.
    unfold region_entry. change (example_mem / page_size) with 65536.
    rewrite !shifted_frames_frame by lia. lia.
Defined.

(** X6: what the page map holds after construction. The constructor reads
    the entries in blocks of 128, so it looks at the page offsets below the
    page count rounded up to a multiple of 128, which may reach past the
    region; a frame is a key exactly when some looked-at page is present in
    that frame, and its value is the last such page offset. *)
Theorem pagemap_records_scanned_pages entry_at mem_start memory_size :
  0 <= mem_start < 2 ^ 64 ->
  0 <= memory_size ->
  scanned memory_size <= 2 ^ 32 ->
  (forall o, 0 <= o < scanned memory_size ->
     is_page_present (region_entry entry_at mem_start o) <> 0 ->
     frame_number_from_pagemap (region_entry entry_at mem_start o) <= 2 ^ 32 - 1) ->
  exists finder,
    build_pagemap (complete_pread entry_at) mem_start memory_size = Some finder
    /\ mem finder = mem_start
    /\ forall frame page_offset,
         pagemap finder !! frame = Some page_offset
         <-> 0 <= page_offset < scanned memory_size
             /\ is_page_present (region_entry entry_at mem_start page_offset) <> 0
             /\ frame_number_from_pagemap
                  (region_entry entry_at mem_start page_offset) = frame
             /\ forall later,
                  page_offset < later < scanned memory_size ->
                  is_page_present (region_entry entry_at mem_start later) <> 0 ->
                  frame_number_from_pagemap
                    (region_entry entry_at mem_start later) <> frame.
Proof.
  intros Hmem Hsize Hfit Hframes.
  destruct (build_pagemap_recorded entry_at mem_start memory_size
              Hmem Hsize Hfit Hframes) as (finder & Hbuild & Hstart & Hrec).
  exists finder. split; [exact Hbuild|]. split; [exact Hstart|]. exact Hrec.
Qed.

Lemma pagemap_records_scanned_pages_witness :
  exists finder,
    build_pagemap (complete_pread shifted_frames) example_mem example_size
    = Some finder
    /\ mem finder = example_mem
    /\ forall frame page_offset,
         pagemap finder !! frame = Some page_offset
         <-> 0 <= page_offset < scanned example_size
             /\ is_page_present (region_entry shifted_frames example_mem page_offset) <> 0
             /\ frame_number_from_pagemap
                  (region_entry shifted_frames example_mem page_offset) = frame
             /\ forall later,
                  page_offset < later < scanned example_size ->
                  is_page_present (region_entry shifted_frames example_mem later) <> 0 ->
                  frame_number_from_pagemap
                    (region_entry shifted_frames example_mem later) <> frame.
Proof.
  apply (pagemap_records_scanned_pages shifted_frames example_mem example_size).
  - vm_compute. split; [discriminate|reflexivity].
  - vm_compute. discriminate.
  - vm_compute. discriminate.
  - change (scanned example_size) with 256. intros o Ho _.
    unfold region_entry. change (example_mem / page_size) with 65536.
    rewrite shifted_frames_frame by lia. lia.
Defined.

End PageMapRoundTrip.

(** ** The generated hammer loop *)

Section MachineCodeFacts.
Import Bits MachineCode.

Lemma byte_loop_length (n : nat) : forall i v, length (byte_loop n i v) = n.
Proof. induction n as [|n IH]; intros i v; cbn; [reflexivity|]. by rewrite IH. Qed.

Lemma byte_loop_value (n : nat) : forall i v,
  0 <= v -> 0 <= i ->
  from_byte_array (byte_loop n i v)
  = Z.shiftr v (i * 8) mod 2 ^ (8 * Z.of_nat n).
Proof.
  induction n as [|n IH]; intros i v Hv Hi.
  - cbn [byte_loop from_byte_array]. rewrite Z.mul_0_r, Z.pow_0_r, Z.mod_1_r.
    reflexivity.
  - cbn [byte_loop from_byte_array]. rewrite IH by lia.
    change 255 with (Z.ones 8). rewrite Z.land_ones by lia.
    replace ((i + 1) * 8) with (i * 8 + 8) by lia.
    rewrite <- Z.shiftr_shiftr by lia.
    rewrite (Z.shiftr_div_pow2 (Z.shiftr v (i * 8)) 8) by lia.
    replace (8 * Z.of_nat (S n)) with (8 + 8 * Z.of_nat n) by lia.
    rewrite Z.pow_add_r by lia.
    change (2 ^ 8) with 256.
    assert (Hpow : 0 < 2 ^ (8 * Z.of_nat n)) by (apply Z.pow_pos_nonneg; lia).
    rewrite (Z.rem_mul_r (Z.shiftr v (i * 8)) 256 (2 ^ (8 * Z.of_nat n))) by lia.
    reflexivity.
Qed.

Lemma byte_loop_bytes (n : nat) : forall i v,
  Forall (fun b => 0 <= b < 256) (byte_loop n i v).
Proof.
  induction n as [|n IH]; intros i v; cbn [byte_loop]; constructor; [|apply IH].
  change 255 with (Z.ones 8). rewrite Z.land_ones by lia.
  apply Z.mod_pos_bound. lia.
Qed.

Lemma agg_loop_blocks anf : forall virt_aggs function,
  agg_loop virt_aggs anf function
  = function
    ++ List.concat
         (map (fun agg => mov_agg_addr ++ to_byte_array 8 agg ++ anf) virt_aggs).
Proof.
  induction virt_aggs as [|agg rest IH]; intros function; cbn [agg_loop map List.concat].
  - by rewrite app_nil_r.
  - rewrite IH, <- !app_assoc. reflexivity.
Qed.

Lemma bytes_at_middle (pre mid post : list Z) from (n : nat) :
  from = Z.of_nat (length pre) -> n = length mid ->
  bytes_at (pre ++ mid ++ post) from n = mid.
Proof.
  intros -> ->. unfold bytes_at. rewrite Nat2Z.id.
  rewrite drop_app_length. apply take_app_length.
Qed.

Lemma concat_blocks_length (L : nat) : forall blocks : list (list Z),
  Forall (fun b => length b = L) blocks ->
  length (List.concat blocks) = (length blocks * L)%nat.
Proof.
  induction blocks as [|b bs IH]; intros HF; [reflexivity|].
  inversion HF as [|? ? Hb Hbs]; subst.
  cbn [List.concat length]. rewrite length_app, IH by assumption. lia.
Qed.

Lemma concat_split (blocks : list (list Z)) (k : nat) b :
  blocks !! k = Some b ->
  List.concat blocks
  = List.concat (take k blocks) ++ b ++ List.concat (drop (S k) blocks).
Proof.
  intros Hk. rewrite <- (take_drop_middle blocks k b Hk) at 1.
  rewrite concat_app. reflexivity.
Qed.

Lemma access_nop_flush_length clflushopt nop_count :
  0 <= nop_count ->
  Z.of_nat (length (access_nop_flush clflushopt nop_count))
  = 3 + nop_count + Z.of_nat (length (flush_agg clflushopt)).
Proof.
  intros H. unfold access_nop_flush.
  rewrite !length_app, length_replicate. cbn [hammer_agg length]. lia.
Qed.

Lemma flush_agg_length clflushopt :
  3 <= Z.of_nat (length (flush_agg clflushopt)) <= 4.
Proof. destruct clflushopt; cbn; lia. Qed.

Lemma loop_size_value clflushopt nop_count :
  0 <= nop_count < 2 ^ 31 ->
  loop_size clflushopt nop_count
  = 13 + nop_count + Z.of_nat (length (flush_agg clflushopt)).
Proof.
  intros H. unfold loop_size. rewrite access_nop_flush_length by lia.
  pose proof (flush_agg_length clflushopt).
  cbn [mov_agg_addr length]. rewrite wrap32_small by lia. lia.
Qed.

(** The shape of the whole vector. *)
Lemma machine_code_shape clflushopt hammer_count nop_count aggressor_rows virt_aggs :
  machine_code clflushopt hammer_count nop_count aggressor_rows virt_aggs
  = (function_start ++ to_byte_array 4 (wrap32 hammer_count))
    ++ List.concat
         (map (fun agg => mov_agg_addr ++ to_byte_array 8 agg
                          ++ access_nop_flush clflushopt nop_count) virt_aggs)
    ++ (func_end_start
        ++ to_byte_array 4 (jump_offset clflushopt nop_count aggressor_rows)
        ++ func_end_end).
Proof.
  unfold machine_code. rewrite agg_loop_blocks, <- !app_assoc. reflexivity.
Qed.

Lemma blocks_length clflushopt nop_count (virt_aggs : list Z) :
  0 <= nop_count < 2 ^ 31 ->
  Forall (fun b => length b = Z.to_nat (loop_size clflushopt nop_count))
    (map (fun agg => mov_agg_addr ++ to_byte_array 8 agg
                     ++ access_nop_flush clflushopt nop_count) virt_aggs).
Proof.
  intros H. apply Forall_fmap, Forall_forall. intros agg _. unfold compose.
  rewrite !length_app. unfold to_byte_array. rewrite byte_loop_length.
  rewrite loop_size_value by lia.
  pose proof (access_nop_flush_length clflushopt nop_count ltac:(lia)).
  pose proof (flush_agg_length clflushopt).
  cbn [mov_agg_addr length]. lia.
Qed.

Lemma machine_code_length clflushopt hammer_count nop_count aggressor_rows virt_aggs :
  0 <= nop_count < 2 ^ 31 ->
  Z.of_nat (length (machine_code clflushopt hammer_count nop_count
                      aggressor_rows virt_aggs))
  = 15 + Z.of_nat (length virt_aggs) * loop_size clflushopt nop_count + 14.
Proof.
  intros H. rewrite machine_code_shape, !length_app.
  rewrite (concat_blocks_length _ _ (blocks_length clflushopt nop_count virt_aggs H)).
  rewrite length_map. unfold to_byte_array. rewrite !byte_loop_length.
  pose proof (loop_size_value clflushopt nop_count H).
  pose proof (flush_agg_length clflushopt).
  cbn [function_start func_end_start func_end_end length]. nia.
Qed.

Lemma bytes_at_eq (code pre mid post : list Z) from (n : nat) :
  code = pre ++ mid ++ post ->
  from = Z.of_nat (length pre) -> n = length mid ->
  bytes_at code from n = mid.
Proof. intros ->. apply bytes_at_middle. Qed.

Lemma to_byte_array_value (size : nat) value :
  0 <= value ->
  from_byte_array (to_byte_array size value) = value mod 2 ^ (8 * Z.of_nat size).
Proof.
  intros Hv. unfold to_byte_array.
  rewrite byte_loop_value by lia. rewrite Z.mul_0_l, Z.shiftr_0_r. reflexivity.
Qed.

(** X7: [to_byte_array] is the little-endian encoding: it gives [size]
    bytes, each below 256, that stand for the value modulo [2 ^ (8 * size)],
    so for the value itself when it fits the type. *)
Theorem to_byte_array_little_endian (size : nat) value :
  0 <= value ->
  length (to_byte_array size value) = size
  /\ Forall (fun b => 0 <= b < 256) (to_byte_array size value)
  /\ from_byte_array (to_byte_array size value)
     = value mod 2 ^ (8 * Z.of_nat size).
Proof.
  intros Hv. unfold to_byte_array.
  split; [apply byte_loop_length|]. split; [apply byte_loop_bytes|].
  apply to_byte_array_value. exact Hv.
Qed.

Lemma to_byte_array_little_endian_witness :
  length (to_byte_array 4 0x12345678) = 4%nat
  /\ Forall (fun b => 0 <= b < 256) (to_byte_array 4 0x12345678)
  /\ from_byte_array (to_byte_array 4 0x12345678)
     = 0x12345678 mod 2 ^ (8 * Z.of_nat 4).
Proof. apply (to_byte_array_little_endian 4 0x12345678). lia. Defined.

(** X8: the layout of the generated code. It is 29 bytes plus one block of
    [loop_size] bytes for each aggressor; it starts with [function_start],
    whose last instruction takes the low 32 bits of the hammer count as its
    operand; the block of aggressor [k] starts at byte [15 + k * loop_size]
    with [movabs rax], followed by the 8 bytes of the aggressor's virtual
    address and by the access, the nops and the flush; [func_end_start]
    follows the last block and [func_end_end] ends the code. *)
Theorem machine_code_layout clflushopt hammer_count nop_count aggressor_rows
    virt_aggs code :
  code = machine_code clflushopt hammer_count nop_count aggressor_rows virt_aggs ->
  0 <= hammer_count ->
  0 <= nop_count < 2 ^ 31 ->
  Forall (fun agg => 0 <= agg < 2 ^ 64) virt_aggs ->
  Z.of_nat (length code)
  = 29 + Z.of_nat (length virt_aggs) * loop_size clflushopt nop_count
  /\ bytes_at code 0 11 = function_start
  /\ from_byte_array (bytes_at code 11 4) = hammer_count mod 2 ^ 32
  /\ (forall (k : nat) agg,
        virt_aggs !! k = Some agg ->
        bytes_at code (15 + Z.of_nat k * loop_size clflushopt nop_count) 2
        = mov_agg_addr
        /\ from_byte_array
             (bytes_at code (15 + Z.of_nat k * loop_size clflushopt nop_count + 2) 8)
           = agg
        /\ bytes_at code (15 + Z.of_nat k * loop_size clflushopt nop_count + 10)
             (Z.to_nat (loop_size clflushopt nop_count - 10))
           = access_nop_flush clflushopt nop_count)
  /\ bytes_at code
       (15 + Z.of_nat (length virt_aggs) * loop_size clflushopt nop_count) 8
     = func_end_start
  /\ bytes_at code
       (27 + Z.of_nat (length virt_aggs) * loop_size clflushopt nop_count) 2
     = func_end_end.
Proof.
  intros Hcode Hhc Hnop Haggs.
  pose proof (machine_code_length clflushopt hammer_count nop_count
                aggressor_rows virt_aggs Hnop) as Hlen.
  rewrite <- Hcode in Hlen.
  rewrite machine_code_shape in Hcode.
  pose proof (blocks_length clflushopt nop_count virt_aggs Hnop) as Hblocks.
  pose proof (loop_size_value clflushopt nop_count Hnop) as HL.
  pose proof (flush_agg_length clflushopt) as Hflush.
  pose proof (access_nop_flush_length clflushopt nop_count ltac:(lia)) as Hanf.
  set (anf := access_nop_flush clflushopt nop_count) in *.
  set (L := loop_size clflushopt nop_count) in *.
  set (blocks := map (fun agg => mov_agg_addr ++ to_byte_array 8 agg ++ anf)
                   virt_aggs) in *.
  set (tail := func_end_start
               ++ to_byte_array 4 (jump_offset clflushopt nop_count aggressor_rows)
               ++ func_end_end) in *.
  assert (Hcl : length (List.concat blocks) = (length virt_aggs * Z.to_nat L)%nat).
  { rewrite (concat_blocks_length _ _ Hblocks). unfold blocks.
    by rewrite length_map. }
  split; [lia|]. split.
  { apply (bytes_at_eq code [] function_start
             (to_byte_array 4 (wrap32 hammer_count) ++ List.concat blocks ++ tail)).
    - rewrite Hcode, <- !app_assoc. reflexivity.
    - reflexivity.
    - reflexivity. }
  split.
  { rewrite (bytes_at_eq code function_start (to_byte_array 4 (wrap32 hammer_count))
               (List.concat blocks ++ tail)).
    - rewrite to_byte_array_value by (unfold wrap32; apply Z.mod_pos_bound; lia).
      change (2 ^ (8 * Z.of_nat 4)) with (2 ^ 32). unfold wrap32.
      apply Z.mod_mod. lia.
    - rewrite Hcode, <- !app_assoc. reflexivity.
    - reflexivity.
    - unfold to_byte_array. by rewrite byte_loop_length. }
  split.
  { intros k agg Hk.
    assert (Hb : blocks !! k
                 = Some (mov_agg_addr ++ to_byte_array 8 agg ++ anf)).
    { unfold blocks. rewrite list_lookup_fmap, Hk. reflexivity. }
    pose proof (concat_split blocks k _ Hb) as Hsplit.
    assert (Hpre : length (List.concat (take k blocks)) = (k * Z.to_nat L)%nat).
    { rewrite (concat_blocks_length (Z.to_nat L)) by (apply Forall_take; exact Hblocks).
      rewrite length_take. apply lookup_lt_Some in Hb. lia. }
    set (c1 := List.concat (take k blocks)) in *.
    set (c2 := List.concat (drop (S k) blocks)) in *.
    assert (Hagg : 0 <= agg < 2 ^ 64).
    { rewrite Forall_forall in Haggs. apply Haggs.
      apply list_elem_of_lookup. eauto. }
    split; [|split].
    - apply (bytes_at_eq code
               ((function_start ++ to_byte_array 4 (wrap32 hammer_count)) ++ c1)
               mov_agg_addr (to_byte_array 8 agg ++ anf ++ c2 ++ tail)).
      + rewrite Hcode, Hsplit, <- !app_assoc. reflexivity.
      + rewrite !length_app, Hpre. unfold to_byte_array.
        rewrite byte_loop_length. cbn [function_start length]. lia.
      + reflexivity.
    - rewrite (bytes_at_eq code
                 ((function_start ++ to_byte_array 4 (wrap32 hammer_count))
                  ++ c1 ++ mov_agg_addr)
                 (to_byte_array 8 agg) (anf ++ c2 ++ tail)).
      + rewrite to_byte_array_value by lia.
        change (2 ^ (8 * Z.of_nat 8)) with (2 ^ 64). apply Z.mod_small. lia.
      + rewrite Hcode, Hsplit, <- !app_assoc. reflexivity.
      + rewrite !length_app, Hpre. unfold to_byte_array.
        rewrite byte_loop_length. cbn [function_start mov_agg_addr length]. lia.
      + unfold to_byte_array. by rewrite byte_loop_length.
    - apply (bytes_at_eq code
               ((function_start ++ to_byte_array 4 (wrap32 hammer_count))
                ++ c1 ++ mov_agg_addr ++ to_byte_array 8 agg)
               anf (c2 ++ tail)).
      + rewrite Hcode, Hsplit, <- !app_assoc. reflexivity.
      + rewrite !length_app, Hpre. unfold to_byte_array.
        rewrite !byte_loop_length. cbn [function_start mov_agg_addr length]. lia.
      + lia. }
  split.
  { apply (bytes_at_eq code
             ((function_start ++ to_byte_array 4 (wrap32 hammer_count))
              ++ List.concat blocks)
             func_end_start
             (to_byte_array 4 (jump_offset clflushopt nop_count aggressor_rows)
              ++ func_end_end)).
    - rewrite Hcode. unfold tail. rewrite <- !app_assoc. reflexivity.
    - rewrite !length_app, Hcl. unfold to_byte_array.
      rewrite byte_loop_length. cbn [function_start length]. lia.
    - reflexivity. }
  { apply (bytes_at_eq code
             ((function_start ++ to_byte_array 4 (wrap32 hammer_count))
              ++ List.concat blocks ++ func_end_start
              ++ to_byte_array 4 (jump_offset clflushopt nop_count aggressor_rows))
             func_end_end []).
    - rewrite Hcode. unfold tail. rewrite <- !app_assoc, app_nil_r. reflexivity.
    - rewrite !length_app, Hcl. unfold to_byte_array.
      rewrite !byte_loop_length. cbn [function_start func_end_start length]. lia.
    - reflexivity. }
Qed.

Lemma machine_code_layout_witness :
  Z.of_nat (length example_code)
  = 29 + Z.of_nat (length example_aggs) * loop_size false 80
  /\ bytes_at example_code 0 11 = function_start
  /\ from_byte_array (bytes_at example_code 11 4) = 1000000 mod 2 ^ 32
  /\ (forall (k : nat) agg,
        example_aggs !! k = Some agg ->
        bytes_at example_code (15 + Z.of_nat k * loop_size false 80) 2
        = mov_agg_addr
        /\ from_byte_array
             (bytes_at example_code (15 + Z.of_nat k * loop_size false 80 + 2) 8)
           = agg
        /\ bytes_at example_code (15 + Z.of_nat k * loop_size false 80 + 10)
             (Z.to_nat (loop_size false 80 - 10))
           = access_nop_flush false 80)
  /\ bytes_at example_code
       (15 + Z.of_nat (length example_aggs) * loop_size false 80) 8
     = func_end_start
  /\ bytes_at example_code
       (27 + Z.of_nat (length example_aggs) * loop_size false 80) 2
     = func_end_end.
Proof.
  apply (machine_code_layout false 1000000 80 2 example_aggs example_code).
  - reflexivity.
  - lia.
  - lia.
  - repeat constructor; vm_compute; congruence.
Defined.

(** X9: where the closing jump goes. The last instruction before the
    epilogue is [jnz rel32]; its displacement, read from the code, leads
    from the end of the instruction to byte
    [15 + loop_size * (number of aggressors - aggressor_rows)], so to the
    block of the first aggressor (byte 15) exactly when [aggressor_rows] is
    the number of aggressors of the flipper. *)
Theorem jump_target_of_loop clflushopt hammer_count nop_count aggressor_rows
    virt_aggs code :
  code = machine_code clflushopt hammer_count nop_count aggressor_rows virt_aggs ->
  0 <= nop_count < 2 ^ 31 ->
  0 <= aggressor_rows ->
  loop_size clflushopt nop_count * aggressor_rows + 12 <= 2 ^ 31 ->
  bytes_at code (Z.of_nat (length code) - 8) 2 = [0x0f; 0x85]
  /\ rel32_target (Z.of_nat (length code) - 2)
       (from_byte_array (bytes_at code (Z.of_nat (length code) - 6) 4))
     = 15 + loop_size clflushopt nop_count
            * (Z.of_nat (length virt_aggs) - aggressor_rows)
  /\ (rel32_target (Z.of_nat (length code) - 2)
        (from_byte_array (bytes_at code (Z.of_nat (length code) - 6) 4)) = 15
      <-> aggressor_rows = Z.of_nat (length virt_aggs)).
Proof.
  intros Hcode Hnop Hrows Hfit.
  pose proof (machine_code_length clflushopt hammer_count nop_count
                aggressor_rows virt_aggs Hnop) as Hlen.
  rewrite <- Hcode in Hlen.
  rewrite machine_code_shape in Hcode.
  pose proof (blocks_length clflushopt nop_count virt_aggs Hnop) as Hblocks.
  pose proof (loop_size_value clflushopt nop_count Hnop) as HL.
  pose proof (flush_agg_length clflushopt) as Hflush.
  assert (Hjo : jump_offset clflushopt nop_count aggressor_rows
                = 2 ^ 32 - 12 - loop_size clflushopt nop_count * aggressor_rows).
  { unfold jump_offset, func_end_till_offsetparameter_size.
    cbn [func_end_start length].
    rewrite (wrap32_small (Z.of_nat 8 + 4 - 1)) by lia.
    assert (0 <= loop_size clflushopt nop_count * aggressor_rows) by nia.
    rewrite (wrap32_small (loop_size clflushopt nop_count * aggressor_rows)) by lia.
    rewrite (wrap32_small (_ + _)) by lia.
    rewrite wrap32_small by lia. lia. }
  set (L := loop_size clflushopt nop_count) in *.
  set (blocks := map (fun agg => mov_agg_addr ++ to_byte_array 8 agg
                                 ++ access_nop_flush clflushopt nop_count)
                   virt_aggs) in *.
  assert (Hcl : length (List.concat blocks) = (length virt_aggs * Z.to_nat L)%nat).
  { rewrite (concat_blocks_length _ _ Hblocks). unfold blocks.
    by rewrite length_map. }
  assert (Hrel : from_byte_array (bytes_at code (Z.of_nat (length code) - 6) 4)
                 = 2 ^ 32 - 12 - L * aggressor_rows).
  { rewrite (bytes_at_eq code
               ((function_start ++ to_byte_array 4 (wrap32 hammer_count))
                ++ List.concat blocks ++ func_end_start)
               (to_byte_array 4 (jump_offset clflushopt nop_count aggressor_rows))
               func_end_end).
    - assert (0 <= L * aggressor_rows) by nia.
      rewrite to_byte_array_value by lia.
      change (2 ^ (8 * Z.of_nat 4)) with (2 ^ 32). rewrite Hjo.
      apply Z.mod_small. lia.
    - rewrite Hcode, <- !app_assoc. reflexivity.
    - rewrite !length_app, Hcl. unfold to_byte_array.
      rewrite byte_loop_length. cbn [function_start func_end_start length]. lia.
    - unfold to_byte_array. by rewrite byte_loop_length. }
  split.
  { apply (bytes_at_eq code
             ((function_start ++ to_byte_array 4 (wrap32 hammer_count))
              ++ List.concat blocks ++ [0x0f; 0xae; 0xf0; 0x48; 0xff; 0xcb])
             [0x0f; 0x85]
             (to_byte_array 4 (jump_offset clflushopt nop_count aggressor_rows)
              ++ func_end_end)).
    - rewrite Hcode. unfold func_end_start. rewrite <- !app_assoc. reflexivity.
    - rewrite !length_app, Hcl. unfold to_byte_array.
      rewrite byte_loop_length. cbn [function_start length]. lia.
    - reflexivity. }
  assert (Htarget : rel32_target (Z.of_nat (length code) - 2)
                      (from_byte_array (bytes_at code (Z.of_nat (length code) - 6) 4))
                    = 15 + L * (Z.of_nat (length virt_aggs) - aggressor_rows)).
  { rewrite Hrel. unfold rel32_target.
    assert (0 <= L * aggressor_rows) by nia.
    destruct (Z.ltb_spec (2 ^ 32 - 12 - L * aggressor_rows) (2 ^ 31)); lia. }
  split; [exact Htarget|]. rewrite Htarget. split; intros H.
  - assert (L * (Z.of_nat (length virt_aggs) - aggressor_rows) = 0) as H0 by lia.
    apply Z.mul_eq_0 in H0. lia.
  - rewrite H. lia.
Qed.

Lemma jump_target_of_loop_witness :
  bytes_at example_code (Z.of_nat (length example_code) - 8) 2 = [0x0f; 0x85]
  /\ rel32_target (Z.of_nat (length example_code) - 2)
       (from_byte_array
          (bytes_at example_code (Z.of_nat (length example_code) - 6) 4))
     = 15 + loop_size false 80 * (Z.of_nat (length example_aggs) - 2)
  /\ (rel32_target (Z.of_nat (length example_code) - 2)
        (from_byte_array
           (bytes_at example_code (Z.of_nat (length example_code) - 6) 4)) = 15
      <-> 2 = Z.of_nat (length example_aggs)).
Proof.
  apply (jump_target_of_loop false 1000000 80 2 example_aggs example_code).
  - reflexivity.
  - lia.
  - lia.
  - vm_compute. discriminate.
Defined.

End MachineCodeFacts.

(** ** What [verify_masks] accepts *)

Section MaskShape.
Import Bits DRAM Conf.

Lemma ones_succ n : 0 <= n -> Z.ones (1 + n) = 2 * Z.ones n + 1.
Proof.
  intros H. rewrite !Z.ones_equiv, Z.pow_add_r by lia.
  change (2 ^ 1) with 2. lia.
Qed.

Lemma shiftl_succ a n : 0 <= n -> Z.shiftl a (1 + n) = 2 * Z.shiftl a n.
Proof.
  intros H. rewrite !Z.shiftl_mul_pow2, Z.pow_add_r by lia.
  change (2 ^ 1) with 2. lia.
Qed.

Lemma ones_pos n : 0 < n -> 0 < Z.ones n.
Proof.
  intros H. rewrite Z.ones_equiv.
  assert (2 ^ 1 <= 2 ^ n) by (apply Z.pow_le_mono_r; lia).
  change (2 ^ 1) with 2 in *. lia.
Qed.

(** One bits and trailing zeros never reach past the highest one bit, and
    fill the value up to it exactly when the one bits are consecutive. *)
Lemma popcount_ctz_log2 p :
  popcount_pos p + ctz_pos p <= Z.log2 (Zpos p) + 1
  /\ (popcount_pos p + ctz_pos p = Z.log2 (Zpos p) + 1
      <-> Zpos p = Z.shiftl (Z.ones (popcount_pos p)) (ctz_pos p)).
Proof.
  induction p as [q IH|q IH|].
  - destruct IH as [Hle Hiff].
    pose proof (ctz_pos_nonneg q) as Hc. pose proof (popcount_pos_positive q) as Hp.
    cbn [popcount_pos ctz_pos].
    change (Zpos q~1) with (2 * Zpos q + 1).
    rewrite Z.log2_succ_double by lia.
    rewrite Z.shiftl_0_r, ones_succ by lia.
    split; [lia|]. split.
    + intros Heq. assert (Hc0 : ctz_pos q = 0) by lia.
      rewrite Hc0, Z.shiftl_0_r in Hiff.
      assert (Zpos q = Z.ones (popcount_pos q)) by (apply Hiff; lia). lia.
    + intros Heq. assert (Hq : Zpos q = Z.ones (popcount_pos q)) by lia.
      assert (Hc0 : ctz_pos q = 0).
      { destruct q as [r|r|]; cbn [ctz_pos]; try reflexivity.
        exfalso. cbn [popcount_pos] in Hq.
        pose proof (popcount_pos_positive r).
        replace (popcount_pos r) with (1 + (popcount_pos r - 1)) in Hq by lia.
        rewrite ones_succ in Hq by lia.
        change (Zpos r~0) with (2 * Zpos r) in Hq. lia. }
      rewrite Hc0, Z.shiftl_0_r in Hiff.
      apply Hiff in Hq. lia.
  - destruct IH as [Hle Hiff].
    pose proof (ctz_pos_nonneg q) as Hc.
    cbn [popcount_pos ctz_pos].
    change (Zpos q~0) with (2 * Zpos q).
    rewrite Z.log2_double by lia.
    rewrite shiftl_succ by lia.
    split; [lia|]. split.
    + intros Heq. assert (Zpos q = Z.shiftl (Z.ones (popcount_pos q)) (ctz_pos q))
        by (apply Hiff; lia). lia.
    + intros Heq. assert (Hq : Zpos q = Z.shiftl (Z.ones (popcount_pos q)) (ctz_pos q))
        by lia.
      apply Hiff in Hq. lia.
  - cbn. split; [lia|]. split; reflexivity.
Qed.

Lemma count_one_bits_ones n : 0 <= n -> count_one_bits (Z.ones n) = n.
Proof.
  revert n. apply natlike_ind; [reflexivity|].
  intros n Hn IH. replace (Z.succ n) with (1 + n) by lia.
  rewrite ones_succ by lia.
  pose proof (Z.ones_equiv n) as He.
  assert (0 < 2 ^ n) by (apply Z.pow_pos_nonneg; lia).
  rewrite count_one_bits_step by lia.
  replace (2 * Z.ones n + 1) with (1 + 2 * Z.ones n) by lia.
  rewrite Z.odd_add_mul_2, Z.div2_div.
  replace (1 + 2 * Z.ones n) with (1 + Z.ones n * 2) by lia.
  rewrite Z.div_add by lia. change (1 / 2) with 0.
  rewrite Z.add_0_l, IH. cbn [Z.odd Z.b2z]. lia.
Qed.

Lemma count_one_bits_double x : 0 <= x -> count_one_bits (2 * x) = count_one_bits x.
Proof. intros H. destruct x; reflexivity. Qed.

Lemma ctz_double x :
  0 < x -> count_trailing_zero_bits (2 * x) = 1 + count_trailing_zero_bits x.
Proof. intros H. destruct x; try lia. reflexivity. Qed.

Lemma ctz_ones n : 0 < n -> count_trailing_zero_bits (Z.ones n) = 0.
Proof.
  intros H. replace n with (1 + (n - 1)) by lia. rewrite ones_succ by lia.
  pose proof (Z.ones_equiv (n - 1)) as He.
  assert (0 < 2 ^ (n - 1)) by (apply Z.pow_pos_nonneg; lia).
  destruct (Z.ones (n - 1)) as [|p|p]; try reflexivity. lia.
Qed.

Lemma shifted_ones_counts len : 0 < len -> forall lo, 0 <= lo ->
  0 < Z.shiftl (Z.ones len) lo
  /\ count_one_bits (Z.shiftl (Z.ones len) lo) = len
  /\ count_trailing_zero_bits (Z.shiftl (Z.ones len) lo) = lo.
Proof.
  intros Hlen. apply natlike_ind.
  - rewrite Z.shiftl_0_r. split; [apply ones_pos; lia|].
    split; [apply count_one_bits_ones; lia|apply ctz_ones; lia].
  - intros lo Hlo (Hpos & Hpop & Hctz).
    replace (Z.succ lo) with (1 + lo) by lia. rewrite shiftl_succ by lia.
    split; [lia|]. split.
    + rewrite count_one_bits_double by lia. exact Hpop.
    + rewrite ctz_double by lia. rewrite Hctz. reflexivity.
Qed.

Lemma verify_mask_consecutive m :
  0 <= m < 2 ^ 64 ->
  (count_leading_zero_bits m + count_one_bits m + count_trailing_zero_bits m
   =? 64) = true
  <-> exists lo len,
        0 <= lo /\ 0 < len /\ lo + len <= 64 /\ m = Z.shiftl (Z.ones len) lo.
Proof.
  intros Hm. rewrite Z.eqb_eq. destruct m as [|p|p]; [| |lia].
  - cbn. split; [discriminate|].
    intros (lo & len & Hlo & Hlen & _ & Heq).
    pose proof (shifted_ones_counts len Hlen lo Hlo) as (Hpos & _). lia.
  - destruct (popcount_ctz_log2 p) as [Hle Hiff].
    cbn [count_leading_zero_bits count_one_bits count_trailing_zero_bits].
    split.
    + intros Hsum. exists (ctz_pos p), (popcount_pos p).
      pose proof (ctz_pos_nonneg p). pose proof (popcount_pos_positive p).
      assert (Z.log2 (Zpos p) < 64) by (apply Z.log2_lt_pow2; lia).
      split; [lia|]. split; [lia|]. split; [lia|]. apply Hiff. lia.
    + intros (lo & len & Hlo & Hlen & Hfit & Heq).
      pose proof (shifted_ones_counts len Hlen lo Hlo) as (Hpos & Hpop & Hctz).
      rewrite <- Heq in Hpop, Hctz.
      cbn [count_one_bits count_trailing_zero_bits] in Hpop, Hctz.
      assert (popcount_pos p + ctz_pos p = Z.log2 (Zpos p) + 1).
      { apply Hiff. rewrite Hpop, Hctz. exact Heq. }
      lia.
Qed.

(** X10: for non-zero 64-bit masks (the leading and trailing zero counts of
    0 are undefined in C++), [verify_masks] accepts a list exactly when every
    mask is [len] consecutive one bits from some position [lo] on. *)
Theorem verify_masks_consecutive masks :
  Forall (fun m => 0 < m < 2 ^ 64) masks ->
  verify_masks masks = true
  <-> Forall (fun m => exists lo len,
                0 <= lo /\ 0 < len /\ lo + len <= 64
                /\ m = Z.shiftl (Z.ones len) lo) masks.
Proof.
  intros Hrange. unfold verify_masks. rewrite forallb_forall, Forall_forall.
  rewrite Forall_forall in Hrange. split.
  - intros H m Hin. pose proof (Hrange m Hin).
    apply verify_mask_consecutive; [lia|].
    apply H. apply list_elem_of_In. exact Hin.
  - intros H m Hin. apply list_elem_of_In in Hin. pose proof (Hrange m Hin).
    apply verify_mask_consecutive; [lia|].
    apply H. exact Hin.
Qed.

Lemma verify_masks_consecutive_witness :
  verify_masks (row_masks default_layout) = true
  <-> Forall (fun m => exists lo len,
                0 <= lo /\ 0 < len /\ lo + len <= 64
                /\ m = Z.shiftl (Z.ones len) lo) (row_masks default_layout).
Proof.
  apply (verify_masks_consecutive (row_masks default_layout)).
  repeat constructor; vm_compute; congruence.
Defined.

End MaskShape.

(** ** What a verified configuration satisfies *)

Section VerifiedConfig.
Import Bits DRAM Conf ConfExamples.

Variable construct_pattern : string -> Z -> option (list bool * Z).
Variable get_dimms : list (string * string) -> option (list string).

Lemma check_banks_result c c1 :
  check_banks c = Some c1 ->
  c1 = set_banks c (banks c1)
  /\ banks c1 = match banks c with
                | [] => seqZ 0 (get_banks_cnt (dram_layout c))
                | b => b
                end
  /\ forall b, b ∈ banks c1 -> b < get_banks_cnt (dram_layout c).
Proof.
  unfold check_banks. destruct (banks c) as [|b0 bl] eqn:Eb.
  - intros [= <-]. cbn [banks set_banks]. split; [reflexivity|].
    split; [reflexivity|]. intros b Hb. apply elem_of_seqZ in Hb. lia.
  - destruct (existsb _ _) eqn:Ex; [discriminate|]. intros [= <-].
    split; [destruct c; reflexivity|]. split; [exact Eb|].
    intros b Hb. rewrite Eb in Hb.
    destruct (Z.leb_spec (get_banks_cnt (dram_layout c)) b) as [Hle|Hlt]; [|lia].
    exfalso. assert (Ht : existsb (fun b => get_banks_cnt (dram_layout c) <=? b)
                            (b0 :: bl) = true).
    { apply existsb_exists. exists b. split; [apply list_elem_of_In; exact Hb|].
      apply Z.leb_le. exact Hle. }
    rewrite Ht in Ex. discriminate.
Qed.

Lemma check_test_max_rows_result c :
  let lb := wrap64 (test_min_rows c + wrap32 (row_padding c * 2)) in
  fst (check_test_max_rows c)
  = set_test_max_rows c (test_max_rows (fst (check_test_max_rows c)))
  /\ (test_max_rows (fst (check_test_max_rows c)) = test_max_rows c
      \/ test_max_rows (fst (check_test_max_rows c)) = lb)
  /\ ~ (0 < test_max_rows (fst (check_test_max_rows c)) < lb).
Proof.
  cbv zeta. unfold check_test_max_rows.
  destruct (Z.ltb_spec 0 (test_max_rows c));
    destruct (Z.ltb_spec (test_max_rows c)
                (wrap64 (test_min_rows c + wrap32 (row_padding c * 2))));
    cbn [andb fst test_max_rows set_test_max_rows];
    (split; [destruct c; reflexivity|]); split; auto; lia.
Qed.

(** X11: what holds of a configuration that passed [verify_values]: the
    layout is unchanged and its row and column masks pass [verify_masks]; an
    empty bank list has become the list of all banks, any other list is kept,
    and every bank is below the bank count; [victim_init] and
    [aggressor_init] have the same length; and [test_max_rows] is either the
    given value or the lower bound [test_min_rows + 2 * row_padding] (as the
    code computes it), and never lies strictly between 0 and that bound. *)
Theorem verified_config_invariants c c' log :
  verify_values construct_pattern get_dimms c = Verified c' log ->
  dram_layout c' = dram_layout c
  /\ verify_masks (row_masks (dram_layout c')) = true
  /\ verify_masks (col_masks (dram_layout c')) = true
  /\ banks c' = match banks c with
                | [] => seqZ 0 (get_banks_cnt (dram_layout c))
                | b => b
                end
  /\ (forall b, b ∈ banks c' -> b < get_banks_cnt (dram_layout c'))
  /\ length (victim_init c') = length (aggressor_init c')
  /\ (test_max_rows c' = test_max_rows c
      \/ test_max_rows c'
         = wrap64 (test_min_rows c + wrap32 (row_padding c * 2)))
  /\ ~ (0 < test_max_rows c'
        < wrap64 (test_min_rows c + wrap32 (row_padding c * 2))).
Proof.
  unfold verify_values.
  destruct (verify_masks (row_masks (dram_layout c))) eqn:Hrow; [|discriminate].
  destruct (verify_masks (col_masks (dram_layout c))) eqn:Hcol; [|discriminate].
  cbn [negb].
  destruct (check_banks c) as [c1|] eqn:Eb; [|discriminate].
  apply check_banks_result in Eb as (Hc1 & Hbanks & Hbound).
  unfold verify_from_test_max_rows.
  pose proof (check_test_max_rows_result c1) as (Hc2 & Hmax & Hnot).
  destruct (check_test_max_rows c1) as [c2 log2]. cbn [fst] in Hc2, Hmax, Hnot.
  destruct (check_hammer_pattern construct_pattern c2) as [c3|] eqn:E3;
    [|discriminate].
  assert (Hc3 : dram_layout c3 = dram_layout c2 /\ banks c3 = banks c2
                /\ test_max_rows c3 = test_max_rows c2).
  { revert E3. unfold check_hammer_pattern.
    destruct (pattern_bits (hammer_pattern c2)).
    - destruct (construct_pattern _ _) as [[bits rows]|]; [|discriminate].
      intros [= <-]. repeat split.
    - intros [= <-]. repeat split. }
  destruct Hc3 as (Hl3 & Hb3 & Hm3).
  assert (Hc4 : dram_layout (check_aggressor_init c3) = dram_layout c3
                /\ banks (check_aggressor_init c3) = banks c3
                /\ test_max_rows (check_aggressor_init c3) = test_max_rows c3).
  { unfold check_aggressor_init. destruct (aggressor_init c3); repeat split. }
  destruct Hc4 as (Hl4 & Hb4 & Hm4).
  destruct (Nat.eqb_spec (length (victim_init (check_aggressor_init c3)))
              (length (aggressor_init (check_aggressor_init c3)))) as [Hlen|Hlen];
    [|discriminate].
  cbn [negb]. intros Hd.
  assert (Hc5 : dram_layout c' = dram_layout (check_aggressor_init c3)
                /\ banks c' = banks (check_aggressor_init c3)
                /\ test_max_rows c' = test_max_rows (check_aggressor_init c3)
                /\ victim_init c' = victim_init (check_aggressor_init c3)
                /\ aggressor_init c' = aggressor_init (check_aggressor_init c3)).
  { revert Hd. unfold check_dimms.
    destruct (dimm_ids (check_aggressor_init c3)).
    - intros [= <- <-]. repeat split.
    - destruct (get_dimms _); intros [= <- <-]; repeat split. }
  destruct Hc5 as (Hl5 & Hb5 & Hm5 & Hv5 & Ha5).
  assert (Hl2 : dram_layout c2 = dram_layout c1) by (rewrite Hc2; reflexivity).
  assert (Hb2 : banks c2 = banks c1) by (rewrite Hc2; reflexivity).
  assert (Hl1 : dram_layout c1 = dram_layout c) by (rewrite Hc1; reflexivity).
  assert (Hmin1 : test_min_rows c1 = test_min_rows c) by (rewrite Hc1; reflexivity).
  assert (Hpad1 : row_padding c1 = row_padding c) by (rewrite Hc1; reflexivity).
  assert (Hmax1 : test_max_rows c1 = test_max_rows c) by (rewrite Hc1; reflexivity).
  assert (Hl : dram_layout c' = dram_layout c) by congruence.
  assert (Hb : banks c' = banks c1) by congruence.
  assert (Hm : test_max_rows c' = test_max_rows c2) by congruence.
  rewrite Hmin1, Hpad1, Hmax1 in *.
  split; [exact Hl|]. rewrite Hl. split; [exact Hrow|]. split; [exact Hcol|].
  split; [congruence|]. split; [rewrite Hb; exact Hbound|].
  split; [congruence|]. rewrite Hm. split; assumption.
Qed.

End VerifiedConfig.

Section VerifiedConfigRuns.
Import Bits DRAM Conf ConfExamples.

Lemma verified_config_invariants_witness :
  exists c' log,
    verify_values spec_pattern (fun _ => None) default_config = Verified c' log
    /\ banks c' = seqZ 0 32
    /\ (forall b, b ∈ banks c' -> b < get_banks_cnt (dram_layout c'))
    /\ length (victim_init c') = length (aggressor_init c').
Proof.
  destruct (verify_values spec_pattern (fun _ => None) default_config)
    as [|c' log] eqn:Hrun; [vm_compute in Hrun; discriminate Hrun|].
  exists c', log. split; [reflexivity|].
  destruct (verified_config_invariants spec_pattern (fun _ => None)
              default_config c' log Hrun)
    as (_ & _ & _ & Hb & Hbound & Hlen & _).
  split; [exact Hb|]. split; [exact Hbound|exact Hlen].
Defined.

End VerifiedConfigRuns.

(** ** Finding the missing rows *)

Section MissingRowsBuilt.
Import Bits DRAM PageFinder PageMapBuild Flipper Noncontiguous NoncontiguousRun.

Lemma set_insert_In x s r : In r (set_insert x s) <-> r = x \/ In r s.
Proof.
  induction s as [|y s IH]; cbn [set_insert].
  - cbn. intuition.
  - destruct (Z.ltb_spec x y).
    + cbn. intuition.
    + destruct (Z.eqb_spec x y) as [->|Hne].
      * cbn. intuition.
      * cbn [In]. rewrite IH. intuition.
Qed.

Lemma set_insert_sorted x s :
  StronglySorted Z.lt s -> StronglySorted Z.lt (set_insert x s).
Proof.
  induction 1 as [|y s Hs IH Hy]; cbn [set_insert].
  - repeat constructor.
  - destruct (Z.ltb_spec x y) as [Hlt|Hge].
    + constructor; [constructor; assumption|].
      constructor; [exact Hlt|].
      rewrite List.Forall_forall in *. intros z Hz. specialize (Hy z Hz). lia.
    + destruct (Z.eqb_spec x y) as [->|Hne].
      * constructor; assumption.
      * constructor; [exact IH|].
        rewrite List.Forall_forall in *. intros z Hz.
        apply set_insert_In in Hz as [->|Hz]; [lia|apply Hy; exact Hz].
Qed.

Lemma insert_missing_sorted m b r :
  sorted_sets m -> sorted_sets (insert_missing m b r).
Proof.
  intros Hm bank s. unfold insert_missing.
  destruct (decide (bank = b)) as [->|Hne].
  - rewrite lookup_insert_eq. intros [= <-]. apply set_insert_sorted.
    destruct (m !! b) as [s0|] eqn:E; cbn; [eapply Hm; eauto|constructor].
  - rewrite lookup_insert_ne by congruence. apply Hm.
Qed.

Lemma insert_missing_In m b r0 bank r :
  In r (default [] (insert_missing m b r0 !! bank))
  <-> In r (default [] (m !! bank)) \/ (bank = b /\ r = r0).
Proof.
  unfold insert_missing. destruct (decide (bank = b)) as [->|Hne].
  - rewrite lookup_insert_eq. cbn. rewrite set_insert_In. intuition.
  - rewrite lookup_insert_ne by congruence. intuition.
Qed.

Lemma missing_loop_spec finder L (n : nat) : forall page m,
  0 <= page -> page + Z.of_nat n <= 2 ^ 64 - 1 -> sorted_sets m ->
  sorted_sets (missing_loop finder L n page m)
  /\ forall bank r,
       In r (default [] (missing_loop finder L n page m !! bank))
       <-> In r (default [] (m !! bank))
           \/ exists q,
                page <= q < page + Z.of_nat n
                /\ contains finder q = false
                /\ DRAM.bank (DRAMAddr_of_phys L (page_2_phys q)) = bank
                /\ row (DRAMAddr_of_phys L (page_2_phys q)) = r.
Proof.
  induction n as [|n IH]; intros page m Hpage Hfit Hm.
  - cbn [missing_loop]. split; [exact Hm|]. intros bank r. split; [auto|].
    intros [H|(q & Hq & _)]; [exact H|lia].
  - cbn [missing_loop]. rewrite wrap64_small by lia.
    set (m1 := if contains finder page then m
               else insert_missing m (DRAM.bank (DRAMAddr_of_phys L (page_2_phys page)))
                      (row (DRAMAddr_of_phys L (page_2_phys page)))).
    assert (Hm1 : sorted_sets m1).
    { unfold m1. destruct (contains finder page); [exact Hm|].
      apply insert_missing_sorted. exact Hm. }
    destruct (IH (page + 1) m1 ltac:(lia) ltac:(lia) Hm1) as [Hsorted Hin].
    split; [exact Hsorted|]. intros bank r. rewrite Hin.
    assert (Hstep : In r (default [] (m1 !! bank))
              <-> In r (default [] (m !! bank))
                  \/ (contains finder page = false
                      /\ DRAM.bank (DRAMAddr_of_phys L (page_2_phys page)) = bank
                      /\ row (DRAMAddr_of_phys L (page_2_phys page)) = r)).
    { unfold m1. destruct (contains finder page) eqn:Ec.
      - split; [auto|]. intros [H|(H & _)]; [exact H|discriminate].
      - rewrite insert_missing_In. split.
        + intros [H|[-> ->]]; auto.
        + intros [H|(_ & <- & <-)]; auto. }
    rewrite Hstep. split.
    + intros [[H|(Hc & Hb & Hr)]|(q & Hq & Hc & Hb & Hr)].
      * left. exact H.
      * right. exists page. repeat split; try assumption; lia.
      * right. exists q. repeat split; try assumption; lia.
    + intros [H|(q & Hq & Hc & Hb & Hr)].
      * left. left. exact H.
      * destruct (decide (q = page)) as [->|Hne].
        -- left. right. auto.
        -- right. exists q. repeat split; try assumption; lia.
Qed.

Lemma find_missing_rows_spec_sets F first_page last_page :
  missing_rows F = ∅ ->
  0 <= first_page < 2 ^ 64 ->
  last_page < 2 ^ 64 - 1 ->
  sorted_sets (missing_rows (find_missing_rows F first_page last_page))
  /\ forall bank r,
       In r (default []
               (missing_rows (find_missing_rows F first_page last_page) !! bank))
       <-> exists page,
             first_page <= page <= last_page
             /\ contains (finder F) page = false
             /\ DRAM.bank (DRAMAddr_of_phys (layout F) (page_2_phys page)) = bank
             /\ row (DRAMAddr_of_phys (layout F) (page_2_phys page)) = r.
Proof.
  intros Hempty Hfirst Hlast.
  unfold find_missing_rows. cbn [missing_rows set_missing_rows].
  rewrite Hempty.
  destruct (missing_loop_spec (finder F) (layout F)
              (Z.to_nat (last_page - first_page + 1)) first_page ∅)
    as [Hsorted Hin].
  { lia. }
  { destruct (Z.le_gt_cases 0 (last_page - first_page + 1)).
    - rewrite Z2Nat.id by lia. lia.
    - rewrite Z2Nat.nonpos by lia. cbn. lia. }
  { intros bank s. rewrite lookup_empty. discriminate. }
  split; [exact Hsorted|]. intros bank r. rewrite Hin, lookup_empty.
  cbn [default In]. split.
  - intros [[]|(q & Hq & H)]. exists q. split; [lia|exact H].
  - intros (q & Hq & H). right. exists q. split; [lia|exact H].
Qed.

(** X12: after [find_missing_rows(first_page, last_page)] on a finder with
    no missing rows recorded yet, the set of a bank holds exactly the rows
    of the pages between [first_page] and [last_page] that are not in the
    page map and lie in that bank; every set is in ascending order without
    repetition. *)
Theorem find_missing_rows_exact F first_page last_page :
  missing_rows F = ∅ ->
  0 <= first_page < 2 ^ 64 ->
  last_page < 2 ^ 64 - 1 ->
  (forall bank s,
     missing_rows (find_missing_rows F first_page last_page) !! bank = Some s ->
     StronglySorted Z.lt s)
  /\ forall bank r,
       (exists s,
          missing_rows (find_missing_rows F first_page last_page) !! bank = Some s
          /\ In r s)
       <-> exists page,
             first_page <= page <= last_page
             /\ contains (finder F) page = false
             /\ DRAM.bank (DRAMAddr_of_phys (layout F) (page_2_phys page)) = bank
             /\ row (DRAMAddr_of_phys (layout F) (page_2_phys page)) = r.
Proof.
  intros Hempty Hfirst Hlast.
  destruct (find_missing_rows_spec_sets F first_page last_page Hempty Hfirst Hlast)
    as [Hsorted Hin].
  split; [exact Hsorted|]. intros bank r. rewrite <- Hin. split.
  - intros (s & -> & Hr). exact Hr.
  - intros Hr.
    destruct (missing_rows (find_missing_rows F first_page last_page) !! bank)
      as [s|]; [|destruct Hr].
    exists s. split; [reflexivity|exact Hr].
Qed.

Lemma find_missing_rows_exact_witness :
  (forall bank s,
     missing_rows (find_missing_rows gap_finder 16 19) !! bank = Some s ->
     StronglySorted Z.lt s)
  /\ forall bank r,
       (exists s,
          missing_rows (find_missing_rows gap_finder 16 19) !! bank = Some s
          /\ In r s)
       <-> exists page,
             16 <= page <= 19
             /\ contains (finder gap_finder) page = false
             /\ DRAM.bank (DRAMAddr_of_phys (layout gap_finder) (page_2_phys page))
                = bank
             /\ row (DRAMAddr_of_phys (layout gap_finder) (page_2_phys page)) = r.
Proof.
  apply (find_missing_rows_exact gap_finder 16 19).
  - reflexivity.
  - lia.
  - lia.
Defined.

(** [hammer] reports a skipped window only after the guard reported a
    missing row. *)
Lemma hammer_skipped_reported F do_exit bank first_victim last_victim flag :
  hammer F do_exit bank first_victim last_victim = Some (flag, Skipped) ->
  is_any_row_missing F bank first_victim last_victim = Some true /\ flag = true.
Proof.
  unfold hammer.
  destruct (is_any_row_missing F bank first_victim last_victim) as [[|]|];
    cbn [mbind option_bind]; [intros [= <-]; auto| |discriminate].
  destruct (collect_addrs _ _ _ _ _ _) as [addrs|];
    cbn [mbind option_bind]; [|discriminate].
  destruct (find_pages _ _) as [flipper [|]]; discriminate.
Qed.

(** X13: the guard of [hammer] after the preparation of [find_flips]. With
    the missing rows found between [first_page] and [last_page], and the
    entry of the bank made by the log line, take a window whose padded
    interval stays within the 64-bit row numbers. The guard reports it, and
    [hammer] skips it (returns true without collecting an address), exactly
    when some page between [first_page] and [last_page] that is not in the
    page map lies in the bank, in a row of the interval from
    [first_victim - row_padding] to [last_victim + row_padding]; in every
    other case a call of [hammer] that returns did not skip the window. *)
Theorem window_skipped_iff_page_missing F do_exit bank first_page last_page
    first_victim last_victim :
  missing_rows F = ∅ ->
  0 <= first_page < 2 ^ 64 ->
  last_page < 2 ^ 64 - 1 ->
  0 <= row_padding F <= first_victim ->
  first_victim <= last_victim ->
  last_victim + row_padding F < 2 ^ 64 ->
  (exists b,
     is_any_row_missing
       (touch_bank (find_missing_rows F first_page last_page) bank)
       bank first_victim last_victim = Some b
     /\ (b = true
         <-> exists page,
               first_page <= page <= last_page
               /\ contains (finder F) page = false
               /\ DRAM.bank (DRAMAddr_of_phys (layout F) (page_2_phys page)) = bank
               /\ first_victim - row_padding F
                  <= row (DRAMAddr_of_phys (layout F) (page_2_phys page))
                  <= last_victim + row_padding F))
  /\ (hammer (touch_bank (find_missing_rows F first_page last_page) bank)
        do_exit bank first_victim last_victim = Some (true, Skipped)
      <-> exists page,
            first_page <= page <= last_page
            /\ contains (finder F) page = false
            /\ DRAM.bank (DRAMAddr_of_phys (layout F) (page_2_phys page)) = bank
            /\ first_victim - row_padding F
               <= row (DRAMAddr_of_phys (layout F) (page_2_phys page))
               <= last_victim + row_padding F)
  /\ (forall flag step,
        hammer (touch_bank (find_missing_rows F first_page last_page) bank)
          do_exit bank first_victim last_victim = Some (flag, step) ->
        step = Skipped ->
        flag = true
        /\ exists page,
             first_page <= page <= last_page
             /\ contains (finder F) page = false
             /\ DRAM.bank (DRAMAddr_of_phys (layout F) (page_2_phys page)) = bank
             /\ first_victim - row_padding F
                <= row (DRAMAddr_of_phys (layout F) (page_2_phys page))
                <= last_victim + row_padding F).
Proof.
  intros Hempty Hfirst Hlast Hpad Hfl Hhi.
  destruct (find_missing_rows_spec_sets F first_page last_page Hempty Hfirst Hlast)
    as [Hsorted Hin].
  set (F1 := find_missing_rows F first_page last_page) in *.
  set (F2 := touch_bank F1 bank).
  assert (Hentry : exists s,
            missing_rows F2 !! bank = Some s
            /\ StronglySorted Z.lt s
            /\ forall r, In r s <-> In r (default [] (missing_rows F1 !! bank))).
  { unfold F2, touch_bank. cbn [missing_rows set_missing_rows].
    destruct (missing_rows F1 !! bank) as [s|] eqn:E.
    - exists s. split; [exact E|]. split; [eapply Hsorted; exact E|]. reflexivity.
    - exists []. split; [apply lookup_insert_eq|]. split; [constructor|]. reflexivity. }
  destruct Hentry as (s & Hs & Hss & Hsin).
  assert (Hpad2 : row_padding F2 = row_padding F) by reflexivity.
  destruct (is_any_row_missing_in_range F2 bank s first_victim last_victim Hs Hss)
    as (b & Hb & Hiff); try (rewrite Hpad2; lia); try lia.
  assert (Hpage : b = true
            <-> exists page,
                  first_page <= page <= last_page
                  /\ contains (finder F) page = false
                  /\ DRAM.bank (DRAMAddr_of_phys (layout F) (page_2_phys page))
                     = bank
                  /\ first_victim - row_padding F
                     <= row (DRAMAddr_of_phys (layout F) (page_2_phys page))
                     <= last_victim + row_padding F).
  { rewrite Hiff, Hpad2. split.
    - intros (r & Hr & Hrange). apply Hsin, Hin in Hr as (page & Hp & Hc & Hbk & Hrow).
      exists page. rewrite Hrow. auto.
    - intros (page & Hp & Hc & Hbk & Hrange).
      exists (row (DRAMAddr_of_phys (layout F) (page_2_phys page))).
      split; [|exact Hrange]. apply Hsin, Hin. exists page. auto. }
  split; [exists b; split; [exact Hb|exact Hpage]|]. split.
  - rewrite <- Hpage. split.
    + intros Hh. apply hammer_skipped_reported in Hh as [Hh _]. congruence.
    + intros ->. apply hammer_skips_reported_window. exact Hb.
  - intros flag step Hh ->. apply hammer_skipped_reported in Hh as [Hh ->].
    split; [reflexivity|]. apply Hpage. congruence.
Qed.

(** One row of padding: the window of rows 1 to 3 of bank 9 is judged by the
    rows 0 to 4, and page 18, which is not owned, lies in row 0 of that
    bank. *)
Lemma window_skipped_iff_page_missing_witness :
  (exists b,
     is_any_row_missing
       (touch_bank (find_missing_rows padded_gap_finder 16 19) 9) 9 1 3 = Some b
     /\ (b = true
         <-> exists page,
               16 <= page <= 19
               /\ contains (finder padded_gap_finder) page = false
               /\ DRAM.bank (DRAMAddr_of_phys (layout padded_gap_finder)
                               (page_2_phys page)) = 9
               /\ 1 - row_padding padded_gap_finder
                  <= row (DRAMAddr_of_phys (layout padded_gap_finder)
                            (page_2_phys page))
                  <= 3 + row_padding padded_gap_finder))
  /\ (hammer (touch_bank (find_missing_rows padded_gap_finder 16 19) 9)
        false 9 1 3 = Some (true, Skipped)
      <-> exists page,
            16 <= page <= 19
            /\ contains (finder padded_gap_finder) page = false
            /\ DRAM.bank (DRAMAddr_of_phys (layout padded_gap_finder)
                            (page_2_phys page)) = 9
            /\ 1 - row_padding padded_gap_finder
               <= row (DRAMAddr_of_phys (layout padded_gap_finder)
                         (page_2_phys page))
               <= 3 + row_padding padded_gap_finder)
  /\ (forall flag step,
        hammer (touch_bank (find_missing_rows padded_gap_finder 16 19) 9)
          false 9 1 3 = Some (flag, step) ->
        step = Skipped ->
        flag = true
        /\ exists page,
             16 <= page <= 19
             /\ contains (finder padded_gap_finder) page = false
             /\ DRAM.bank (DRAMAddr_of_phys (layout padded_gap_finder)
                             (page_2_phys page)) = 9
             /\ 1 - row_padding padded_gap_finder
                <= row (DRAMAddr_of_phys (layout padded_gap_finder)
                          (page_2_phys page))
                <= 3 + row_padding padded_gap_finder).
Proof.
  apply (window_skipped_iff_page_missing padded_gap_finder false 9 16 19 1 3).
  - reflexivity.
  - lia.
  - lia.
  - cbn. lia.
  - lia.
  - cbn. lia.
Defined.

(** The two cases on that finder: the window of rows 1 to 3 of bank 9 is
    skipped; the window of rows 2 to 4, whose padded interval starts above
    row 0, is not, and [hammer] goes on to look for its pages. *)
Lemma padded_gap_windows :
  hammer (touch_bank (find_missing_rows padded_gap_finder 16 19) 9)
    false 9 1 3 = Some (true, Skipped)
  /\ is_any_row_missing
       (touch_bank (find_missing_rows padded_gap_finder 16 19) 9) 9 2 4
     = Some false
  /\ hammer (touch_bank (find_missing_rows padded_gap_finder 16 19) 9)
       false 9 2 4 = Some (false, PagesNotFound).
Proof. split; [|split]; vm_compute; reflexivity. Qed.

End MissingRowsBuilt.

(** ** The row bounds of a bank *)

Section RowBounds.
Import Bits DRAM PageFinder PageMapBuild Flipper Noncontiguous NoncontiguousRun.

Lemma first_row_loop_spec F bank (n : nat) : forall p,
  0 <= p -> p + Z.of_nat n <= 2 ^ 64 - 1 ->
  lowest_owned_row F bank p (p + Z.of_nat n - 1) (first_row_loop F bank n p).
Proof.
  induction n as [|n IH]; intros p Hp Hfit; cbn [first_row_loop].
  - right. split; [|reflexivity]. intros q Hq. lia.
  - destruct (owned_in_bank F bank p) eqn:Eo.
    + left. exists p. split; [lia|]. split; [exact Eo|].
      split; [intros q Hq; lia|reflexivity].
    + rewrite wrap64_small by lia.
      destruct (IH (p + 1) ltac:(lia) ltac:(lia))
        as [(lo & Hlo & Ho & Hbelow & Hr)|(Hnone & Hr)].
      * left. exists lo. split; [lia|]. split; [exact Ho|]. split; [|exact Hr].
        intros q Hq. destruct (decide (q = p)) as [->|Hne]; [exact Eo|].
        apply Hbelow. lia.
      * right. split; [|exact Hr]. intros q Hq.
        destruct (decide (q = p)) as [->|Hne]; [exact Eo|]. apply Hnone. lia.
Qed.

Lemma last_row_loop_spec F bank (n : nat) : forall p,
  0 <= p < Z.of_nat n ->
  highest_owned_row_below F bank p (last_row_loop F bank n p).
Proof.
  induction n as [|n IH]; intros p Hp; [lia|]. cbn [last_row_loop].
  destruct (Z.ltb_spec 0 p) as [Hpos|Hzero].
  - destruct (owned_in_bank F bank (p - 1)) eqn:Eo.
    + left. exists (p - 1). split; [lia|]. split; [exact Eo|].
      split; [intros q Hq; lia|reflexivity].
    + destruct (IH (p - 1) ltac:(lia))
        as [(hi & Hhi & Ho & Habove & Hr)|(Hnone & Hr)].
      * left. exists hi. split; [lia|]. split; [exact Ho|]. split; [|exact Hr].
        intros q Hq. destruct (decide (q = p - 1)) as [->|Hne]; [exact Eo|].
        apply Habove. lia.
      * right. split; [|exact Hr]. intros q Hq.
        destruct (decide (q = p - 1)) as [->|Hne]; [exact Eo|]. apply Hnone. lia.
  - right. split; [|reflexivity]. intros q Hq. lia.
Qed.

(** X14: what [get_row_bounds] returns. The lower bound comes from the
    lowest page between [first_page] and [last_page] that the page map holds
    in the bank; the upper bound from the highest such page strictly below
    [last_page], as the downward loop decrements before it looks, and it
    goes on below [first_page] down to page 0; a non-zero [test_first_row]
    or [test_last_row] then narrows the bound; and the result is returned
    only when the lower bound is not above the upper one. *)
Theorem get_row_bounds_pages F test_first_row test_last_row bank
    first_page last_page first_row last_row :
  0 <= first_page < 2 ^ 64 ->
  0 <= last_page < 2 ^ 64 - 1 ->
  get_row_bounds F test_first_row test_last_row bank first_page last_page
  = Some (first_row, last_row) ->
  first_row <= last_row
  /\ exists lowest highest,
       lowest_owned_row F bank first_page last_page lowest
       /\ highest_owned_row_below F bank last_page highest
       /\ first_row
          = (if test_first_row =? 0 then lowest
             else Z.max lowest test_first_row)
       /\ last_row
          = (if test_last_row =? 0 then highest
             else Z.min highest test_last_row).
Proof.
  intros Hfirst Hlast. unfold get_row_bounds.
  set (lowest := first_row_loop F bank (Z.to_nat (last_page - first_page + 1))
                   first_page).
  set (highest := last_row_loop F bank (S (Z.to_nat last_page)) last_page).
  destruct (Z.leb_spec (if test_first_row =? 0 then lowest
                        else Z.max lowest test_first_row)
              (if test_last_row =? 0 then highest
               else Z.min highest test_last_row)) as [Hle|Hgt]; [|discriminate].
  intros [= <- <-]. split; [exact Hle|]. exists lowest, highest.
  split; [|split; [|split; reflexivity]].
  - unfold lowest. destruct (Z.le_gt_cases first_page last_page) as [Hfl|Hfl].
    + pose proof (first_row_loop_spec F bank
                    (Z.to_nat (last_page - first_page + 1)) first_page) as H.
      rewrite Z2Nat.id in H by lia.
      replace (first_page + (last_page - first_page + 1) - 1) with last_page
        in H by lia.
      apply H; lia.
    + rewrite Z2Nat.nonpos by lia. cbn [first_row_loop]. right.
      split; [intros q Hq; lia|reflexivity].
  - unfold highest. apply last_row_loop_spec. lia.
Qed.

Lemma get_row_bounds_pages_witness :
  0 <= 0 /\ exists lowest highest,
       lowest_owned_row gap_finder 8 16 19 lowest
       /\ highest_owned_row_below gap_finder 8 19 highest
       /\ 0 = (if 0 =? 0 then lowest else Z.max lowest 0)
       /\ 0 = (if 0 =? 0 then highest else Z.min highest 0).
Proof.
  apply (get_row_bounds_pages gap_finder 0 0 8 16 19 0 0).
  - lia.
  - lia.
  - vm_compute. reflexivity.
Defined.

End RowBounds.

(** ** The windows of [default_test] and [fast_test] *)

Section DefaultTest.
Import Bits DRAM PageFinder PageMapBuild Flipper Noncontiguous NoncontiguousRun.

Variable hammer_fn : Z -> Z -> Z -> bool.

Lemma default_loop_spec bank bound rows (n : nat) : forall row,
  0 <= row -> 1 <= rows -> bound + rows < 2 ^ 64 ->
  bound - row + 2 <= Z.of_nat n -> 1 <= Z.of_nat n ->
  exists result k,
    default_loop hammer_fn bank bound rows n row
    = Some (result, map (window row rows) (seqZ 0 k))
    /\ 0 <= k <= Z.max 0 (bound - row + 1)
    /\ (forall i, 0 <= i < k - 1 ->
          hammer_fn bank (row + i) (row + i + rows - 1) = true)
    /\ (if result
        then k = Z.max 0 (bound - row + 1)
             /\ forall i, 0 <= i < k ->
                  hammer_fn bank (row + i) (row + i + rows - 1) = true
        else 0 < k
             /\ hammer_fn bank (row + (k - 1)) (row + (k - 1) + rows - 1) = false).
Proof.
  induction n as [|n IH]; intros row Hrow Hrows Hfit Hfuel Hn; [lia|].
  cbn [default_loop]. destruct (Z.leb_spec row bound) as [Hin|Hout].
  - rewrite (wrap64_small (row + rows)) by lia.
    rewrite (wrap64_small (row + rows - 1)) by lia.
    destruct (hammer_fn bank row (row + rows - 1)) eqn:Eh.
    + rewrite wrap64_small by lia.
      destruct (IH (row + 1)) as (result & k & -> & Hk & Hbefore & Hres); try lia.
      exists result, (k + 1). split.
      { rewrite (seqZ_cons 0 (k + 1)) by lia.
        replace (Z.pred (k + 1)) with k by lia.
        change (Z.succ 0) with (1 + 0).
        rewrite <- (fmap_add_seqZ 1 0 k). cbn [map].
        unfold window at 2. rewrite Z.add_0_r. do 3 f_equal.
        rewrite <- list_fmap_compose.
        transitivity (map (window row rows ∘ Z.add 1) (seqZ 0 k)); [|reflexivity].
        apply map_ext. intros i. unfold compose, window. f_equal; lia. }
      split; [lia|]. split.
      { intros i Hi. destruct (decide (i = 0)) as [->|Hne].
        - rewrite Z.add_0_r. exact Eh.
        - replace (row + i) with (row + 1 + (i - 1)) by lia.
          apply Hbefore. lia. }
      destruct result.
      * destruct Hres as [Hk' Hall]. split; [lia|].
        intros i Hi. destruct (decide (i = 0)) as [->|Hne].
        -- rewrite Z.add_0_r. exact Eh.
        -- replace (row + i) with (row + 1 + (i - 1)) by lia. apply Hall. lia.
      * destruct Hres as [Hk' Hlast]. split; [lia|].
        replace (row + (k + 1 - 1)) with (row + 1 + (k - 1)) by lia. exact Hlast.
    + exists false, 1. split.
      { change (seqZ 0 1) with [0]. cbn [map]. unfold window.
        rewrite Z.add_0_r. reflexivity. }
      split; [lia|]. split; [intros i Hi; lia|]. split; [lia|].
      replace (row + (1 - 1)) with row by lia. exact Eh.
  - exists true, 0. split; [reflexivity|]. split; [lia|].
    split; [intros i Hi; lia|]. split; [lia|intros i Hi; lia].
Qed.

(** X15: [default_test] on a bank with at least as many rows as the pattern
    is long. It calls [hammer] on the windows of [hammer_rows] rows that
    start at [first_row], [first_row + 1], and so on, in this order; every
    window lies between [first_row] and [last_row]; it stops with false at
    the first call that returns false, and otherwise returns true after the
    window that ends at [last_row]. *)
Theorem default_test_windows rows bank first_row last_row :
  1 <= rows ->
  0 <= first_row ->
  rows <= last_row + 1 ->
  last_row < 2 ^ 64 - 1 ->
  exists result k,
    default_test hammer_fn rows bank first_row last_row
    = Some (result, map (window first_row rows) (seqZ 0 k))
    /\ 0 <= k <= Z.max 0 (last_row - rows + 2 - first_row)
    /\ (forall i, 0 <= i < k ->
          first_row <= fst (window first_row rows i)
          /\ snd (window first_row rows i) <= last_row)
    /\ (forall i, 0 <= i < k - 1 ->
          hammer_fn bank (first_row + i) (first_row + i + rows - 1) = true)
    /\ (if result
        then k = Z.max 0 (last_row - rows + 2 - first_row)
             /\ forall i, 0 <= i < k ->
                  hammer_fn bank (first_row + i) (first_row + i + rows - 1) = true
        else 0 < k
             /\ hammer_fn bank (first_row + (k - 1))
                  (first_row + (k - 1) + rows - 1) = false).
Proof using Type.
  intros Hrows Hfirst Hfit Hlast. unfold default_test.
  assert (Hbound : wrap64 (wrap64 (last_row - rows) + 1) = last_row - rows + 1).
  { unfold wrap64. rewrite Zplus_mod_idemp_l. apply Z.mod_small. lia. }
  rewrite Hbound.
  destruct (default_loop_spec bank (last_row - rows + 1) rows
              (S (Z.to_nat (last_row - rows + 1 - first_row + 1))) first_row)
    as (result & k & Hrun & Hk & Hbefore & Hres); [lia|lia|lia| |lia|].
  { rewrite Nat2Z.inj_succ.
    destruct (Z.le_gt_cases 0 (last_row - rows + 1 - first_row + 1)).
    - rewrite Z2Nat.id by lia. lia.
    - rewrite Z2Nat.nonpos by lia. cbn. lia. }
  exists result, k. split; [exact Hrun|].
  replace (last_row - rows + 1 - first_row + 1)
    with (last_row - rows + 2 - first_row) in * by lia.
  split; [exact Hk|]. split; [|split; [exact Hbefore|exact Hres]].
  intros i Hi. unfold window. cbn [fst snd]. lia.
Qed.

Lemma wrapped_windows_cons row rows m :
  0 <= m ->
  map (wrapped_window row rows) (seqZ 0 (m + 1))
  = (row, wrap64 (wrap64 (row + rows) - 1))
    :: map (wrapped_window (row + 1) rows) (seqZ 0 m).
Proof.
  intros Hm. rewrite (seqZ_cons 0 (m + 1)) by lia.
  replace (Z.pred (m + 1)) with m by lia.
  change (Z.succ 0) with (1 + 0).
  rewrite <- (fmap_add_seqZ 1 0 m). cbn [map].
  unfold wrapped_window at 1. rewrite Z.add_0_r. f_equal.
  rewrite <- list_fmap_compose.
  transitivity (map (wrapped_window row rows ∘ Z.add 1) (seqZ 0 m)); [reflexivity|].
  apply map_ext. intros i. unfold compose, wrapped_window.
  replace (row + (1 + i)) with (row + 1 + i) by lia. reflexivity.
Qed.

(** The loop up to the first call that returns false. *)
Lemma default_loop_false bank bound rows : forall (k n : nat) row,
  0 <= row -> row + Z.of_nat k <= bound -> bound < 2 ^ 64 -> (k < n)%nat ->
  (forall i, 0 <= i < Z.of_nat k ->
     hammer_fn bank (fst (wrapped_window row rows i))
       (snd (wrapped_window row rows i)) = true) ->
  hammer_fn bank (fst (wrapped_window row rows (Z.of_nat k)))
    (snd (wrapped_window row rows (Z.of_nat k))) = false ->
  default_loop hammer_fn bank bound rows n row
  = Some (false, map (wrapped_window row rows) (seqZ 0 (Z.of_nat k + 1))).
Proof using Type.
  induction k as [|k IH]; intros n row Hrow Hk Hbound Hn Htrue Hfalse;
    (destruct n as [|n]; [lia|]); cbn [default_loop];
    (destruct (Z.leb_spec row bound) as [_|Hgt]; [|lia]).
  - unfold wrapped_window in Hfalse. cbn [fst snd] in Hfalse.
    change (Z.of_nat 0) with 0 in Hfalse. rewrite Z.add_0_r in Hfalse.
    rewrite Hfalse. change (seqZ 0 (Z.of_nat 0 + 1)) with [0].
    cbn [map]. unfold wrapped_window. rewrite Z.add_0_r. reflexivity.
  - pose proof (Htrue 0 ltac:(lia)) as H0.
    unfold wrapped_window in H0. cbn [fst snd] in H0. rewrite Z.add_0_r in H0.
    rewrite H0. rewrite (wrap64_small (row + 1)) by lia.
    rewrite (IH n (row + 1)); try lia.
    + rewrite (wrapped_windows_cons row rows (Z.of_nat (S k))) by lia.
      replace (Z.of_nat (S k)) with (Z.of_nat k + 1) by lia. reflexivity.
    + intros i Hi. specialize (Htrue (i + 1) ltac:(lia)).
      unfold wrapped_window in *. cbn [fst snd] in *.
      replace (row + 1 + i) with (row + (i + 1)) by lia. exact Htrue.
    + unfold wrapped_window in *. cbn [fst snd] in *.
      replace (row + 1 + Z.of_nat k) with (row + Z.of_nat (S k)) by lia.
      exact Hfalse.
Qed.

(** The loop when every call up to the bound returns true. *)
Lemma default_loop_true bank bound rows : forall (k n : nat) row,
  0 <= row -> row + Z.of_nat k = bound + 1 -> bound + 1 < 2 ^ 64 -> (k < n)%nat ->
  (forall i, 0 <= i < Z.of_nat k ->
     hammer_fn bank (fst (wrapped_window row rows i))
       (snd (wrapped_window row rows i)) = true) ->
  default_loop hammer_fn bank bound rows n row
  = Some (true, map (wrapped_window row rows) (seqZ 0 (Z.of_nat k))).
Proof using Type.
  induction k as [|k IH]; intros n row Hrow Hk Hbound Hn Htrue;
    (destruct n as [|n]; [lia|]); cbn [default_loop].
  - destruct (Z.leb_spec row bound) as [Hle|_]; [lia|]. reflexivity.
  - destruct (Z.leb_spec row bound) as [_|Hgt]; [|lia].
    pose proof (Htrue 0 ltac:(lia)) as H0.
    unfold wrapped_window in H0. cbn [fst snd] in H0. rewrite Z.add_0_r in H0.
    rewrite H0. rewrite (wrap64_small (row + 1)) by lia.
    rewrite (IH n (row + 1)); try lia.
    + replace (Z.of_nat (S k)) with (Z.of_nat k + 1) by lia.
      rewrite (wrapped_windows_cons row rows (Z.of_nat k)) by lia. reflexivity.
    + intros i Hi. specialize (Htrue (i + 1) ltac:(lia)).
      unfold wrapped_window in *. cbn [fst snd] in *.
      replace (row + 1 + i) with (row + (i + 1)) by lia. exact Htrue.
Qed.

(** With the bound at [2 ^ 64 - 1] the test [row <= bound] never fails. *)
Lemma default_loop_endless bank rows :
  (forall a b, hammer_fn bank a b = true) ->
  forall (n : nat) row, 0 <= row < 2 ^ 64 ->
  default_loop hammer_fn bank (2 ^ 64 - 1) rows n row = None.
Proof using Type.
  intros Hall. induction n as [|n IH]; intros row Hrow; [reflexivity|].
  cbn [default_loop].
  destruct (Z.leb_spec row (2 ^ 64 - 1)) as [_|Hgt]; [|lia].
  rewrite Hall. rewrite IH; [reflexivity|].
  unfold wrap64. apply Z.mod_pos_bound. lia.
Qed.

(** X16: [default_test] on a bank with fewer rows than the pattern is long.
    The loop bound [last_row - hammer_rows + 1] wraps around to
    [2 ^ 64 + last_row - hammer_rows + 1], so the loop is entered: [hammer]
    is called on the window that starts at [first_row], which reaches past
    [last_row], and then on the windows one row further up each time.  The
    test returns false right after the first call that returns false, and
    not before; if no call up to the wrapped bound returns false, it
    returns true after all of them when [hammer_rows > last_row + 2], and
    never returns when [hammer_rows = last_row + 2], where the bound is
    [2 ^ 64 - 1]. *)
Theorem default_test_short_bank rows bank first_row last_row :
  0 <= first_row <= last_row ->
  last_row + 1 < rows ->
  rows < 2 ^ 32 ->
  last_row < snd (wrapped_window first_row rows 0)
  /\ wrapped_window first_row rows 0 = (first_row, first_row + rows - 1)
  /\ (forall k,
        0 <= k <= 2 ^ 64 + last_row - rows + 1 - first_row ->
        (forall i, 0 <= i < k ->
           hammer_fn bank (fst (wrapped_window first_row rows i))
             (snd (wrapped_window first_row rows i)) = true) ->
        hammer_fn bank (fst (wrapped_window first_row rows k))
          (snd (wrapped_window first_row rows k)) = false ->
        default_test hammer_fn rows bank first_row last_row
        = Some (false, map (wrapped_window first_row rows) (seqZ 0 (k + 1))))
  /\ (last_row + 2 < rows ->
      (forall i, 0 <= i <= 2 ^ 64 + last_row - rows + 1 - first_row ->
         hammer_fn bank (fst (wrapped_window first_row rows i))
           (snd (wrapped_window first_row rows i)) = true) ->
      default_test hammer_fn rows bank first_row last_row
      = Some (true,
              map (wrapped_window first_row rows)
                (seqZ 0 (2 ^ 64 + last_row - rows + 2 - first_row))))
  /\ (rows = last_row + 2 ->
      (forall a b, hammer_fn bank a b = true) ->
      forall n : nat,
        default_loop hammer_fn bank (wrap64 (wrap64 (last_row - rows) + 1)) rows
          n first_row = None).
Proof using Type.
  intros Hfl Hshort Hrows.
  assert (Hbound : wrap64 (wrap64 (last_row - rows) + 1)
                   = 2 ^ 64 + last_row - rows + 1).
  { unfold wrap64. rewrite Zplus_mod_idemp_l.
    replace (last_row - rows + 1) with (2 ^ 64 + last_row - rows + 1 + (-1) * 2 ^ 64)
      by lia.
    rewrite Z.mod_add by lia. apply Z.mod_small. lia. }
  assert (Hw0 : wrapped_window first_row rows 0 = (first_row, first_row + rows - 1)).
  { unfold wrapped_window. rewrite Z.add_0_r.
    rewrite (wrap64_small (first_row + rows)) by lia.
    rewrite wrap64_small by lia. reflexivity. }
  split; [rewrite Hw0; cbn [snd]; lia|]. split; [exact Hw0|].
  unfold default_test. rewrite Hbound.
  set (bound := 2 ^ 64 + last_row - rows + 1).
  assert (Hfuel : Z.of_nat (S (Z.to_nat (bound - first_row + 1)))
                  = bound - first_row + 2).
  { rewrite Nat2Z.inj_succ, Z2Nat.id by (unfold bound; lia). lia. }
  split; [|split].
  - intros k Hk Htrue Hfalse.
    rewrite <- (Z2Nat.id k) in Htrue, Hfalse |- * by lia.
    apply default_loop_false; try assumption; unfold bound in *; lia.
  - intros Hmore Htrue.
    replace (2 ^ 64 + last_row - rows + 2 - first_row)
      with (Z.of_nat (Z.to_nat (bound - first_row + 1)))
      by (rewrite Z2Nat.id by (unfold bound; lia); unfold bound; lia).
    apply default_loop_true; unfold bound in *; try lia.
    intros i Hi. apply Htrue. lia.
  - intros Hrow Hall n.
    replace bound with (2 ^ 64 - 1) by (unfold bound; lia).
    apply default_loop_endless; [exact Hall|lia].
Qed.

Lemma fast_loop_spec bank bound rows (n : nat) : forall row,
  0 <= row -> 2 <= rows < 2 ^ 32 -> bound + rows < 2 ^ 64 ->
  bound - row + 2 <= Z.of_nat n -> 1 <= Z.of_nat n ->
  exists result calls,
    fast_loop hammer_fn bank bound rows n row = Some (result, calls)
    /\ (forall w, In w calls ->
          row <= fst w /\ snd w <= bound + rows /\ snd w = fst w + rows - 1)
    /\ ((forall a b, hammer_fn bank a b = true) ->
        result = true
        /\ ((bound - row) mod (rows - 1) = 0 -> row <= bound ->
            In (bound + 1, bound + rows) calls)).
Proof using Type.
  induction n as [|n IH]; intros row Hrow Hrows Hfit Hfuel Hn; [lia|].
  cbn [fast_loop]. destruct (Z.leb_spec row bound) as [Hin|Hout].
  - rewrite (wrap64_small (row + rows)) by lia.
    rewrite (wrap64_small (row + rows - 1)) by lia.
    rewrite (wrap64_small (row + 1)) by lia.
    rewrite (wrap64_small (row + rows - 1 + 1)) by lia.
    rewrite (wrap32_small (rows - 1)) by lia.
    rewrite (wrap64_small (row + (rows - 1))) by lia.
    destruct (hammer_fn bank row (row + rows - 1)) eqn:E1.
    + destruct (hammer_fn bank (row + 1) (row + rows - 1 + 1)) eqn:E2.
      * destruct (IH (row + (rows - 1))) as (result & calls & -> & Hcalls & Htrue);
          try lia.
        exists result, ((row, row + rows - 1) :: (row + 1, row + rows - 1 + 1) :: calls).
        split; [reflexivity|]. split.
        -- intros w [<-|[<-|Hw]]; cbn [fst snd]; try lia.
           specialize (Hcalls w Hw). lia.
        -- intros Hall. destruct (Htrue Hall) as [-> Hlast].
           split; [reflexivity|]. intros Hmod _.
           destruct (Z.eq_dec row bound) as [->|Hne].
           ++ right. left. f_equal. lia.
           ++ right. right. apply Hlast.
              ** replace (bound - (row + (rows - 1)))
                   with (bound - row + (-1) * (rows - 1)) by lia.
                 rewrite Z.mod_add by lia. exact Hmod.
              ** pose proof (Z.div_mod (bound - row) (rows - 1) ltac:(lia)) as Hdm.
                 rewrite Hmod in Hdm.
                 assert (0 < (bound - row) / (rows - 1)) by nia.
                 nia.
      * exists false, [(row, row + rows - 1); (row + 1, row + rows - 1 + 1)].
        split; [reflexivity|]. split.
        -- intros w [<-|[<-|[]]]; cbn [fst snd]; lia.
        -- intros Hall. rewrite Hall in E2. discriminate.
    + exists false, [(row, row + rows - 1)]. split; [reflexivity|]. split.
      * intros w [<-|[]]. cbn [fst snd]. lia.
      * intros Hall. rewrite Hall in E1. discriminate.
  - exists true, []. split; [reflexivity|]. split; [intros w []|].
    intros _. split; [reflexivity|]. intros _ Hle. lia.
Qed.

(** X22: [fast_test] can reach one row past [last_row]. On a bank with at
    least [hammer_rows] rows it terminates, and every window it calls
    [hammer] on has [hammer_rows] rows and lies between [first_row] and
    [last_row + 1]: the second call of a round is one row above the first.
    When every call returns true and the rounds end exactly at the loop
    bound, the window from [last_row - hammer_rows + 2] to [last_row + 1] is
    hammered. *)
Theorem fast_test_windows rows bank first_row last_row :
  2 <= rows < 2 ^ 32 ->
  0 <= first_row ->
  rows <= last_row + 1 ->
  last_row < 2 ^ 64 - 1 ->
  exists result calls,
    fast_test hammer_fn rows bank first_row last_row = Some (result, calls)
    /\ (forall w, In w calls ->
          first_row <= fst w /\ snd w <= last_row + 1
          /\ snd w = fst w + rows - 1)
    /\ ((forall a b, hammer_fn bank a b = true) ->
        result = true
        /\ ((last_row - rows + 1 - first_row) mod (rows - 1) = 0 ->
            first_row <= last_row - rows + 1 ->
            In (last_row - rows + 2, last_row + 1) calls)).
Proof using Type.
  intros Hrows Hfirst Hfit Hlast. unfold fast_test.
  assert (Hbound : wrap64 (wrap64 (last_row - rows) + 1) = last_row - rows + 1).
  { unfold wrap64. rewrite Zplus_mod_idemp_l. apply Z.mod_small. lia. }
  rewrite Hbound.
  destruct (fast_loop_spec bank (last_row - rows + 1) rows
              (S (Z.to_nat (last_row - rows + 1 - first_row + 1))) first_row)
    as (result & calls & Hrun & Hcalls & Htrue); [lia|lia|lia| |lia|].
  { rewrite Nat2Z.inj_succ.
    destruct (Z.le_gt_cases 0 (last_row - rows + 1 - first_row + 1)).
    - rewrite Z2Nat.id by lia. lia.
    - rewrite Z2Nat.nonpos by lia. cbn. lia. }
  exists result, calls. split; [exact Hrun|]. split.
  - intros w Hw. specialize (Hcalls w Hw). lia.
  - intros Hall. destruct (Htrue Hall) as [-> Hin]. split; [reflexivity|].
    intros Hmod Hle.
    replace (last_row - rows + 2) with (last_row - rows + 1 + 1) by lia.
    replace (last_row + 1) with (last_row - rows + 1 + rows) by lia.
    apply Hin; assumption.
Qed.

End DefaultTest.

Section DefaultTestRuns.
Import Bits NoncontiguousRun.

Lemma default_test_windows_witness :
  exists result k,
    default_test (fun _ _ _ => true) 3 0 5 9
    = Some (result, map (window 5 3) (seqZ 0 k))
    /\ 0 <= k <= Z.max 0 (9 - 3 + 2 - 5)
    /\ (forall i, 0 <= i < k ->
          5 <= fst (window 5 3 i) /\ snd (window 5 3 i) <= 9)
    /\ (forall i, 0 <= i < k - 1 ->
          (fun _ _ _ : Z => true) 0 (5 + i) (5 + i + 3 - 1) = true)
    /\ (if result
        then k = Z.max 0 (9 - 3 + 2 - 5)
             /\ forall i, 0 <= i < k ->
                  (fun _ _ _ : Z => true) 0 (5 + i) (5 + i + 3 - 1) = true
        else 0 < k
             /\ (fun _ _ _ : Z => true) 0 (5 + (k - 1)) (5 + (k - 1) + 3 - 1)
                = false).
Proof.
  apply (default_test_windows (fun _ _ _ => true) 3 0 5 9); lia.
Defined.

(** Rows 2 and 3 of a bank and a pattern of 49 rows, with a [hammer] that
    returns true below row 4: the windows at rows 2, 3 and 4 are hammered,
    all of them past row 3, and the third call ends the test. *)
Lemma default_test_short_bank_witness :
  default_test (fun _ first_victim _ => first_victim <? 4) 49 0 2 3
  = Some (false, [(2, 50); (3, 51); (4, 52)]).
Proof.
  destruct (default_test_short_bank (fun _ first_victim _ => first_victim <? 4)
              49 0 2 3) as (_ & _ & Hfalse & _); [lia|lia|lia|].
  apply (Hfalse 2).
  - lia.
  - intros i Hi. cbn [fst snd wrapped_window]. apply Z.ltb_lt. lia.
  - reflexivity.
Defined.

Lemma fast_test_windows_witness :
  exists result calls,
    fast_test (fun _ _ _ => true) 3 0 5 9 = Some (result, calls)
    /\ (forall w, In w calls ->
          5 <= fst w /\ snd w <= 9 + 1 /\ snd w = fst w + 3 - 1)
    /\ ((forall a b, (fun _ _ _ : Z => true) 0 a b = true) ->
        result = true
        /\ ((9 - 3 + 1 - 5) mod (3 - 1) = 0 ->
            5 <= 9 - 3 + 1 ->
            In (9 - 3 + 2, 9 + 1) calls)).
Proof.
  apply (fast_test_windows (fun _ _ _ => true) 3 0 5 9); lia.
Defined.

End DefaultTestRuns.

(** ** Runs of contiguous pages *)

Section Runs.
Import Bits PageFinder NoncontiguousRun ContiguousRun.

Lemma pages_In finder p :
  In p (pages finder) <-> is_Some (pagemap finder !! p).
Proof.
  unfold pages. rewrite <- list_elem_of_In.
  rewrite (merge_sort_Permutation Z.le (map fst (map_to_list (pagemap finder)))).
  rewrite list_elem_of_In, List.in_map_iff. split.
  - intros ([k v] & <- & Hin). apply list_elem_of_In, elem_of_map_to_list in Hin.
    cbn. eauto.
  - intros [v Hv]. exists (p, v). split; [reflexivity|].
    apply list_elem_of_In, elem_of_map_to_list. exact Hv.
Qed.

Lemma sorted_le_nodup (l : list Z) :
  StronglySorted Z.le l -> NoDup l -> StronglySorted Z.lt l.
Proof.
  induction 1 as [|x l Hl IH Hx]; intros Hnd; [constructor|].
  apply NoDup_cons in Hnd as [Hnotin Hnd].
  constructor; [apply IH; exact Hnd|].
  rewrite List.Forall_forall in *. intros y Hy.
  specialize (Hx y Hy).
  assert (y <> x) by (intros ->; apply Hnotin, list_elem_of_In; exact Hy). lia.
Qed.

Lemma pages_sorted finder : StronglySorted Z.lt (pages finder).
Proof.
  apply sorted_le_nodup.
  - unfold pages. apply StronglySorted_merge_sort; apply _.
  - unfold pages.
    rewrite (merge_sort_Permutation Z.le (map fst (map_to_list (pagemap finder)))).
    apply (NoDup_fst_map_to_list (pagemap finder)).
Qed.

Lemma contains_key finder q :
  0 <= q < 2 ^ 32 -> is_Some (pagemap finder !! q) -> contains finder q = true.
Proof.
  intros Hq Hk. unfold contains. rewrite wrap32_small by lia.
  apply bool_decide_eq_true_2. exact Hk.
Qed.

Lemma sorted_cons_inv (x : Z) l :
  StronglySorted Z.lt (x :: l) ->
  StronglySorted Z.lt l /\ forall y, In y l -> x < y.
Proof.
  intros H. inversion H as [|? ? Hl Hx]; subst. split; [exact Hl|].
  rewrite List.Forall_forall in Hx. exact Hx.
Qed.

Lemma run_loop_spec (keyP : Z -> Prop) min_length :
  0 <= min_length ->
  forall todo first_page last_page prev_page,
  StronglySorted Z.lt (prev_page :: todo) ->
  (forall k, In k todo -> keyP k /\ k < 2 ^ 32) ->
  (forall k, keyP k -> prev_page < k -> In k todo) ->
  0 <= first_page <= prev_page ->
  (forall q, first_page <= q <= prev_page -> keyP q) ->
  ~ keyP (first_page - 1) ->
  (forall a, (forall q, a <= q <= a + min_length + 1 -> keyP q) ->
             prev_page < a + min_length + 1) ->
  match run_loop todo first_page last_page prev_page min_length with
  | (true, f, l) =>
      l = f + min_length + 1
      /\ (forall q, f <= q <= l -> keyP q)
      /\ (forall a, (forall q, a <= q <= a + min_length + 1 -> keyP q) -> f <= a)
  | (false, _, _) =>
      forall a, ~ (forall q, a <= q <= a + min_length + 1 -> keyP q)
  end.
Proof.
  intros Hmin. induction todo as [|page rest IH];
    intros first_page last_page prev_page Hsorted Hkeys Hall Hfirst Hrange Hleft Hnone.
  - cbn [run_loop]. intros a Hwin.
    pose proof (Hnone a Hwin) as Hlt.
    apply (Hall (a + min_length + 1)); [apply Hwin; lia|lia].
  - apply sorted_cons_inv in Hsorted as [Hsorted Hgt].
    pose proof (Hgt page ltac:(left; reflexivity)) as Hpage.
    destruct (Hkeys page ltac:(left; reflexivity)) as [Hkpage Hpage32].
    destruct (sorted_cons_inv _ _ Hsorted) as [_ Hrest].
    assert (Hkeys' : forall k, In k rest -> keyP k /\ k < 2 ^ 32).
    { intros k Hk. apply Hkeys. right. exact Hk. }
    assert (Hall' : forall k, keyP k -> page < k -> In k rest).
    { intros k Hk Hlt. destruct (Hall k Hk ltac:(lia)) as [<-|Hin]; [lia|exact Hin]. }
    assert (Hbetween : forall k, keyP k -> prev_page < k -> page <= k).
    { intros k Hk Hlt. destruct (Hall k Hk Hlt) as [<-|Hin]; [lia|].
      specialize (Hrest k Hin). lia. }
    cbn [run_loop]. rewrite wrap64_small by lia.
    destruct (Z.eqb_spec page (prev_page + 1)) as [Hnext|Hgap]; cbn [negb].
    + destruct (Z.ltb_spec first_page page) as [_|Hge]; [|lia].
      rewrite wrap64_small by lia. cbn [andb].
      assert (Hshort : prev_page - first_page <= min_length).
      { destruct (Z.le_gt_cases (prev_page - first_page) min_length) as [H|H];
          [exact H|].
        exfalso.
        assert (prev_page < prev_page - min_length - 1 + min_length + 1); [|lia].
        apply Hnone. intros q Hq. apply Hrange. lia. }
      assert (Hrange' : forall q, first_page <= q <= page -> keyP q).
      { intros q Hq. destruct (decide (q = page)) as [->|Hne]; [exact Hkpage|].
        apply Hrange. lia. }
      destruct (Z.ltb_spec min_length (page - first_page)) as [Hlong|Hnot].
      * split; [lia|]. split; [exact Hrange'|].
        intros a Hwin. specialize (Hnone a Hwin). lia.
      * apply IH; try assumption; try lia.
        intros a Hwin. pose proof (Hnone a Hwin) as Hlt.
        destruct (Z.le_gt_cases (a + min_length + 1) page) as [Hle|Hgt']; [|lia].
        exfalso. apply Hleft. apply Hwin. lia.
    + assert (Hleft' : ~ keyP (page - 1)).
      { intros Hk. pose proof (Hbetween (page - 1) Hk ltac:(lia)). lia. }
      apply IH; try assumption; try lia.
      * intros q Hq. replace q with page by lia. exact Hkpage.
      * intros a Hwin. pose proof (Hnone a Hwin) as Hlt.
        destruct (Z.le_gt_cases (a + min_length + 1) page) as [Hle|Hgt']; [|lia].
        exfalso.
        pose proof (Hbetween (a + min_length + 1)
                      ltac:(apply Hwin; lia) Hlt) as Hge.
        apply Hleft'. apply Hwin. lia.
Qed.

(** X17: [find_run] finds the first run. For a page map whose keys are
    32-bit frame numbers other than 0: when it returns true, the pages from
    [first_page] to [last_page] are all in the page map, there are exactly
    [min_length + 2] of them, and no stretch of [min_length + 2] consecutive
    pages of the page map starts below [first_page]; when it returns false,
    the page map holds no such stretch at all. *)
Theorem find_run_first_stretch finder first_page0 last_page0 min_length :
  (forall k v, pagemap finder !! k = Some v -> 0 < k < 2 ^ 32) ->
  0 <= min_length ->
  match find_run finder first_page0 last_page0 min_length with
  | (true, first_page, last_page) =>
      last_page = first_page + min_length + 1
      /\ (forall q, first_page <= q <= last_page ->
            is_Some (pagemap finder !! q))
      /\ (forall a,
            (forall q, a <= q <= a + min_length + 1 ->
               is_Some (pagemap finder !! q)) ->
            first_page <= a)
  | (false, _, _) =>
      forall a, ~ (forall q, a <= q <= a + min_length + 1 ->
                     is_Some (pagemap finder !! q))
  end.
Proof.
  intros Hkeys Hmin. unfold find_run.
  pose proof (pages_sorted finder) as Hsorted.
  pose proof (pages_In finder) as Hin.
  destruct (pages finder) as [|page rest] eqn:Epages.
  - cbn [run_loop]. intros a Hwin.
    apply (proj2 (Hin a)). apply Hwin. lia.
  - assert (Hpage : is_Some (pagemap finder !! page)).
    { apply Hin. left. reflexivity. }
    assert (Hrange : 0 < page < 2 ^ 32).
    { destruct Hpage as [v Hv]. eapply Hkeys. exact Hv. }
    destruct (sorted_cons_inv _ _ Hsorted) as [_ Hrest].
    cbn [run_loop]. change (wrap64 (2 ^ 64 - 1 + 1)) with 0.
    destruct (Z.eqb_spec page 0) as [H0|_]; [lia|]. cbn [negb].
    assert (Hleft : ~ is_Some (pagemap finder !! (page - 1))).
    { intros Hk. apply Hin in Hk as [Hk|Hk]; [lia|].
      specialize (Hrest _ Hk). lia. }
    apply (run_loop_spec (fun q => is_Some (pagemap finder !! q)) min_length Hmin);
      try assumption; try lia.
    + intros k Hk. split; [apply Hin; right; exact Hk|].
      assert (Hs : is_Some (pagemap finder !! k)) by (apply Hin; right; exact Hk).
      destruct Hs as [v Hv]. apply Hkeys in Hv. lia.
    + intros k Hk Hlt. apply Hin in Hk as [Hk|Hk]; [lia|exact Hk].
    + intros q Hq. replace q with page by lia. exact Hpage.
    + intros a Hwin.
      destruct (Z.le_gt_cases (a + min_length + 1) page) as [Hle|Hgt]; [|lia].
      exfalso.
      assert (Hend : is_Some (pagemap finder !! (a + min_length + 1)))
        by (apply Hwin; lia).
      apply Hin in Hend as [Hend|Hend].
      * apply Hleft. apply Hwin. lia.
      * specialize (Hrest _ Hend). lia.
Qed.

Lemma find_run_first_stretch_witness :
  match find_run run_finder 0 0 2 with
  | (true, first_page, last_page) =>
      last_page = first_page + 2 + 1
      /\ (forall q, first_page <= q <= last_page ->
            is_Some (pagemap run_finder !! q))
      /\ (forall a,
            (forall q, a <= q <= a + 2 + 1 ->
               is_Some (pagemap run_finder !! q)) ->
            first_page <= a)
  | (false, _, _) =>
      forall a, ~ (forall q, a <= q <= a + 2 + 1 ->
                     is_Some (pagemap run_finder !! q))
  end.
Proof.
  apply (find_run_first_stretch run_finder 0 0 2).
  - intros k v Hk.
    assert (Hin : In k (pages run_finder)) by (apply pages_In; eauto).
    vm_compute in Hin. lia.
  - lia.
Defined.

Lemma sorted_last_max (l : list Z) back :
  StronglySorted Z.lt l -> last l = Some back -> forall k, In k l -> k <= back.
Proof.
  induction 1 as [|x l Hl IH Hx]; intros Hlast k Hk; [destruct Hk|].
  destruct l as [|y l'].
  - cbn in Hlast. injection Hlast as <-. destruct Hk as [<-|[]]. lia.
  - change (last (x :: y :: l')) with (last (y :: l')) in Hlast.
    destruct Hk as [<-|Hk]; [|apply IH; assumption].
    rewrite List.Forall_forall in Hx.
    pose proof (Hx y ltac:(left; reflexivity)).
    pose proof (IH Hlast y ltac:(left; reflexivity)). lia.
Qed.

Lemma fixed_loop_spec finder (n : nat) : forall page last_page,
  0 <= page -> page + Z.of_nat n <= 2 ^ 32 ->
  (fixed_loop finder n page last_page = last_page
   /\ (n = 0%nat \/ contains finder page = false))
  \/ (page <= fixed_loop finder n page last_page < page + Z.of_nat n
      /\ (forall q, page <= q <= fixed_loop finder n page last_page ->
            contains finder q = true)
      /\ (fixed_loop finder n page last_page + 1 < page + Z.of_nat n ->
          contains finder (fixed_loop finder n page last_page + 1) = false)).
Proof.
  induction n as [|n IH]; intros page last_page Hpage Hfit.
  - left. split; [reflexivity|]. left. reflexivity.
  - cbn [fixed_loop]. destruct (contains finder page) eqn:Ec.
    + right. rewrite wrap64_small by lia.
      destruct (IH (page + 1) page ltac:(lia) ltac:(lia))
        as [[-> Hstop]|(Hl & Hrange & Hnext)].
      * split; [lia|]. split.
        -- intros q Hq. replace q with page by lia. exact Ec.
        -- intros Hlt. destruct Hstop as [->|Hstop]; [lia|exact Hstop].
      * split; [lia|]. split.
        -- intros q Hq. destruct (decide (q = page)) as [->|Hne]; [exact Ec|].
           apply Hrange. lia.
        -- intros Hlt. apply Hnext. lia.
    + left. split; [reflexivity|]. right. reflexivity.
Qed.

(** X18: [find_run_fixed] from a page of the page map. For a page map whose
    keys are 32-bit frame numbers below the largest one, [last_page] becomes
    the end of the longest stretch of consecutive pages of the page map that
    starts at [first_page]: all pages from [first_page] to [last_page] are
    in the page map and the page after [last_page] is not; the flag says
    whether [last_page - first_page] exceeds [min_length]. *)
Theorem find_run_fixed_longest finder first_page min_length :
  (forall k v, pagemap finder !! k = Some v -> 0 <= k < 2 ^ 32 - 1) ->
  0 <= first_page < 2 ^ 32 ->
  contains finder first_page = true ->
  exists last_page,
    find_run_fixed finder first_page min_length
    = Some (min_length <? last_page - first_page, last_page)
    /\ first_page <= last_page
    /\ (forall q, first_page <= q <= last_page -> contains finder q = true)
    /\ contains finder (last_page + 1) = false.
Proof.
  intros Hkeys Hfirst Hown.
  assert (Hkey : is_Some (pagemap finder !! first_page)).
  { unfold contains in Hown. rewrite wrap32_small in Hown by lia.
    apply bool_decide_eq_true_1 in Hown. exact Hown. }
  pose proof (pages_sorted finder) as Hsorted.
  assert (Hin : In first_page (pages finder)) by (apply pages_In; exact Hkey).
  unfold find_run_fixed.
  destruct (last (pages finder)) as [back|] eqn:Elast.
  2:{ destruct (pages finder); [destruct Hin|].
      apply last_None in Elast. discriminate. }
  pose proof (sorted_last_max _ _ Hsorted Elast) as Hmax.
  assert (Hback : is_Some (pagemap finder !! back)).
  { apply pages_In. apply list_elem_of_In, last_Some_elem_of. exact Elast. }
  assert (Hback32 : 0 <= back < 2 ^ 32 - 1).
  { destruct Hback as [v Hv]. eapply Hkeys. exact Hv. }
  pose proof (Hmax _ Hin) as Hfb.
  destruct (fixed_loop_spec finder (Z.to_nat (back - first_page + 1))
              first_page first_page ltac:(lia) ltac:(lia))
    as [[_ [Hzero|Hnot]]|(Hl & Hrange & Hnext)]; [lia|congruence|].
  set (l := fixed_loop finder (Z.to_nat (back - first_page + 1))
              first_page first_page) in *.
  exists l. rewrite wrap64_small by lia.
  split; [reflexivity|]. split; [lia|]. split; [exact Hrange|].
  destruct (Z.lt_ge_cases (l + 1) (first_page + Z.of_nat (Z.to_nat (back - first_page + 1))))
    as [Hlt|Hge]; [apply Hnext; exact Hlt|].
  assert (Hl1 : l = back) by lia.
  unfold contains. rewrite wrap32_small by lia.
  apply bool_decide_eq_false_2. intros Hk.
  apply pages_In, Hmax in Hk. lia.
Qed.

Lemma find_run_fixed_longest_witness :
  exists last_page,
    find_run_fixed run_finder 17 2
    = Some (2 <? last_page - 17, last_page)
    /\ 17 <= last_page
    /\ (forall q, 17 <= q <= last_page -> contains run_finder q = true)
    /\ contains run_finder (last_page + 1) = false.
Proof.
  apply (find_run_fixed_longest run_finder 17 2).
  - intros k v Hk.
    assert (Hin : In k (pages run_finder)) by (apply pages_In; eauto).
    vm_compute in Hin. lia.
  - lia.
  - vm_compute. reflexivity.
Defined.

End Runs.

(** ** From a DRAM address to the physical address and back *)

Section PlaceFacts.
Import Bits DRAM Canonical Placement.

Lemma place_loop_spread : forall masks v A,
  forallb (fun m => contiguous m && (count_one_bits m <=? 30)) masks = true ->
  0 <= v ->
  place_loop masks v A
  = (Z.lor A (spread masks v), v / 2 ^ total_bits masks).
Proof.
  induction masks as [|m rest IH]; intros v A Hall Hv.
  - cbn. rewrite Z.lor_0_r, Z.div_1_r. reflexivity.
  - apply contiguous_of_forallb in Hall as (Hm & Hn & Hrest).
    destruct (contiguous_shape m Hm) as (Ho & Hn1 & Hon & _ & _).
    cbn [place_loop spread total_bits fold_right pop_least_significant_bits].
    fold (total_bits rest).
    set (n := count_one_bits m) in *. set (o := count_trailing_zero_bits m) in *.
    assert (Hpn : 0 < 2 ^ n) by (apply Z.pow_pos_nonneg; lia).
    rewrite int_low_mask_small by lia. rewrite Z.land_ones by lia.
    rewrite shr64_small by lia. rewrite Z.shiftr_div_pow2 by lia.
    pose proof (Z.mod_pos_bound v (2 ^ n) Hpn) as Hmod.
    assert (Hshift : shl64 (v mod 2 ^ n) o = Z.shiftl (v mod 2 ^ n) o).
    { rewrite shl64_small by lia. apply wrap64_small.
      rewrite Z.shiftl_mul_pow2 by lia.
      assert (Hpo : 0 < 2 ^ o) by (apply Z.pow_pos_nonneg; lia).
      assert (Hle : 2 ^ (n + o) <= 2 ^ 64) by (apply pow2_le_mono; lia).
      rewrite Z.pow_add_r in Hle by lia. nia. }
    rewrite Hshift.
    rewrite IH; [|exact Hrest|apply Z.div_pos; lia].
    rewrite Z.lor_assoc. f_equal.
    pose proof (total_bits_nonneg rest) as Ht.
    rewrite Z.pow_add_r by lia. rewrite Z.div_div by (try lia; apply Z.pow_nonneg; lia).
    reflexivity.
Qed.

Lemma place_spread masks v A :
  field_ok masks = true -> 0 <= v < 2 ^ total_bits masks ->
  place masks v A = Some (Z.lor A (spread masks v)).
Proof.
  intros Hok Hv.
  assert (Hloop :
    forallb (fun m => contiguous m && (count_one_bits m <=? 30)) masks = true ->
    (let '(p_addr', r) := place_loop masks v A in
     if r =? 0 then Some p_addr' else None)
    = Some (Z.lor A (spread masks v))).
  { intros Hall. rewrite place_loop_spread by (assumption || lia).
    rewrite Z.div_small by lia. reflexivity. }
  unfold place, field_ok in *.
  destruct masks as [|m [|m' rest]].
  - apply Hloop. reflexivity.
  - destruct (contiguous_shape m Hok) as (Ho & Hn1 & Hon & _ & _).
    cbn [spread total_bits fold_right] in *. rewrite Z.add_0_r in Hv.
    rewrite Z.mod_small by lia.
    change (2 ^ count_one_bits m) with (2 ^ count_one_bits m).
    rewrite Z.lor_0_r. f_equal. f_equal.
    rewrite shl64_small by lia. apply wrap64_small.
    rewrite Z.shiftl_mul_pow2 by lia.
    assert (Hpo : 0 < 2 ^ count_trailing_zero_bits m)
      by (apply Z.pow_pos_nonneg; lia).
    assert (Hle : 2 ^ (count_one_bits m + count_trailing_zero_bits m) <= 2 ^ 64)
      by (apply pow2_le_mono; lia).
    rewrite Z.pow_add_r in Hle by lia. nia.
  - apply andb_prop in Hok as [Hall _]. apply Hloop. exact Hall.
Qed.

Lemma field_bits m v k :
  contiguous m = true -> 0 <= v -> 0 <= k ->
  Z.testbit (Z.shiftl (v mod 2 ^ count_one_bits m) (count_trailing_zero_bits m)) k
  = true ->
  Z.testbit m k = true.
Proof.
  intros Hm Hv Hk Hbit.
  destruct (contiguous_shape m Hm) as (Ho & Hn1 & Hon & _ & Hshape).
  rewrite Z.shiftl_spec in Hbit by lia. rewrite Hshape by lia.
  destruct (Z.leb_spec (count_trailing_zero_bits m) k) as [Hlo|Hlo].
  - destruct (Z.ltb_spec k (count_trailing_zero_bits m + count_one_bits m))
      as [Hhi|Hhi]; [reflexivity|].
    rewrite Z.mod_pow2_bits_high in Hbit by lia. discriminate.
  - rewrite Z.testbit_neg_r in Hbit by lia. discriminate.
Qed.

Lemma contiguous_cons (m : Z) rest :
  forallb contiguous (m :: rest) = true ->
  contiguous m = true /\ forallb contiguous rest = true.
Proof. cbn [forallb]. intros H. apply andb_prop in H. exact H. Qed.

Lemma spread_bits : forall masks v k,
  forallb contiguous masks = true ->
  0 <= v -> 0 <= k ->
  Z.testbit (spread masks v) k = true ->
  Z.testbit (mask_union masks) k = true.
Proof.
  induction masks as [|m rest IH]; intros v k Hall Hv Hk Hbit.
  - cbn in Hbit. rewrite Z.testbit_0_l in Hbit. discriminate.
  - apply contiguous_cons in Hall as (Hm & Hrest).
    cbn [spread mask_union fold_right] in *. fold (mask_union rest).
    rewrite Z.lor_spec in *. apply orb_true_iff in Hbit as [Hbit|Hbit].
    + rewrite (field_bits m v k Hm Hv Hk Hbit). reflexivity.
    + pose proof (count_one_bits_nonneg m) as Hn0.
      assert (Hpn : 0 < 2 ^ count_one_bits m) by (apply Z.pow_pos_nonneg; lia).
      assert (Hv' : 0 <= v / 2 ^ count_one_bits m) by (apply Z.div_pos; lia).
      rewrite (IH (v / 2 ^ count_one_bits m) k Hrest Hv' Hk Hbit).
      apply orb_true_r.
Qed.

Lemma spread_nonneg : forall masks v, 0 <= v -> 0 <= spread masks v.
Proof.
  induction masks as [|m rest IH]; intros v Hv; cbn [spread]; [lia|].
  pose proof (count_one_bits_nonneg m) as Hn.
  assert (Hpn : 0 < 2 ^ count_one_bits m) by (apply Z.pow_pos_nonneg; lia).
  apply Z.lor_nonneg. split.
  - apply Z.shiftl_nonneg. apply Z.mod_pos_bound. exact Hpn.
  - apply IH. apply Z.div_pos; lia.
Qed.

Lemma mask_union_range masks :
  forallb contiguous masks = true ->
  0 <= mask_union masks < 2 ^ 64.
Proof.
  induction masks as [|m rest IH]; intros Hall; [cbn; lia|].
  apply contiguous_cons in Hall as (Hm & Hrest).
  destruct (contiguous_shape m Hm) as (_ & _ & _ & Hr & _).
  specialize (IH Hrest). cbn [mask_union fold_right]. fold (mask_union rest).
  split; [apply Z.lor_nonneg; lia|].
  apply small_of_high_bits; [apply Z.lor_nonneg; lia|].
  intros k Hk. rewrite Z.lor_spec, !high_bits_clear by lia. reflexivity.
Qed.

(** Under disjoint masks the bits below each mask can be read off one by
    one. *)
Lemma split_under m U X S p :
  Z.land m U = 0 ->
  (forall k, 0 <= k -> Z.testbit X k = true -> Z.testbit m k = true) ->
  (forall k, 0 <= k -> Z.testbit S k = true -> Z.testbit U k = true) ->
  Z.land p (Z.lor m U) = Z.lor X S ->
  Z.land p m = X /\ Z.land p U = S.
Proof.
  intros Hdisj HX HS Heq.
  assert (Hbits : forall k, 0 <= k ->
            Z.testbit p k && (Z.testbit m k || Z.testbit U k)
            = Z.testbit X k || Z.testbit S k).
  { intros k Hk. rewrite <- Z.lor_spec, <- Z.land_spec, Heq, Z.lor_spec.
    reflexivity. }
  split; apply Z.bits_inj'; intros k Hk; rewrite Z.land_spec;
    specialize (Hbits k Hk); specialize (HX k Hk); specialize (HS k Hk);
    pose proof (land_zero_bits m U k Hdisj) as Hd;
    destruct (Z.testbit p k), (Z.testbit m k), (Z.testbit U k),
      (Z.testbit X k), (Z.testbit S k); cbn in *;
    try reflexivity; try discriminate;
    try (specialize (HX eq_refl); discriminate);
    try (specialize (HS eq_refl); discriminate).
Qed.

Lemma concat_spread p : forall masks v,
  forallb contiguous masks = true ->
  disjoint_masks masks = true ->
  0 <= v ->
  Z.land p (mask_union masks) = spread masks v ->
  concat_pieces masks p = v mod 2 ^ total_bits masks.
Proof.
  induction masks as [|m rest IH]; intros v Hall Hdisj Hv Heq.
  - cbn. rewrite Z.mod_1_r. reflexivity.
  - apply contiguous_cons in Hall as (Hm & Hrest).
    destruct (contiguous_shape m Hm) as (Ho & Hn1 & Hon & _ & _).
    cbn [disjoint_masks] in Hdisj. apply andb_prop in Hdisj as [Hd Hdrest].
    apply Z.eqb_eq in Hd.
    cbn [concat_pieces spread mask_union total_bits fold_right] in *.
    fold (mask_union rest) in *. fold (total_bits rest).
    set (n := count_one_bits m) in *. set (o := count_trailing_zero_bits m) in *.
    assert (Hpn : 0 < 2 ^ n) by (apply Z.pow_pos_nonneg; lia).
    assert (Hv' : 0 <= v / 2 ^ n) by (apply Z.div_pos; lia).
    destruct (split_under m (mask_union rest)
                (Z.shiftl (v mod 2 ^ n) o) (spread rest (v / 2 ^ n)) p Hd)
      as [Hpm HpU].
    { intros k Hk. apply field_bits; assumption. }
    { intros k Hk. apply spread_bits; assumption. }
    { exact Heq. }
    rewrite Hpm. rewrite shr64_small by lia.
    rewrite Z.shiftr_shiftl_l by lia. rewrite Z.sub_diag, Z.shiftl_0_r.
    rewrite (IH (v / 2 ^ n) Hrest Hdrest Hv' HpU).
    pose proof (total_bits_nonneg rest) as Ht.
    rewrite Z.shiftl_mul_pow2 by lia.
    rewrite Z.pow_add_r by lia.
    rewrite (Z.rem_mul_r v (2 ^ n) (2 ^ total_bits rest))
      by (try lia; apply Z.pow_pos_nonneg; lia).
    lia.
Qed.

Lemma extract_concat masks p :
  field_ok masks = true -> 0 <= p ->
  extract masks p = concat_pieces masks p.
Proof.
  intros Hok Hp. unfold extract, field_ok in *.
  assert (Hloop :
    forallb (fun m => contiguous m && (count_one_bits m <=? 30)) masks = true ->
    total_bits masks <= 64 ->
    extract_loop masks p 0 0 = concat_pieces masks p).
  { intros Hall Htot.
    rewrite extract_loop_spec; try assumption; try lia; try (cbn; lia).
    rewrite Z.shiftl_0_r. lia. }
  destruct masks as [|m [|m' rest]].
  - reflexivity.
  - cbn [concat_pieces]. rewrite Z.shiftl_0_l. lia.
  - apply andb_prop in Hok as [Hall Htot]. apply Z.leb_le in Htot.
    apply Hloop; assumption.
Qed.

Lemma field_ok_contiguous masks :
  field_ok masks = true ->
  forallb contiguous masks = true /\ total_bits masks <= 64.
Proof.
  unfold field_ok. destruct masks as [|m [|m' rest]].
  - intros _. split; [reflexivity|cbn; lia].
  - intros Hm. split; [cbn; rewrite Hm; reflexivity|].
    destruct (contiguous_shape m Hm) as (Ho & Hn1 & Hon & _ & _).
    cbn [total_bits fold_right]. lia.
  - intros H. apply andb_prop in H as [Hall Htot]. apply Z.leb_le in Htot.
    split; [|exact Htot].
    rewrite forallb_forall in *. intros x Hx. specialize (Hall x Hx).
    apply andb_prop in Hall as [Hc _]. exact Hc.
Qed.

End PlaceFacts.


Section ReverseSweep.
Import Bits DRAM Canonical Placement.

Lemma disjoint_app : forall a b,
  disjoint_masks (a ++ b) = true ->
  disjoint_masks a = true /\ disjoint_masks b = true
  /\ Z.land (mask_union a) (mask_union b) = 0.
Proof.
  induction a as [|m rest IH]; intros b H.
  - cbn in *. split; [reflexivity|]. split; [exact H|reflexivity].
  - cbn [app disjoint_masks] in H. apply andb_prop in H as [Hm Hrest].
    apply Z.eqb_eq in Hm. destruct (IH b Hrest) as (Ha & Hb & Hab).
    assert (Hu : mask_union (rest ++ b) = Z.lor (mask_union rest) (mask_union b)).
    { clear. induction rest as [|x r IHr]; cbn [app mask_union fold_right].
      - rewrite Z.lor_0_l. reflexivity.
      - fold (mask_union (r ++ b)). fold (mask_union r). rewrite IHr.
        apply Z.lor_assoc. }
    rewrite Hu, Z.land_lor_distr_r in Hm. apply Z.lor_eq_0_iff in Hm as [Hm1 Hm2].
    cbn [disjoint_masks mask_union fold_right]. fold (mask_union rest).
    rewrite Hm1, Ha. split; [reflexivity|]. split; [exact Hb|].
    rewrite Z.land_lor_distr_l, Hm2, Hab. reflexivity.
Qed.

Lemma accumulate_from : forall masks acc,
  forallb contiguous masks = true ->
  disjoint_masks masks = true ->
  0 <= acc < 2 ^ 64 ->
  Z.land acc (mask_union masks) = 0 ->
  fold_left (fun a m => wrap64 (a + m)) masks acc
  = Z.lor acc (mask_union masks).
Proof.
  induction masks as [|m rest IH]; intros acc Hall Hdisj Hacc Hland.
  - cbn. rewrite Z.lor_0_r. reflexivity.
  - apply contiguous_cons in Hall as (Hm & Hrest).
    destruct (contiguous_shape m Hm) as (_ & _ & _ & Hr & _).
    cbn [disjoint_masks] in Hdisj. apply andb_prop in Hdisj as [Hd Hdrest].
    apply Z.eqb_eq in Hd.
    cbn [fold_left mask_union fold_right] in *. fold (mask_union rest) in *.
    rewrite Z.land_lor_distr_r in Hland.
    apply Z.lor_eq_0_iff in Hland as [Ham HaU].
    rewrite Z.add_nocarry_lxor, Z.lxor_lor by exact Ham.
    assert (Hlor : 0 <= Z.lor acc m < 2 ^ 64).
    { apply small_of_high_bits; [apply Z.lor_nonneg; lia|].
      intros k Hk. rewrite Z.lor_spec, !high_bits_clear by lia. reflexivity. }
    rewrite wrap64_small by exact Hlor.
    rewrite IH; try assumption.
    + symmetry. apply Z.lor_assoc.
    + rewrite Z.land_lor_distr_l, HaU, Hd. reflexivity.
Qed.

Lemma accumulate_union masks :
  forallb contiguous masks = true ->
  disjoint_masks masks = true ->
  accumulate masks = mask_union masks.
Proof.
  intros Hall Hdisj. unfold accumulate.
  rewrite accumulate_from; try assumption; try lia.
  - apply Z.lor_0_l.
  - apply Z.land_0_l.
Qed.

Variable L : DRAMLayout.
Hypothesis rows_union : accumulate (row_masks L) = mask_union (row_masks L).
Hypothesis cols_union : accumulate (col_masks L) = mask_union (col_masks L).

Lemma toggles_ready_union : forall fns,
  toggles_ok L fns = true -> sweep_ready L fns.
Proof using rows_union cols_union.
  induction fns as [|f rest IH]; intros Hok; [exact I|].
  cbn [toggles_ok sweep_ready] in *.
  apply andb_prop in Hok as [Hok Hrest]. apply andb_prop in Hok as [Hok Hlater].
  apply andb_prop in Hok as [Hok Ht]. apply andb_prop in Hok as [Hok Hfree].
  apply andb_prop in Hok as [Hf0 Hf1].
  apply Z.leb_le in Hf0, Ht. apply Z.ltb_lt in Hf1. apply Z.eqb_eq in Hlater.
  apply negb_true_iff, Z.eqb_neq in Hfree.
  assert (Hfree0 : 0 < free_bits L f).
  { assert (0 <= free_bits L f); [|lia].
    unfold free_bits. apply Z.land_nonneg. left. apply Z.land_nonneg. left. lia. }
  repeat split; try assumption; try lia.
  - pose proof (ctz_testbit (free_bits L f) Hfree0) as Hb.
    fold (toggle_bit L f) in Hb. unfold free_bits in Hb.
    pose proof (ctz_nonneg (free_bits L f)) as Ht0. fold (toggle_bit L f) in Ht0.
    rewrite !Z.land_spec, rows_union, cols_union in Hb.
    rewrite !not64_bits in Hb by lia.
    unfold row_col_mask. rewrite Z.lor_spec.
    destruct (Z.testbit (mask_union (row_masks L)) (toggle_bit L f)),
      (Z.testbit (mask_union (col_masks L)) (toggle_bit L f));
      try reflexivity; rewrite ?andb_false_r in Hb; discriminate.
  - apply IH. exact Hrest.
Qed.

Lemma toggle_outside_masks : forall fns k,
  sweep_ready L fns -> 0 <= k ->
  Z.testbit (row_col_mask L) k = true ->
  Z.testbit (toggle_mask L fns) k = false.
Proof using Type.
  induction fns as [|f rest IH]; intros k Hready Hk Hrc.
  - cbn. apply Z.testbit_0_l.
  - cbn [sweep_ready toggle_mask fold_right] in *. fold (toggle_mask L rest).
    destruct Hready as (_ & _ & _ & Hout & _ & Hrest).
    pose proof (ctz_nonneg (free_bits L f)) as Ht0. fold (toggle_bit L f) in Ht0.
    rewrite Z.lor_spec, one_shl_bit by lia.
    rewrite (IH k Hrest Hk Hrc).
    destruct (Z.eqb_spec k (toggle_bit L f)) as [->|_]; [congruence|reflexivity].
Qed.

Lemma parity_agree q q' f :
  (forall k, 0 <= k -> Z.testbit f k = true -> Z.testbit q' k = Z.testbit q k) ->
  xor_bits q' f = xor_bits q f.
Proof using Type.
  intros H. unfold xor_bits. f_equal. f_equal.
  apply Z.bits_inj'. intros k Hk. rewrite !Z.land_spec.
  destruct (Z.testbit f k) eqn:Ef; [|rewrite !andb_false_r; reflexivity].
  rewrite (H k Hk Ef). reflexivity.
Qed.

Lemma parity_flip q f t :
  0 <= q -> 0 <= f -> 0 <= t -> Z.testbit f t = true ->
  xor_bits (Z.lxor q (Z.shiftl 1 t)) f = 1 - xor_bits q f.
Proof using Type.
  intros Hq Hf Ht Hft. unfold xor_bits.
  assert (Hsplit : Z.land (Z.lxor q (Z.shiftl 1 t)) f
                   = Z.lxor (Z.land q f) (Z.shiftl 1 t)).
  { apply Z.bits_inj'. intros k Hk.
    rewrite Z.lxor_spec, !Z.land_spec, Z.lxor_spec, one_shl_bit by lia.
    destruct (Z.eqb_spec k t) as [->|Hne].
    - rewrite Hft. destruct (Z.testbit q t); reflexivity.
    - rewrite !xorb_false_r. reflexivity. }
  rewrite Hsplit.
  rewrite parity_lxor by (try apply Z.land_nonneg; try apply Z.shiftl_nonneg; auto; lia).
  rewrite count_one_bits_pow2 by lia.
  pose proof (count_one_bits_nonneg (Z.land q f)).
  Z.div_mod_to_equations. lia.
Qed.

(** The sweep from any address: it stays within 64 bits, changes toggle
    bits only, and leaves every bank function with the parity the bank
    asks for. *)
Lemma sweep_fix bank : forall fns i q,
  sweep_ready L fns -> 0 <= q < 2 ^ 64 ->
  0 <= parity_sweep fns i bank (not64 (accumulate (col_masks L)))
         (not64 (accumulate (row_masks L))) q < 2 ^ 64
  /\ (forall k, 0 <= k -> Z.testbit (toggle_mask L fns) k = false ->
        Z.testbit (parity_sweep fns i bank (not64 (accumulate (col_masks L)))
                     (not64 (accumulate (row_masks L))) q) k
        = Z.testbit q k)
  /\ (forall (k : nat) f, fns !! k = Some f ->
        xor_bits (parity_sweep fns i bank (not64 (accumulate (col_masks L)))
                    (not64 (accumulate (row_masks L))) q) f
        = Z.land (shr64 bank (i + Z.of_nat k)) 1).
Proof using Type.
  induction fns as [|f rest IH]; intros i q Hready Hq.
  - cbn [parity_sweep]. split; [exact Hq|]. split; [reflexivity|].
    intros k f Hk. discriminate.
  - cbn [sweep_ready toggle_mask fold_right] in *.
    fold (toggle_mask L rest).
    destruct Hready as (Hf & Hfree & Ht30 & Hrct & Hlater & Hrest).
    assert (Hstep :
      parity_sweep (f :: rest) i bank (not64 (accumulate (col_masks L)))
        (not64 (accumulate (row_masks L))) q
      = parity_sweep rest (i + 1) bank (not64 (accumulate (col_masks L)))
          (not64 (accumulate (row_masks L)))
          (if xor_bits q f =? Z.land (shr64 bank i) 1 then q
           else Z.lxor q (int_one_shl (toggle_bit L f)))).
    { cbn [parity_sweep]. fold (free_bits L f). fold (toggle_bit L f).
      destruct (xor_bits q f =? Z.land (shr64 bank i) 1); reflexivity. }
    rewrite Hstep. clear Hstep.
    set (t := toggle_bit L f) in *.
    assert (Ht0 : 0 <= t) by apply ctz_nonneg.
    assert (Hft : Z.testbit f t = true).
    { pose proof (ctz_testbit (free_bits L f) Hfree) as Hb.
      fold (toggle_bit L f) in Hb. fold t in Hb.
      unfold free_bits in Hb. rewrite !Z.land_spec in Hb.
      destruct (Z.testbit f t); [reflexivity|discriminate]. }
    set (bb := Z.land (shr64 bank i) 1).
    assert (Hbb : 0 <= bb < 2).
    { subst bb. change 1 with (Z.ones 1). rewrite Z.land_ones by lia.
      apply Z.mod_pos_bound. lia. }
    set (q1 := if xor_bits q f =? bb then q else Z.lxor q (int_one_shl t)).
    assert (Hq1 : 0 <= q1 < 2 ^ 64
                  /\ xor_bits q1 f = bb
                  /\ forall k, 0 <= k -> k <> t -> Z.testbit q1 k = Z.testbit q k).
    { subst q1. destruct (Z.eqb_spec (xor_bits q f) bb) as [Heq|Hne].
      - split; [exact Hq|]. split; [exact Heq|]. reflexivity.
      - rewrite int_one_shl_small by lia. split; [|split].
        + apply small_of_high_bits.
          * apply Z.lxor_nonneg. split; intros _; [apply Z.shiftl_nonneg|]; lia.
          * intros k Hk. rewrite Z.lxor_spec, one_shl_bit by lia.
            rewrite high_bits_clear by lia.
            destruct (Z.eqb_spec k t); [lia|reflexivity].
        + rewrite parity_flip by (try lia; exact Hft).
          pose proof (xor_bits_range q f). lia.
        + intros k Hk Hkt. rewrite Z.lxor_spec, one_shl_bit by lia.
          destruct (Z.eqb_spec k t); [contradiction|]. apply xorb_false_r. }
    destruct Hq1 as (Hq1r & Hq1p & Hq1k).
    fold bb. fold q1.
    destruct (IH (i + 1) q1 Hrest Hq1r) as (Hr & Hagree & Hpar).
    split; [exact Hr|]. split.
    + intros k Hk Hbit. rewrite Z.lor_spec, one_shl_bit in Hbit by lia.
      apply orb_false_elim in Hbit as [Hkt Hrestbit].
      rewrite (Hagree k Hk Hrestbit). apply Hq1k; [exact Hk|].
      destruct (Z.eqb_spec k t); [discriminate|assumption].
    + intros k g Hk. destruct k as [|k].
      * injection Hk as <-. rewrite Z.add_0_r. fold bb. rewrite <- Hq1p.
        apply parity_agree. intros j Hj Hfj. apply Hagree; [exact Hj|].
        pose proof (land_zero_bits f (toggle_mask L rest) j Hlater) as Hz.
        rewrite Hfj in Hz. exact Hz.
      * replace (i + Z.of_nat (S k)) with (i + 1 + Z.of_nat k) by lia.
        apply Hpar. exact Hk.
Qed.

End ReverseSweep.


Section AddressRoundTrip.
Import Bits DRAM Canonical Placement.

Lemma bank_loop_high p : forall fns i acc j,
  0 <= i -> i + Z.of_nat (length fns) <= 64 -> i + Z.of_nat (length fns) <= j ->
  Z.testbit (bank_loop fns i p acc) j = Z.testbit acc j.
Proof.
  induction fns as [|f rest IH]; intros i acc j Hi Hlen Hj; [reflexivity|].
  cbn [bank_loop length] in *. rewrite IH by lia.
  rewrite Z.lor_spec, parity_shl_bit by (try apply xor_bits_range; lia).
  destruct (Z.eqb_spec j i); [lia|]. cbn [andb]. apply orb_false_r.
Qed.

(** The bank the constructor computes for an address whose parities are the
    bits of [b]. *)
Lemma bank_loop_value p fns b :
  Z.of_nat (length fns) <= 64 ->
  0 <= b < 2 ^ Z.of_nat (length fns) ->
  (forall (k : nat) f, fns !! k = Some f ->
     xor_bits p f = Z.land (shr64 b (Z.of_nat k)) 1) ->
  bank_loop fns 0 p 0 = b.
Proof.
  intros Hlen Hb Hpar. apply Z.bits_inj'. intros j Hj.
  destruct (Z.lt_ge_cases j (Z.of_nat (length fns))) as [Hlt|Hge].
  - destruct (lookup_lt_is_Some_2 fns (Z.to_nat j)) as [f Hf]; [lia|].
    pose proof (bank_loop_bit p fns 0 0 (Z.to_nat j) f ltac:(lia) ltac:(lia)
                  (fun k _ => Z.testbit_0_l k) Hf) as Hbit.
    rewrite Z2Nat.id, Z.add_0_l in Hbit by lia. rewrite Hbit.
    rewrite (Hpar _ _ Hf). rewrite Z2Nat.id by lia.
    rewrite shr64_small by lia. rewrite land_one_testbit by lia.
    destruct (Z.testbit b j); reflexivity.
  - rewrite bank_loop_high by lia. rewrite Z.testbit_0_l.
    symmetry. destruct (Z.testbit b j) eqn:Eb; [|reflexivity].
    exfalso.
    assert (Hlow : b mod 2 ^ Z.of_nat (length fns) = b) by (apply Z.mod_small; lia).
    rewrite <- Hlow in Eb. rewrite Z.mod_pow2_bits_high in Eb by lia.
    discriminate.
Qed.

(** The bits of the final address under the masks of one field. *)
Lemma field_of_address p q masks others S S' :
  (forall k, 0 <= k -> Z.testbit (mask_union masks) k = true ->
             Z.testbit p k = Z.testbit q k) ->
  q = Z.lor S S' ->
  (forall k, 0 <= k -> Z.testbit S k = true -> Z.testbit (mask_union masks) k = true) ->
  (forall k, 0 <= k -> Z.testbit S' k = true -> Z.testbit (mask_union others) k = true) ->
  Z.land (mask_union masks) (mask_union others) = 0 ->
  Z.land p (mask_union masks) = S.
Proof.
  intros Hagree -> HS HS' Hdisj. apply Z.bits_inj'. intros k Hk.
  rewrite Z.land_spec.
  pose proof (land_zero_bits _ _ k Hdisj) as Hd.
  specialize (HS k Hk). specialize (HS' k Hk). specialize (Hagree k Hk).
  rewrite Z.lor_spec in Hagree.
  destruct (Z.testbit (mask_union masks) k) eqn:Em.
  - rewrite Hagree by reflexivity. rewrite andb_true_r.
    destruct (Z.testbit S' k); [|apply orb_false_r].
    rewrite HS' in Hd by reflexivity. discriminate.
  - rewrite andb_false_r. destruct (Z.testbit S k); [|reflexivity].
    discriminate HS. reflexivity.
Qed.

(** The physical address of a DRAM address that fits, and the way back. *)
Lemma phys_then_constructor L d :
  layout_ok L = true ->
  disjoint_masks (row_masks L ++ col_masks L) = true ->
  fits L d = true ->
  exists p,
    phys L d = Some p /\ 0 <= p < 2 ^ 64 /\ DRAMAddr_of_phys L p = d
    /\ forall (k : nat) f,
         h_fns L !! k = Some f ->
         xor_bits p f = Z.land (shr64 (bank d) (Z.of_nat k)) 1.
Proof.
  intros Hok Hdisj Hfits. unfold layout_ok in Hok.
  apply andb_prop in Hok as [Hok Htoggles]. apply andb_prop in Hok as [Hok Hlen].
  apply andb_prop in Hok as [Hrows Hcols]. apply Z.leb_le in Hlen.
  unfold fits in Hfits.
  apply andb_prop in Hfits as [Hfits Hc1]. apply andb_prop in Hfits as [Hfits Hc0].
  apply andb_prop in Hfits as [Hfits Hr1]. apply andb_prop in Hfits as [Hfits Hr0].
  apply andb_prop in Hfits as [Hb0 Hb1].
  apply Z.leb_le in Hb0, Hr0, Hc0. apply Z.ltb_lt in Hb1, Hr1, Hc1.
  destruct (field_ok_contiguous _ Hrows) as [Hrc Hrt].
  destruct (field_ok_contiguous _ Hcols) as [Hcc Hct].
  destruct (disjoint_app _ _ Hdisj) as (Hdr & Hdc & Hdrc).
  pose proof (accumulate_union _ Hrc Hdr) as Hracc.
  pose proof (accumulate_union _ Hcc Hdc) as Hcacc.
  pose proof (toggles_ready_union L Hracc Hcacc _ Htoggles) as Hready.
  set (Sr := spread (row_masks L) (row d)).
  set (Sc := spread (col_masks L) (col d)).
  assert (HSr : forall k, 0 <= k -> Z.testbit Sr k = true ->
                  Z.testbit (mask_union (row_masks L)) k = true).
  { intros k Hk. apply spread_bits; assumption. }
  assert (HSc : forall k, 0 <= k -> Z.testbit Sc k = true ->
                  Z.testbit (mask_union (col_masks L)) k = true).
  { intros k Hk. apply spread_bits; assumption. }
  assert (Hq : 0 <= Z.lor Sr Sc < 2 ^ 64).
  { pose proof (mask_union_range _ Hrc). pose proof (mask_union_range _ Hcc).
    apply small_of_high_bits.
    - apply Z.lor_nonneg. split; apply spread_nonneg; assumption.
    - intros k Hk. rewrite Z.lor_spec.
      destruct (Z.testbit Sr k) eqn:Er.
      + specialize (HSr k ltac:(lia) Er).
        pose proof (high_bits_clear (mask_union (row_masks L)) k ltac:(lia) Hk).
        congruence.
      + destruct (Z.testbit Sc k) eqn:Ec; [|reflexivity].
        specialize (HSc k ltac:(lia) Ec).
        pose proof (high_bits_clear (mask_union (col_masks L)) k ltac:(lia) Hk).
        congruence. }
  destruct (sweep_fix L (bank d) (h_fns L) 0 (Z.lor Sr Sc) Hready Hq)
    as (Hp & Hagree & Hpar).
  set (p := parity_sweep (h_fns L) 0 (bank d)
              (not64 (accumulate (col_masks L)))
              (not64 (accumulate (row_masks L))) (Z.lor Sr Sc)) in *.
  exists p. split.
  { unfold phys. rewrite (place_spread _ _ 0 Hrows) by lia.
    cbn [mbind option_bind]. rewrite (place_spread _ _ _ Hcols) by lia.
    cbn [mbind option_bind]. rewrite Z.lor_0_l. reflexivity. }
  split; [exact Hp|].
  assert (Hmasked : forall k, 0 <= k -> Z.testbit (row_col_mask L) k = true ->
                      Z.testbit p k = Z.testbit (Z.lor Sr Sc) k).
  { intros k Hk Hrc'. apply Hagree; [exact Hk|].
    apply toggle_outside_masks; assumption. }
  assert (Hprow : Z.land p (mask_union (row_masks L)) = Sr).
  { apply (field_of_address p (Z.lor Sr Sc) (row_masks L) (col_masks L) Sr Sc);
      try assumption; try reflexivity.
    intros k Hk Hm. apply Hmasked; [exact Hk|].
    unfold row_col_mask. rewrite Z.lor_spec, Hm. reflexivity. }
  assert (Hpcol : Z.land p (mask_union (col_masks L)) = Sc).
  { apply (field_of_address p (Z.lor Sr Sc) (col_masks L) (row_masks L) Sc Sr);
      try assumption.
    - intros k Hk Hm. apply Hmasked; [exact Hk|].
      unfold row_col_mask. rewrite Z.lor_spec, Hm. apply orb_true_r.
    - apply Z.lor_comm.
    - rewrite Z.land_comm. exact Hdrc. }
  unfold DRAMAddr_of_phys, get_dram_row, get_dram_col.
  rewrite (extract_concat _ p Hrows) by lia.
  rewrite (extract_concat _ p Hcols) by lia.
  rewrite (concat_spread p _ (row d) Hrc Hdr Hr0 Hprow).
  rewrite (concat_spread p _ (col d) Hcc Hdc Hc0 Hpcol).
  rewrite !Z.mod_small by lia.
  assert (Hparity : forall (k : nat) f,
            h_fns L !! k = Some f ->
            xor_bits p f = Z.land (shr64 (bank d) (Z.of_nat k)) 1).
  { intros k f Hk. rewrite (Hpar k f Hk). rewrite Z.add_0_l. reflexivity. }
  split; [|exact Hparity].
  rewrite (bank_loop_value p (h_fns L) (bank d) Hlen ltac:(lia) Hparity).
  destruct d. reflexivity.
Qed.

(** X19: from a DRAM address to the physical address and back. In a layout
    with usable row and column fields whose masks share no bit, and whose
    bank functions each have a lowest bit outside the masks, below bit 31
    and in no earlier function, every DRAM address whose bank, row and
    column fit the layout has a physical address, of 64 bits; the
    converting constructor maps that address back to the same bank, row and
    column, and the address has under every bank function the parity the
    bank asks for, which is what the check under [DEBUG_REVERSE_FN] tests. *)
Theorem dram_addr_round_trip L d :
  layout_ok L = true ->
  disjoint_masks (row_masks L ++ col_masks L) = true ->
  fits L d = true ->
  exists p,
    phys L d = Some p /\ 0 <= p < 2 ^ 64 /\ DRAMAddr_of_phys L p = d
    /\ row d = get_dram_row L p
    /\ forall (k : nat) f,
         h_fns L !! k = Some f ->
         xor_bits p f = Z.land (shr64 (bank d) (Z.of_nat k)) 1.
Proof.
  intros Hok Hdisj Hfits.
  destruct (phys_then_constructor L d Hok Hdisj Hfits)
    as (p & Hphys & Hp & Hback & Hparity).
  exists p. split; [exact Hphys|]. split; [exact Hp|]. split; [exact Hback|].
  split; [|exact Hparity].
  rewrite <- Hback at 1. reflexivity.
Qed.

Lemma dram_addr_round_trip_witness :
  exists p,
    phys default_layout {| bank := 9; row := 0x48d; col := 0 |} = Some p
    /\ 0 <= p < 2 ^ 64
    /\ DRAMAddr_of_phys default_layout p = {| bank := 9; row := 0x48d; col := 0 |}
    /\ row {| bank := 9; row := 0x48d; col := 0 |} = get_dram_row default_layout p
    /\ forall (k : nat) f,
         h_fns default_layout !! k = Some f ->
         xor_bits p f
         = Z.land (shr64 (bank {| bank := 9; row := 0x48d; col := 0 |})
                     (Z.of_nat k)) 1.
Proof.
  apply (dram_addr_round_trip default_layout {| bank := 9; row := 0x48d; col := 0 |});
    vm_compute; reflexivity.
Defined.

End AddressRoundTrip.


Section WindowAddresses.
Import Bits DRAM Canonical Placement Flipper Noncontiguous.

Lemma collect_addrs_spec L bank first_victim :
  layout_ok L = true ->
  disjoint_masks (row_masks L ++ col_masks L) = true ->
  0 <= bank < 2 ^ Z.of_nat (length (h_fns L)) ->
  0 <= first_victim ->
  forall pattern offset addrs,
  0 <= offset ->
  offset + Z.of_nat (length pattern) < 2 ^ 32 ->
  first_victim + offset + Z.of_nat (length pattern)
  <= 2 ^ total_bits (row_masks L) ->
  exists ps,
    length ps = length pattern
    /\ (forall (i : nat) p,
          ps !! i = Some p ->
          DRAM.phys L {| bank := bank; row := first_victim + offset + Z.of_nat i;
                    col := 0 |} = Some p
          /\ DRAMAddr_of_phys L p
             = {| bank := bank; row := first_victim + offset + Z.of_nat i;
                  col := 0 |})
    /\ collect_addrs L pattern bank first_victim offset addrs
       = Some {| aggs := aggs addrs ++ select true pattern ps;
                 victims := victims addrs ++ select false pattern ps |}.
Proof.
  intros Hok Hdisj Hbank Hfv.
  assert (Hrt : total_bits (row_masks L) <= 64).
  { unfold layout_ok in Hok.
    apply andb_prop in Hok as [Hok _]. apply andb_prop in Hok as [Hok _].
    apply andb_prop in Hok as [Hrows _].
    apply field_ok_contiguous in Hrows as [_ H]. exact H. }
  pose proof (pow2_le_mono (total_bits (row_masks L)) 64
                ltac:(pose proof (total_bits_nonneg (row_masks L)); lia)) as Hpow.
  induction pattern as [|is_agg rest IH]; intros offset addrs Hoff Hfit Hrows.
  - exists []. split; [reflexivity|]. split; [intros i p Hi; destruct i; discriminate|].
    cbn. rewrite !app_nil_r. destruct addrs. reflexivity.
  - cbn [length] in *.
    destruct (phys_then_constructor L
                {| bank := bank; row := first_victim + offset; col := 0 |} Hok Hdisj)
      as (p & Hphys & _ & Hback & _).
    { unfold fits. cbn [DRAM.bank row col].
      pose proof (total_bits_nonneg (col_masks L)) as Hc.
      assert (0 < 2 ^ total_bits (col_masks L)) by (apply Z.pow_pos_nonneg; lia).
      repeat (apply andb_true_intro; split);
        try (apply Z.leb_le; lia); try (apply Z.ltb_lt; lia). }
    destruct (IH (offset + 1)
                (if is_agg
                 then {| aggs := aggs addrs ++ [p]; victims := victims addrs |}
                 else {| aggs := aggs addrs; victims := victims addrs ++ [p] |})
                ltac:(lia) ltac:(lia) ltac:(lia))
      as (ps & Hlen & Hps & Hrun).
    exists (p :: ps). split; [cbn; lia|]. split.
    + intros i q Hi. destruct i as [|i].
      * injection Hi as <-. rewrite Z.add_0_r. split; assumption.
      * replace (first_victim + offset + Z.of_nat (S i))
          with (first_victim + (offset + 1) + Z.of_nat i) by lia.
        apply Hps. exact Hi.
    + cbn [collect_addrs]. rewrite wrap64_small by lia. rewrite Hphys.
      cbn [mbind option_bind]. rewrite wrap32_small by lia. rewrite Hrun.
      f_equal. unfold select. cbn [combine List.filter fst].
      destruct is_agg; cbn [Bool.eqb map snd aggs victims];
        rewrite <- ?app_assoc; reflexivity.
Qed.

(** X20: the addresses [hammer] collects for a window. In a layout as for
    the round trip, for a bank below the bank count and a window of rows
    that fit the row masks, the loop over the pattern gives one physical
    address for each position of the pattern: the address of column 0 of
    row [first_victim + i] of the bank for position [i], which the
    converting constructor maps back to that bank and row; the addresses of
    the positions holding true are the aggressors, in order, the others the
    victims. *)
Theorem hammer_addresses_in_rows L pattern bank first_victim :
  layout_ok L = true ->
  disjoint_masks (row_masks L ++ col_masks L) = true ->
  0 <= bank < 2 ^ Z.of_nat (length (h_fns L)) ->
  0 <= first_victim ->
  Z.of_nat (length pattern) < 2 ^ 32 ->
  first_victim + Z.of_nat (length pattern) <= 2 ^ total_bits (row_masks L) ->
  exists ps,
    length ps = length pattern
    /\ (forall (i : nat) p,
          ps !! i = Some p ->
          DRAM.phys L {| bank := bank; row := first_victim + Z.of_nat i; col := 0 |}
          = Some p
          /\ DRAMAddr_of_phys L p
             = {| bank := bank; row := first_victim + Z.of_nat i; col := 0 |})
    /\ collect_addrs L pattern bank first_victim 0 {| aggs := []; victims := [] |}
       = Some {| aggs := select true pattern ps;
                 victims := select false pattern ps |}.
Proof.
  intros Hok Hdisj Hbank Hfv Hlen Hrows.
  destruct (collect_addrs_spec L bank first_victim Hok Hdisj Hbank Hfv
              pattern 0 {| aggs := []; victims := [] |})
    as (ps & Hl & Hps & Hrun); try lia.
  exists ps. split; [exact Hl|]. split; [|exact Hrun].
  intros i p Hi. specialize (Hps i p Hi). rewrite Z.add_0_r in Hps. exact Hps.
Qed.

Lemma hammer_addresses_in_rows_witness :
  exists ps,
    length ps = length [false; true; false]
    /\ (forall (i : nat) p,
          ps !! i = Some p ->
          DRAM.phys default_layout {| bank := 9; row := 5 + Z.of_nat i; col := 0 |}
          = Some p
          /\ DRAMAddr_of_phys default_layout p
             = {| bank := 9; row := 5 + Z.of_nat i; col := 0 |})
    /\ collect_addrs default_layout [false; true; false] 9 5 0
         {| aggs := []; victims := [] |}
       = Some {| aggs := select true [false; true; false] ps;
                 victims := select false [false; true; false] ps |}.
Proof.
  apply (hammer_addresses_in_rows default_layout [false; true; false] 9 5);
    vm_compute; first [reflexivity | split; congruence | congruence].
Defined.

End WindowAddresses.


Section ConstructorRange.
Import Bits DRAM Canonical Placement.

Lemma bank_loop_nonneg p : forall fns i acc,
  0 <= acc -> 0 <= bank_loop fns i p acc.
Proof.
  induction fns as [|f rest IH]; intros i acc Hacc; cbn [bank_loop]; [exact Hacc|].
  apply IH. apply Z.lor_nonneg. split; [exact Hacc|].
  unfold shl64. apply wrap64_range.
Qed.

Lemma small_of_bits_above x n :
  0 <= x -> 0 <= n -> (forall k, n <= k -> Z.testbit x k = false) ->
  x < 2 ^ n.
Proof.
  intros Hx Hn Hhigh.
  assert (Hmod : x = x mod 2 ^ n).
  { rewrite <- Z.land_ones by lia. apply Z.bits_inj'. intros k Hk.
    rewrite Z.land_spec, Z.testbit_ones_nonneg by lia.
    destruct (Z.ltb_spec k n); [rewrite andb_true_r; reflexivity|].
    rewrite Hhigh by lia. reflexivity. }
  rewrite Hmod. apply Z.mod_pos_bound. apply Z.pow_pos_nonneg; lia.
Qed.

Lemma extract_range masks p :
  field_ok masks = true -> 0 <= p ->
  0 <= extract masks p < 2 ^ total_bits masks.
Proof.
  intros Hok Hp. rewrite extract_concat by assumption.
  unfold field_ok in Hok. destruct masks as [|m [|m' rest]].
  - cbn. lia.
  - cbn [concat_pieces total_bits fold_right].
    rewrite Z.shiftl_0_l, !Z.add_0_r. apply piece_range; assumption.
  - apply andb_prop in Hok as [Hall _]. apply concat_pieces_range; assumption.
Qed.

Lemma constructor_fits L p :
  layout_ok L = true -> 0 <= p < 2 ^ 64 ->
  fits L (DRAMAddr_of_phys L p) = true.
Proof.
  intros Hok Hp. unfold layout_ok in Hok.
  apply andb_prop in Hok as [Hok _]. apply andb_prop in Hok as [Hok Hlen].
  apply andb_prop in Hok as [Hrows Hcols]. apply Z.leb_le in Hlen.
  unfold fits, DRAMAddr_of_phys, get_dram_row, get_dram_col. cbn [bank row col].
  pose proof (extract_range _ p Hrows ltac:(lia)) as Hr.
  pose proof (extract_range _ p Hcols ltac:(lia)) as Hc.
  pose proof (bank_loop_nonneg p (h_fns L) 0 0 ltac:(lia)) as Hb0.
  assert (Hb1 : bank_loop (h_fns L) 0 p 0 < 2 ^ Z.of_nat (length (h_fns L))).
  { apply small_of_bits_above; [exact Hb0|lia|].
    intros k Hk. rewrite bank_loop_high by lia. apply Z.testbit_0_l. }
  repeat (apply andb_true_intro; split);
    try (apply Z.leb_le; lia); try (apply Z.ltb_lt; lia).
Qed.

(** X23: what the two conversions do to an arbitrary address. In a layout as
    for the round trip, the DRAM address the constructor computes for any
    64-bit physical address fits the layout, so [phys()] of it fails no
    assertion, and the physical address [phys()] returns lies in the same
    bank, row and column as the address one started from. *)
Theorem constructor_then_phys L p :
  layout_ok L = true ->
  disjoint_masks (row_masks L ++ col_masks L) = true ->
  0 <= p < 2 ^ 64 ->
  fits L (DRAMAddr_of_phys L p) = true
  /\ exists p',
       phys L (DRAMAddr_of_phys L p) = Some p'
       /\ DRAMAddr_of_phys L p' = DRAMAddr_of_phys L p.
Proof.
  intros Hok Hdisj Hp.
  pose proof (constructor_fits L p Hok Hp) as Hfits.
  split; [exact Hfits|].
  destruct (phys_then_constructor L (DRAMAddr_of_phys L p) Hok Hdisj Hfits)
    as (p' & Hphys & _ & Hback & _).
  exists p'. split; assumption.
Qed.

Lemma constructor_then_phys_witness :
  fits default_layout (DRAMAddr_of_phys default_layout 0x12345000) = true
  /\ exists p',
       phys default_layout (DRAMAddr_of_phys default_layout 0x12345000) = Some p'
       /\ DRAMAddr_of_phys default_layout p'
          = DRAMAddr_of_phys default_layout 0x12345000.
Proof.
  apply (constructor_then_phys default_layout 0x12345000);
    vm_compute; first [reflexivity | split; congruence].
Defined.

End ConstructorRange.

(** ** Initialization patterns *)

Section InitPatterns.
Import Bits Conf InitPattern.

Lemma concat_replicate_length {A} (l : list A) (n : nat) :
  length (List.concat (replicate n l)) = (n * length l)%nat.
Proof.
  induction n as [|n IH]; cbn [replicate List.concat]; [reflexivity|].
  rewrite length_app, IH. lia.
Qed.

Lemma concat_replicate_lookup {A} (l : list A) (n : nat) : forall i : nat,
  (i < n * length l)%nat ->
  List.concat (replicate n l) !! i = l !! (i mod length l)%nat.
Proof.
  induction n as [|n IH]; intros i Hi; [lia|].
  cbn [replicate List.concat].
  assert (Hl : (0 < length l)%nat) by (destruct l; cbn in *; lia).
  destruct (Nat.lt_ge_cases i (length l)) as [Hlt|Hge].
  - rewrite lookup_app_l by exact Hlt. rewrite Nat.mod_small by exact Hlt.
    reflexivity.
  - rewrite lookup_app_r by exact Hge. rewrite IH by lia.
    f_equal. replace i with ((i - length l) + 1 * length l)%nat at 2 by lia.
    rewrite Nat.Div0.mod_add. reflexivity.
Qed.

Lemma prefix_base_cases prefix base length_ :
  prefix_base prefix = Some (base, length_) ->
  (base = 16 /\ length_ = 16) \/ (base = 2 /\ length_ = 64).
Proof.
  unfold prefix_base. destruct (bool_decide _); [intros [= <- <-]; auto|].
  destruct (bool_decide _); [intros [= <- <-]; auto|discriminate].
Qed.

(** X21: how [parse_init_pattern] ends. With a prefix other than [0x] and
    [0b] it ends the process; with one of them and nothing after it, it
    divides by zero; otherwise it hands [std::stoull] exactly 16 (for [0x])
    or 64 (for [0b]) characters, the characters after the prefix repeated
    from the start as often as needed and cut off at that length, and
    returns what [std::stoull] makes of them. *)
Theorem parse_init_pattern_fills stoull s :
  (prefix_base (take 2 s) = None ->
   exists log, parse_init_pattern stoull s = ParseExit log)
  /\ (forall base length_,
        prefix_base (take 2 s) = Some (base, length_) ->
        (drop 2 s = [] ->
         exists log, parse_init_pattern stoull s = ParseFault log)
        /\ (drop 2 s <> [] ->
            exists digits log,
              length digits = Z.to_nat length_
              /\ (forall i : nat,
                    (i < Z.to_nat length_)%nat ->
                    digits !! i
                    = drop 2 s !! (i mod length (drop 2 s))%nat)
              /\ parse_init_pattern stoull s
                 = match stoull digits base with
                   | Some value => Parsed value log
                   | None => ParseThrow log
                   end)).
Proof.
  split.
  - intros Hp. unfold parse_init_pattern. rewrite Hp. eexists. reflexivity.
  - intros base length_ Hp. unfold parse_init_pattern. rewrite Hp.
    pose proof (prefix_base_cases _ _ _ Hp) as Hcases.
    split.
    + intros ->. cbn [length Z.of_nat Z.eqb]. eexists. reflexivity.
    + intros Hne.
      assert (Hlen : 0 < Z.of_nat (length (drop 2 s))).
      { destruct (drop 2 s); [contradiction|cbn; lia]. }
      destruct (Z.eqb_spec (Z.of_nat (length (drop 2 s))) 0) as [H0|_]; [lia|].
      set (body := drop 2 s) in *.
      set (rep := length_ / Z.of_nat (length body)
                  + (if length_ mod Z.of_nat (length body) =? 0 then 0 else 1)).
      assert (Hrep : length_ <= rep * Z.of_nat (length body) /\ 0 <= rep).
      { subst rep.
        assert (0 <= length_) by (destruct Hcases as [[_ ->]|[_ ->]]; lia).
        pose proof (Z.div_mod length_ (Z.of_nat (length body)) ltac:(lia)) as Hdm.
        pose proof (Z.mod_pos_bound length_ (Z.of_nat (length body)) Hlen) as Hm.
        assert (0 <= length_ / Z.of_nat (length body)) by (apply Z.div_pos; lia).
        destruct (Z.eqb_spec (length_ mod Z.of_nat (length body)) 0); split; nia. }
      exists (fill body length_ rep). eexists.
      assert (Hlong : (Z.to_nat length_
                       <= Z.to_nat rep * length body)%nat) by nia.
      split; [|split; [|reflexivity]].
      * unfold fill. rewrite length_take, concat_replicate_length. lia.
      * intros i Hi. unfold fill. rewrite lookup_take_lt by exact Hi.
        apply concat_replicate_lookup. lia.
Qed.

Lemma parse_init_pattern_fills_witness :
  exists digits log,
    length digits = Z.to_nat 16
    /\ (forall i : nat,
          (i < Z.to_nat 16)%nat ->
          digits !! i
          = drop 2 example_pattern !! (i mod length (drop 2 example_pattern))%nat)
    /\ parse_init_pattern stoull_digits example_pattern
       = match stoull_digits digits 16 with
         | Some value => Parsed value log
         | None => ParseThrow log
         end.
Proof.
  apply (parse_init_pattern_fills stoull_digits example_pattern).
  - reflexivity.
  - discriminate.
Defined.

(** The example evaluated, and the conversion at strings that are not
    digits throughout: it stops at the first other character, skips white
    space, takes a sign and a hexadecimal prefix, and throws without a
    digit or beyond 64 bits. *)
Lemma stoull_digits_examples :
  parse_init_pattern stoull_digits example_pattern = Parsed 0xa5a5a5a5a5a5a5a5 []
  /\ stoull_digits ["1"; "f"; "g"; "2"]%char 16 = Some 0x1f
  /\ stoull_digits [" "; "0"; "x"; "1"; "0"]%char 16 = Some 16
  /\ stoull_digits ["0"; "x"]%char 16 = Some 0
  /\ stoull_digits ["-"; "1"]%char 2 = Some (2 ^ 64 - 1)
  /\ stoull_digits ["1"; "0"; "2"]%char 2 = Some 2
  /\ stoull_digits ["g"]%char 16 = None
  /\ stoull_digits (replicate 17 "f"%char) 16 = None.
Proof. repeat (split; [vm_compute; reflexivity|]). vm_compute. reflexivity. Qed.

End InitPatterns.

